(** * favigen: the PNG-to-ICO encoder, the ICO inspector and the generator

    A shallow embedding of the ICO module of favigen (encodeIco, pngToIco,
    isValidIco, getIcoInfo and their helpers, together with the older
    validation-free encodeIco) and of the part of the command-line generator
    that calls it (generateIco with its helpers, and detectThemeColor), with
    proofs of the specification and of further properties of the code.

    Buffers are lists of bytes; JavaScript numbers that the module handles
    are non-negative integers and are modelled in [N]; thrown exceptions are
    the [Throw] results of an error monad.  Node's Buffer accessors are
    modelled with their range checks: a read or a write outside the buffer,
    or a write of a value that does not fit the field, throws. *)

From stdpp Require Import base list numbers strings gmap pretty.
From Stdlib Require Import NArith Lia.
From Stdlib Require Import Strings.Byte Strings.Ascii HexadecimalString.

Local Open Scope N_scope.

(** ** Errors and the error monad *)

(** One constructor per [throw] site of the module, carrying the values the
    message interpolates, and two for the errors Node itself raises. *)
Inductive Error : Type :=
  | ExpectedBuffer (index : N) (ty : string)
  | PngTooSmall (index : N) (length : N)
  | InvalidPngSignature (index : N) (i : N)
  | InvalidIhdrLength (index : N) (ihdrLength : N)
  | ExpectedIhdr (index : N) (ihdrType : string)
  | InvalidDimensions (index : N) (width height : N)
  | DimensionsTooLarge (index : N) (width height : N)
  | NotAnArray
  | NoPngBuffer
  | TooManyImages (count : N)
  | FailedToProcess (position : N) (cause : Error)
  | InvalidPngFile
  | InvalidIcoFile
  | RangeError
  | TypeError.

Inductive result (A : Type) : Type :=
  | Ok (a : A)
  | Throw (e : Error).
Arguments Ok {A} a.
Arguments Throw {A} e.

Global Instance result_ret : MRet result := @Ok.
Global Instance result_bind : MBind result := λ A B f m,
  match m with
  | Ok a => f a
  | Throw e => Throw e
  end.

(** The errors [validateAndExtractPngInfo] raises on purpose; each carries
    the index it was given. *)
Definition validation_index (e : Error) : option N :=
  match e with
  | ExpectedBuffer index _ | PngTooSmall index _ | InvalidPngSignature index _
  | InvalidIhdrLength index _ | ExpectedIhdr index _
  | InvalidDimensions index _ _ | DimensionsTooLarge index _ _ => Some index
  | _ => None
  end.

(** ** Loops *)

Inductive LoopStep (St : Type) : Type :=
  | Continue (s : St)
  | Break (s : St).
Arguments Continue {St} s.
Arguments Break {St} s.

(** [for (let i = lo; i < hi; i++) body]: [n] iterations from index [i],
    threading the loop-carried variables [s]; the body may [break] or throw. *)
Fixpoint for_loop {St : Type} (n : nat) (i : N)
    (body : N → St → result (LoopStep St)) (s : St) : result St :=
  match n with
  | O => Ok s
  | S n' =>
      match body i s with
      | Ok (Continue s') => for_loop n' (N.succ i) body s'
      | Ok (Break s') => Ok s'
      | Throw e => Throw e
      end
  end.

Definition for_range {St : Type} (lo hi : N)
    (body : N → St → result (LoopStep St)) (s : St) : result St :=
  for_loop (N.to_nat (hi - lo)) lo body s.

(** ** Buffers *)

Abbreviation Buffer := (list byte).

Global Instance byte_eq_dec : EqDecision byte := Byte.byte_eq_dec.

(** [buffer.length] *)
Definition len {A : Type} (l : list A) : N := N.of_nat (length l).

(** [buffer[i]] as a number; [None] is [undefined]. *)
Definition at_index (b : Buffer) (i : N) : option N :=
  Byte.to_N <$> b !! N.to_nat i.

(** The conversion a typed array applies to a stored number. *)
Definition ToUint8 (v : N) : byte :=
  match Byte.of_N (v mod 256) with
  | Some x => x
  | None => x00
  end.

(** [buffer[i] = v]; an index outside the buffer stores nothing. *)
Definition set_index (b : Buffer) (i : N) (v : N) : Buffer :=
  <[N.to_nat i := ToUint8 v]> b.

(** [Buffer.alloc(n)] *)
Definition alloc (n : N) : Buffer := replicate (N.to_nat n) x00.

(** The bounds check of the fixed-width accessors. *)
Definition in_bounds (b : Buffer) (offset width : N) : Prop :=
  offset + width ≤ len b.

Global Instance in_bounds_dec b offset width : Decision (in_bounds b offset width).
Proof. unfold in_bounds. apply _. Defined.

(** A byte that is known to be inside the buffer, as a number. *)
Definition byte_or_zero (b : Buffer) (i : N) : N :=
  default 0 (at_index b i).

(** The numbers the fixed-width readers assemble from the bytes at
    [offset]; the readers themselves first check the bounds. *)
Definition uint16LE (b : Buffer) (offset : N) : N :=
  byte_or_zero b offset + byte_or_zero b (offset + 1) * 2 ^ 8.

Definition uint32LE (b : Buffer) (offset : N) : N :=
  byte_or_zero b offset
  + byte_or_zero b (offset + 1) * 2 ^ 8
  + byte_or_zero b (offset + 2) * 2 ^ 16
  + byte_or_zero b (offset + 3) * 2 ^ 24.

Definition uint32BE (b : Buffer) (offset : N) : N :=
  byte_or_zero b offset * 2 ^ 24
  + byte_or_zero b (offset + 1) * 2 ^ 16
  + byte_or_zero b (offset + 2) * 2 ^ 8
  + byte_or_zero b (offset + 3).

(** [buffer.readUInt16LE(offset)] and the like: Node throws a range error
    when the bytes to read are not all inside the buffer. *)
Definition readUInt16LE (b : Buffer) (offset : N) : result N :=
  if decide (in_bounds b offset 2) then Ok (uint16LE b offset)
  else Throw RangeError.

Definition readUInt32LE (b : Buffer) (offset : N) : result N :=
  if decide (in_bounds b offset 4) then Ok (uint32LE b offset)
  else Throw RangeError.

Definition readUInt32BE (b : Buffer) (offset : N) : result N :=
  if decide (in_bounds b offset 4) then Ok (uint32BE b offset)
  else Throw RangeError.

(** [buffer.writeUInt16LE(value, offset)] and [buffer.writeUInt32LE(value,
    offset)]: Node throws a range error when the value does not fit the
    field (it is above 65535, or above 4294967295) or when the bytes to
    write are not all inside the buffer; otherwise it stores the value byte
    by byte, shifting it right by 8 after each.  The result is the new
    content of the buffer. *)
Definition writeUInt16LE (b : Buffer) (value offset : N) : result Buffer :=
  if decide (value ≤ 65535 ∧ in_bounds b offset 2) then
    Ok (set_index (set_index b offset value) (offset + 1) (N.shiftr value 8))
  else Throw RangeError.

Definition writeUInt32LE (b : Buffer) (value offset : N) : result Buffer :=
  if decide (value ≤ 4294967295 ∧ in_bounds b offset 4) then
    let b := set_index b offset value in
    let b := set_index b (offset + 1) (N.shiftr value 8) in
    let b := set_index b (offset + 2) (N.shiftr value 16) in
    Ok (set_index b (offset + 3) (N.shiftr value 24))
  else Throw RangeError.

(** [source.copy(target, targetStart)]: as many bytes of [source] as fit in
    [target] from [targetStart]; the result is the new content of [target]. *)
Definition copy (source target : Buffer) (targetStart : N) : Buffer :=
  let start := N.to_nat targetStart in
  let n := (length source `min` (length target - start))%nat in
  take start target ++ take n source ++ drop (start + n) target.

(** [buffer.toString('ascii', start, end)]: the decoder clears the high bit
    of every byte. *)
Definition toString_ascii (b : Buffer) (start stop : N) : string :=
  String.string_of_list_ascii
    ((λ x, ascii_of_N (N.land (Byte.to_N x) 127))
       <$> take (N.to_nat stop - N.to_nat start) (drop (N.to_nat start) b)).

(** ** Run-time values

    The functions check the run-time type of their arguments
    ([Buffer.isBuffer], [Array.isArray]), so an argument is a value that is
    a buffer, an array of values, or something else, of which only the
    [typeof] string is observed.  The type is shared by the functional model
    ([B] is the content of a buffer) and by the heap model ([B] is a
    reference). *)
#[warnings="-register-all"]
Inductive value (B : Type) : Type :=
  | VBuffer (b : B)
  | VArray (items : list (value B))
  | VOther (ty : string).
Arguments VBuffer {B} b.
Arguments VArray {B} items.
Arguments VOther {B} ty.

Definition typeof {B : Type} (v : value B) : string :=
  match v with
  | VBuffer _ | VArray _ => "object"
  | VOther ty => ty
  end.

(** ** The module's constants *)

Definition PNG_SIGNATURE : list N :=
  [0x89; 0x50; 0x4e; 0x47; 0x0d; 0x0a; 0x1a; 0x0a].

Module ICO_CONSTANTS.
Definition HEADER_SIZE : N := 6.
Definition DIR_ENTRY_SIZE : N := 16.
Definition MAX_IMAGES : N := 256.
Definition MAX_DIMENSION : N := 256.
Definition TYPE_ICO : N := 1.
Definition TYPE_CUR : N := 2.
Definition PLANES : N := 1.
Definition BITS_PER_PIXEL : N := 32.
End ICO_CONSTANTS.
Import ICO_CONSTANTS.

Record PngImageInfo : Type := {
  buffer : Buffer;
  width : N;
  height : N;
  size : N;
}.

(** ** validateAndExtractPngInfo *)

Definition validateAndExtractPngInfo (v : value Buffer) (index : N)
    : result PngImageInfo :=
  match v with
  | VBuffer b =>
      if decide (len b < 24) then Throw (PngTooSmall index (len b)) else
      _ ← for_range 0 (len PNG_SIGNATURE) (λ i _,
            if decide (at_index b i ≠ PNG_SIGNATURE !! N.to_nat i)
            then Throw (InvalidPngSignature index i)
            else Ok (Continue tt)) tt;
      ihdrLength ← readUInt32BE b 8;
      if decide (ihdrLength ≠ 13) then Throw (InvalidIhdrLength index ihdrLength) else
      let ihdrType := toString_ascii b 12 16 in
      if decide (ihdrType ≠ "IHDR") then Throw (ExpectedIhdr index ihdrType) else
      width ← readUInt32BE b 16;
      height ← readUInt32BE b 20;
      if decide (width = 0 ∨ height = 0)
      then Throw (InvalidDimensions index width height) else
      if decide (MAX_DIMENSION < width ∨ MAX_DIMENSION < height)
      then Throw (DimensionsTooLarge index width height) else
      Ok {| buffer := b; width := width; height := height; size := len b |}
  | _ => Throw (ExpectedBuffer index (typeof v))
  end.

(** ** createIcoDirectoryEntry *)

Definition createIcoDirectoryEntry (imageInfo : PngImageInfo) (offset : N)
    : result Buffer :=
  let entry := alloc DIR_ENTRY_SIZE in
  let width := width imageInfo in
  let height := height imageInfo in
  let size := size imageInfo in
  let entry := set_index entry 0 (if decide (width = MAX_DIMENSION) then 0 else width) in
  let entry := set_index entry 1 (if decide (height = MAX_DIMENSION) then 0 else height) in
  let entry := set_index entry 2 0 in
  let entry := set_index entry 3 0 in
  entry ← writeUInt16LE entry PLANES 4;
  entry ← writeUInt16LE entry BITS_PER_PIXEL 6;
  entry ← writeUInt32LE entry size 8;
  entry ← writeUInt32LE entry offset 12;
  Ok entry.

(** ** encodeIco *)

(** [array[i]]; [undefined] outside the array. *)
Definition element {B : Type} (items : list (value B)) (i : N) : value B :=
  default (VOther "undefined") (items !! N.to_nat i).

(** The first loop of [encodeIco]: validate every buffer, wrapping the error
    of the first one that fails. *)
Definition validateAll (pngBuffers : list (value Buffer))
    : result (list PngImageInfo) :=
  for_range 0 (len pngBuffers) (λ i imageInfos,
    match validateAndExtractPngInfo (element pngBuffers i) (i + 1) with
    | Ok info => Ok (Continue (imageInfos ++ [info]))
    | Throw error => Throw (FailedToProcess (i + 1) error)
    end) [].

(** The loop that fills the directory: the loop-carried variables are the
    directory buffer and the running offset. *)
Definition fillDirectory (imageInfos : list PngImageInfo)
    (dirEntries : Buffer) (offset : N) : result (Buffer * N) :=
  for_range 0 (len imageInfos) (λ i '(dirEntries, offset),
    match imageInfos !! N.to_nat i with
    | Some info =>
        entry ← createIcoDirectoryEntry info offset;
        Ok (Continue (copy entry dirEntries (i * DIR_ENTRY_SIZE), offset + size info))
    | None => Throw TypeError
    end) (dirEntries, offset).

(** The duplicate-dimension loop.  Its state is the set of keys seen and
    the keys passed to [console.warn] so far, in order; a key
    [`${width}x${height}`] is kept as the pair it prints.  The loop has no
    other effect, and none on the value [encodeIco] returns. *)
Definition warnDuplicate (st : gset (N * N) * list (N * N))
    (info : PngImageInfo) : gset (N * N) * list (N * N) :=
  let '(dimensionSet, warnings) := st in
  let key := (width info, height info) in
  ({[key]} ∪ dimensionSet,
   if decide (key ∈ dimensionSet) then warnings ++ [key] else warnings).

Definition duplicateWarnings (imageInfos : list PngImageInfo) : list (N * N) :=
  (foldl warnDuplicate (∅, []) imageInfos).2.

(** The value [encodeIco] returns or the error it throws.  The loop over
    [imageInfos] that warns about duplicate sizes comes between the
    validation and the header; it only prints, see [encodeIco_warnings]. *)
Definition encodeIco (pngBuffers : value Buffer) : result Buffer :=
  match pngBuffers with
  | VArray pngBuffers =>
      if decide (len pngBuffers = 0) then Throw NoPngBuffer else
      if decide (MAX_IMAGES < len pngBuffers)
      then Throw (TooManyImages (len pngBuffers)) else
      imageInfos ← validateAll pngBuffers;
      let count := len imageInfos in
      let header := alloc HEADER_SIZE in
      header ← writeUInt16LE header 0 0;
      header ← writeUInt16LE header TYPE_ICO 2;
      header ← writeUInt16LE header count 4;
      let dirEntries := alloc (DIR_ENTRY_SIZE * count) in
      let offset := len header + len dirEntries in
      '(dirEntries, _) ← fillDirectory imageInfos dirEntries offset;
      let imageBuffers := buffer <$> imageInfos in
      Ok (concat ([header; dirEntries] ++ imageBuffers))
  | _ => Throw NotAnArray
  end.

(** What a call of [encodeIco] prints on the console: the duplicate
    warnings, when the validation loop is passed. *)
Definition encodeIco_warnings (pngBuffers : value Buffer) : list (N * N) :=
  match pngBuffers with
  | VArray pngBuffers =>
      if decide (len pngBuffers = 0) then [] else
      if decide (MAX_IMAGES < len pngBuffers) then [] else
      match validateAll pngBuffers with
      | Ok imageInfos => duplicateWarnings imageInfos
      | Throw _ => []
      end
  | _ => []
  end.

Definition pngToIco (pngBuffer : value Buffer) : result Buffer :=
  encodeIco (VArray [pngBuffer]).

(** ** isValidIco and getIcoInfo *)

Definition isValidIco (v : value Buffer) : result bool :=
  match v with
  | VBuffer b =>
      if decide (len b < HEADER_SIZE) then Ok false else
      reserved ← readUInt16LE b 0;
      type ← readUInt16LE b 2;
      count ← readUInt16LE b 4;
      Ok (bool_decide (reserved = 0)
          && (bool_decide (type = TYPE_ICO) || bool_decide (type = TYPE_CUR))
          && bool_decide (0 < count)
          && bool_decide (count ≤ MAX_IMAGES))
  | _ => Ok false
  end.

Inductive IcoType : Type := ICO | CUR.

Record ImageEntry : Type := {
  entry_width : N;
  entry_height : N;
  entry_size : N;
}.

Record IcoInfo : Type := {
  imageCount : N;
  type : IcoType;
  images : list ImageEntry;
}.

(** The body of the loop of [getIcoInfo].  The guard keeps
    [entryOffset + 15] inside the buffer, so the two indexed reads are of
    stored bytes (lemma [byte_or_zero_at_index]). *)
Definition readEntry (b : Buffer) (i : N) (images : list ImageEntry)
    : result (LoopStep (list ImageEntry)) :=
  let entryOffset := HEADER_SIZE + i * DIR_ENTRY_SIZE in
  if decide (len b < entryOffset + DIR_ENTRY_SIZE) then Ok (Break images) else
  let width := byte_or_zero b entryOffset in
  let height := byte_or_zero b (entryOffset + 1) in
  size ← readUInt32LE b (entryOffset + 8);
  let width := if decide (width = 0) then MAX_DIMENSION else width in
  let height := if decide (height = 0) then MAX_DIMENSION else height in
  Ok (Continue (images ++ [{| entry_width := width; entry_height := height;
                              entry_size := size |}])).

Definition getIcoInfo (v : value Buffer) : result IcoInfo :=
  valid ← isValidIco v;
  if negb valid then Throw InvalidIcoFile else
  match v with
  | VBuffer b =>
      type ← readUInt16LE b 2;
      count ← readUInt16LE b 4;
      images ← for_range 0 count (readEntry b) [];
      Ok {| imageCount := count;
            type := if decide (type = TYPE_ICO) then ICO else CUR;
            images := images |}
  | _ => Throw TypeError
  end.

(** ** The validation-free encodeIco

    The second [encodeIco] of the repository.  It has no run-time type
    checks, so its argument is taken at its declared type, an array of
    buffers. *)
Module Legacy.

(** [array.forEach((x, i) => body)] *)
Fixpoint forEach {A St : Type} (l : list A) (i : N)
    (body : A → N → St → result St) (s : St) : result St :=
  match l with
  | [] => Ok s
  | x :: l' => s' ← body x i s; forEach l' (N.succ i) body s'
  end.

(** The callback of [forEach]; the variables it assigns, [dirEntries] (by
    writing into it) and [offset], are threaded through. *)
Definition writeEntry (buf : Buffer) (i : N) (st : Buffer * N)
    : result (Buffer * N) :=
  let '(dirEntries, offset) := st in
  sig0 ← readUInt32BE buf 0;
  if decide (sig0 ≠ 0x89504e47) then Throw InvalidPngFile else
  sig4 ← readUInt32BE buf 4;
  if decide (sig4 ≠ 0x0d0a1a0a) then Throw InvalidPngFile else
  width ← readUInt32BE buf 16;
  height ← readUInt32BE buf 20;
  let dirEntries :=
    set_index dirEntries (i * 16 + 0) (if decide (width = 256) then 0 else width) in
  let dirEntries :=
    set_index dirEntries (i * 16 + 1) (if decide (height = 256) then 0 else height) in
  let dirEntries := set_index dirEntries (i * 16 + 2) 0 in
  let dirEntries := set_index dirEntries (i * 16 + 3) 0 in
  dirEntries ← writeUInt16LE dirEntries 1 (i * 16 + 4);
  dirEntries ← writeUInt16LE dirEntries 32 (i * 16 + 6);
  dirEntries ← writeUInt32LE dirEntries (len buf) (i * 16 + 8);
  dirEntries ← writeUInt32LE dirEntries offset (i * 16 + 12);
  Ok (dirEntries, offset + len buf).

Definition encodeIco (pngBuffers : list Buffer) : result Buffer :=
  let count := len pngBuffers in
  let header := alloc 6 in
  header ← writeUInt16LE header 0 0;
  header ← writeUInt16LE header 1 2;
  header ← writeUInt16LE header count 4;
  let dirEntries := alloc (16 * count) in
  let offset := len header + len dirEntries in
  '(dirEntries, _) ← forEach pngBuffers 0 writeEntry (dirEntries, offset);
  Ok (concat ([header; dirEntries] ++ pngBuffers)).

End Legacy.


(** ** The encoder over a heap of buffers

    In the functional model above a buffer is its content, so that no call
    can change a buffer of its caller.  To state what [encodeIco] does to the
    buffers it is given, this second embedding keeps every buffer in a heap
    and passes references, as the source does: each access of the source is
    an operation on the heap, the result of a call is a value or a thrown
    error together with the heap (and the console) it leaves behind. *)
Module Heap.

Abbreviation ref := nat.

Record state : Type := {
  buffers : list (list byte);
  console : list (N * N);
}.

Definition M (A : Type) : Type := state → result A * state.

Global Instance M_ret : MRet M := λ A a s, (Ok a, s).
Global Instance M_bind : MBind M := λ A B f m s,
  match m s with
  | (Ok a, s') => f a s'
  | (Throw e, s') => (Throw e, s')
  end.

Definition throw {A : Type} (e : Error) : M A := λ s, (Throw e, s).

(** [try { m } catch (error) { handler error }] *)
Definition try_catch {A : Type} (m : M A) (handler : Error → M A) : M A := λ s,
  match m s with
  | (Ok a, s') => (Ok a, s')
  | (Throw e, s') => handler e s'
  end.

(** A new buffer, at the first free reference. *)
Definition new (b : list byte) : M ref := λ s,
  (Ok (length (buffers s)),
   {| buffers := buffers s ++ [b]; console := console s |}).

Definition contents (r : ref) : M (list byte) := λ s,
  match buffers s !! r with
  | Some b => (Ok b, s)
  | None => (Throw TypeError, s)
  end.

Definition store (r : ref) (b : list byte) : M unit := λ s,
  (Ok tt, {| buffers := <[r := b]> (buffers s); console := console s |}).

(** An accessor that only reads the buffer, and one that changes it. *)
Definition read {A : Type} (f : list byte → result A) (r : ref) : M A :=
  b ← contents r;
  match f b with
  | Ok a => mret a
  | Throw e => throw e
  end.

Definition write (f : list byte → result (list byte)) (r : ref) : M unit :=
  b ← contents r;
  match f b with
  | Ok b' => store r b'
  | Throw e => throw e
  end.

(** [console.warn] of a duplicate-size warning. *)
Definition warn (key : N * N) : M unit := λ s,
  (Ok tt, {| buffers := buffers s; console := console s ++ [key] |}).

(** The operations of Buffer, on references. *)
Definition alloc (n : N) : M ref := new (alloc n).
Definition length_of (r : ref) : M N := read (λ b, Ok (len b)) r.
Definition at_index (r : ref) (i : N) : M (option N) :=
  read (λ b, Ok (at_index b i)) r.
Definition set_index (r : ref) (i v : N) : M unit :=
  write (λ b, Ok (set_index b i v)) r.
Definition readUInt32BE (r : ref) (offset : N) : M N :=
  read (λ b, readUInt32BE b offset) r.
Definition writeUInt16LE (r : ref) (value offset : N) : M unit :=
  write (λ b, writeUInt16LE b value offset) r.
Definition writeUInt32LE (r : ref) (value offset : N) : M unit :=
  write (λ b, writeUInt32LE b value offset) r.
Definition toString_ascii (r : ref) (start stop : N) : M string :=
  read (λ b, Ok (toString_ascii b start stop)) r.
Definition copy (source target : ref) (targetStart : N) : M unit :=
  src ← contents source;
  write (λ b, Ok (copy src b targetStart)) target.

Fixpoint contents_of (refs : list ref) : M (list (list byte)) :=
  match refs with
  | [] => mret []
  | r :: refs' => b ← contents r; bs ← contents_of refs'; mret (b :: bs)
  end.

(** [Buffer.concat(refs)]: a new buffer with the bytes of all of them. *)
Definition concat (refs : list ref) : M ref :=
  bs ← contents_of refs;
  new (concat bs).

Fixpoint for_loop {St : Type} (n : nat) (i : N)
    (body : N → St → M (LoopStep St)) (st : St) : M St :=
  match n with
  | O => mret st
  | S n' =>
      step ← body i st;
      match step with
      | Continue st' => for_loop n' (N.succ i) body st'
      | Break st' => mret st'
      end
  end.

Definition for_range {St : Type} (lo hi : N)
    (body : N → St → M (LoopStep St)) (st : St) : M St :=
  for_loop (N.to_nat (hi - lo)) lo body st.

(** [for (const x of l) body] *)
Fixpoint for_of {A St : Type} (l : list A) (body : A → St → M St) (st : St)
    : M St :=
  match l with
  | [] => mret st
  | x :: l' => st' ← body x st; for_of l' body st'
  end.

Record PngImageInfo : Type := {
  buffer : ref;
  width : N;
  height : N;
  size : N;
}.

Definition validateAndExtractPngInfo (v : value ref) (index : N)
    : M PngImageInfo :=
  match v with
  | VBuffer r =>
      length ← length_of r;
      if decide (length < 24) then throw (PngTooSmall index length) else
      _ ← for_range 0 (len PNG_SIGNATURE) (λ i _,
            x ← at_index r i;
            if decide (x ≠ PNG_SIGNATURE !! N.to_nat i)
            then throw (InvalidPngSignature index i)
            else mret (Continue tt)) tt;
      ihdrLength ← readUInt32BE r 8;
      if decide (ihdrLength ≠ 13) then throw (InvalidIhdrLength index ihdrLength) else
      ihdrType ← toString_ascii r 12 16;
      if decide (ihdrType ≠ "IHDR") then throw (ExpectedIhdr index ihdrType) else
      width ← readUInt32BE r 16;
      height ← readUInt32BE r 20;
      if decide (width = 0 ∨ height = 0)
      then throw (InvalidDimensions index width height) else
      if decide (MAX_DIMENSION < width ∨ MAX_DIMENSION < height)
      then throw (DimensionsTooLarge index width height) else
      size ← length_of r;
      mret {| buffer := r; width := width; height := height; size := size |}
  | _ => throw (ExpectedBuffer index (typeof v))
  end.

Definition createIcoDirectoryEntry (imageInfo : PngImageInfo) (offset : N)
    : M ref :=
  entry ← alloc DIR_ENTRY_SIZE;
  let width := width imageInfo in
  let height := height imageInfo in
  let size := size imageInfo in
  set_index entry 0 (if decide (width = MAX_DIMENSION) then 0 else width);;
  set_index entry 1 (if decide (height = MAX_DIMENSION) then 0 else height);;
  set_index entry 2 0;;
  set_index entry 3 0;;
  writeUInt16LE entry PLANES 4;;
  writeUInt16LE entry BITS_PER_PIXEL 6;;
  writeUInt32LE entry size 8;;
  writeUInt32LE entry offset 12;;
  mret entry.

Definition encodeIco (pngBuffers : value ref) : M ref :=
  match pngBuffers with
  | VArray pngBuffers =>
      if decide (len pngBuffers = 0) then throw NoPngBuffer else
      if decide (MAX_IMAGES < len pngBuffers)
      then throw (TooManyImages (len pngBuffers)) else
      imageInfos ← for_range 0 (len pngBuffers) (λ i imageInfos,
        try_catch
          (info ← validateAndExtractPngInfo (element pngBuffers i) (i + 1);
           mret (Continue (imageInfos ++ [info])))
          (λ error, throw (FailedToProcess (i + 1) error))) [];
      _ ← for_of imageInfos (λ info (dimensionSet : gset (N * N)),
        let key := (width info, height info) in
        (if decide (key ∈ dimensionSet) then warn key else mret tt);;
        mret ({[key]} ∪ dimensionSet)) ∅;
      let count := len imageInfos in
      header ← alloc HEADER_SIZE;
      writeUInt16LE header 0 0;;
      writeUInt16LE header TYPE_ICO 2;;
      writeUInt16LE header count 4;;
      dirEntries ← alloc (DIR_ENTRY_SIZE * count);
      headerLength ← length_of header;
      dirEntriesLength ← length_of dirEntries;
      let offset := headerLength + dirEntriesLength in
      _ ← for_range 0 count (λ i offset,
        match imageInfos !! N.to_nat i with
        | Some info =>
            entry ← createIcoDirectoryEntry info offset;
            copy entry dirEntries (i * DIR_ENTRY_SIZE);;
            mret (Continue (offset + size info))
        | None => throw TypeError
        end) offset;
      let imageBuffers := buffer <$> imageInfos in
      concat ([header; dirEntries] ++ imageBuffers)
  | _ => throw NotAnArray
  end.

(** What a value over references stands for in a given heap. *)
Fixpoint resolve (h : list (list byte)) (v : value ref) : value (list byte) :=
  match v with
  | VBuffer r => VBuffer (default [] (h !! r))
  | VArray items => VArray (resolve h <$> items)
  | VOther ty => VOther ty
  end.

(** Every reference in the value is to a buffer of the heap. *)
Fixpoint allocated (h : list (list byte)) (v : value ref) : Prop :=
  match v with
  | VBuffer r => (r < length h)%nat
  | VArray items =>
      (fix all (l : list (value ref)) : Prop :=
         match l with
         | [] => True
         | x :: l' => allocated h x ∧ all l'
         end) items
  | VOther _ => True
  end.

End Heap.

(** The metadata record over a reference stands for the record over the
    content of the buffer. *)
Definition info_rel (h : list (list byte)) (hinfo : Heap.PngImageInfo)
    (info : PngImageInfo) : Prop :=
  h !! Heap.buffer hinfo = Some (buffer info)
  ∧ Heap.width hinfo = width info
  ∧ Heap.height hinfo = height info
  ∧ Heap.size hinfo = size info.

(** ** The byte layout of an ICO document

    The format of section 6 of the specification, written out as data: what
    the header, a directory entry and the whole document must contain.  The
    theorems relate the encoder and the inspector to it. *)

Definition png_signature_bytes : list byte :=
  [x89; x50; x4e; x47; x0d; x0a; x1a; x0a].

(** The conditions under which a value is not accepted as a PNG image. *)
Definition png_rejected (v : value Buffer) : Prop :=
  match v with
  | VBuffer b =>
      len b < 24
      ∨ take 8 b ≠ png_signature_bytes
      ∨ uint32BE b 8 ≠ 13
      ∨ toString_ascii b 12 16 ≠ "IHDR"
      ∨ uint32BE b 16 = 0 ∨ 256 < uint32BE b 16
      ∨ uint32BE b 20 = 0 ∨ 256 < uint32BE b 20
  | _ => True
  end.

Global Instance png_rejected_dec v : Decision (png_rejected v).
Proof. destruct v; simpl; apply _. Defined.

(** The metadata of a buffer: its IHDR dimensions and its byte length. *)
Definition info_of (b : Buffer) : PngImageInfo :=
  {| buffer := b; width := uint32BE b 16; height := uint32BE b 20;
     size := len b |}.

(** The byte that stands for a dimension in a directory entry. *)
Definition dimension_byte (d : N) : N :=
  if decide (d = MAX_DIMENSION) then 0 else d.

Definition header_bytes (count : N) : Buffer :=
  [x00; x00; x01; x00; ToUint8 count; ToUint8 (N.shiftr count 8)].

Definition entry_bytes (info : PngImageInfo) (offset : N) : Buffer :=
  [ToUint8 (dimension_byte (width info)); ToUint8 (dimension_byte (height info));
   x00; x00; x01; x00; x20; x00;
   ToUint8 (size info); ToUint8 (N.shiftr (size info) 8);
   ToUint8 (N.shiftr (size info) 16); ToUint8 (N.shiftr (size info) 24);
   ToUint8 offset; ToUint8 (N.shiftr offset 8);
   ToUint8 (N.shiftr offset 16); ToUint8 (N.shiftr offset 24)].

(** The directory of a batch whose first payload starts at [offset]. *)
Fixpoint directory_bytes (infos : list PngImageInfo) (offset : N) : Buffer :=
  match infos with
  | [] => []
  | info :: infos' =>
      entry_bytes info offset ++ directory_bytes infos' (offset + size info)
  end.

(** Every payload length and every payload offset fits its 32-bit field. *)
Fixpoint directory_fits (infos : list PngImageInfo) (offset : N) : Prop :=
  match infos with
  | [] => True
  | info :: infos' =>
      size info ≤ 4294967295 ∧ offset ≤ 4294967295
      ∧ directory_fits infos' (offset + size info)
  end.

Global Instance directory_fits_dec infos offset :
  Decision (directory_fits infos offset).
Proof. revert offset. induction infos; intros offset; simpl; apply _. Defined.

Definition total_size (infos : list PngImageInfo) : N :=
  foldr (λ info acc, size info + acc) 0 infos.

(** The sum of the byte lengths of a list of buffers. *)
Definition total_length (bufs : list Buffer) : N :=
  foldr (λ b acc, len b + acc) 0 bufs.

(** Where the payload of image [i] starts: [6 + 16 * N + sum(len(bufs[0..i)))]. *)
Definition payload_offset (bufs : list Buffer) (i : nat) : N :=
  6 + 16 * len bufs + total_length (take i bufs).

Definition ico_bytes (bufs : list Buffer) : Buffer :=
  header_bytes (len bufs)
  ++ directory_bytes (info_of <$> bufs) (6 + 16 * len bufs)
  ++ concat bufs.

(** The batches [encodeIco] accepts. *)
Definition accepted (bufs : list Buffer) : Prop :=
  1 ≤ len bufs ≤ 256
  ∧ Forall (λ b, ¬ png_rejected (VBuffer b)) bufs
  ∧ directory_fits (info_of <$> bufs) (6 + 16 * len bufs).

(** [buffer.subarray(start, start + length)] *)
Definition slice (b : Buffer) (start length : N) : Buffer :=
  take (N.to_nat length) (drop (N.to_nat start) b).

(** The conditions of a valid ICO header. *)
Definition valid_header (v : value Buffer) : Prop :=
  match v with
  | VBuffer b =>
      6 ≤ len b
      ∧ uint16LE b 0 = 0
      ∧ (uint16LE b 2 = 1 ∨ uint16LE b 2 = 2)
      ∧ 0 < uint16LE b 4 ≤ 256
  | _ => False
  end.

Global Instance valid_header_dec v : Decision (valid_header v).
Proof. destruct v; simpl; apply _. Defined.

(** What directory entry [i] of a buffer declares: the stored width and
    height bytes with 0 read as 256, and the stored payload length. *)
Definition entry_at (b : Buffer) (i : N) : ImageEntry :=
  let stored_width := byte_or_zero b (6 + 16 * i) in
  let stored_height := byte_or_zero b (6 + 16 * i + 1) in
  {| entry_width := if decide (stored_width = 0) then 256 else stored_width;
     entry_height := if decide (stored_height = 0) then 256 else stored_height;
     entry_size := uint32LE b (6 + 16 * i + 8) |}.

(** The indices [i, i + 1, ..., i + m - 1]. *)
Fixpoint indices (i : N) (m : nat) : list N :=
  match m with
  | O => []
  | S m' => i :: indices (N.succ i) m'
  end.

(** What [getIcoInfo] reports for an image of the batch it was encoded from. *)
Definition entry_of (b : Buffer) : ImageEntry :=
  {| entry_width := uint32BE b 16; entry_height := uint32BE b 20;
     entry_size := len b |}.

(** ** Sample data *)

Definition be32 (v : N) : list byte :=
  [ToUint8 (N.shiftr v 24); ToUint8 (N.shiftr v 16); ToUint8 (N.shiftr v 8);
   ToUint8 v].

(** The first 24 bytes of a PNG stream of the given dimensions. *)
Definition png_head (w h : N) : Buffer :=
  png_signature_bytes ++ [x00; x00; x00; x0d; x49; x48; x44; x52]
  ++ be32 w ++ be32 h.

(** A small buffer that passes the validation: a head and some payload. *)
Definition sample_png (w h : N) (rest : list byte) : Buffer :=
  png_head w h ++ rest.

(** A buffer of exactly 2^32 bytes with a valid 1x1 head. *)
Definition oversized_png : Buffer :=
  png_head 1 1 ++ replicate (N.to_nat 4294967272) x00.

(** The layout of a directory entry, field by field. *)
Definition entry_layout (imageInfo : PngImageInfo) (offset : N)
    (entry : Buffer) : Prop :=
  len entry = 16
  ∧ at_index entry 0 = Some (dimension_byte (width imageInfo))
  ∧ at_index entry 1 = Some (dimension_byte (height imageInfo))
  ∧ at_index entry 2 = Some 0
  ∧ at_index entry 3 = Some 0
  ∧ uint16LE entry 4 = 1
  ∧ uint16LE entry 6 = 32
  ∧ uint32LE entry 8 = len (buffer imageInfo)
  ∧ uint32LE entry 12 = offset.

(** The four bytes of the chunk type IHDR. *)
Definition ihdr_bytes : list byte := [x49; x48; x44; x52].

(** A 24-byte buffer with the PNG signature, the IHDR length 13, the
    dimensions 1x1, and the bytes C9 48 44 52 where the chunk type is
    expected: the first of them is the byte of I with its high bit set. *)
Definition high_bit_chunk_png : Buffer :=
  png_signature_bytes ++ [x00; x00; x00; x0d; xc9; x48; x44; x52]
  ++ be32 1 ++ be32 1.

(** The IHDR dimensions of a buffer, the key of the duplicate check. *)
Definition dimensions (b : Buffer) : N * N := (uint32BE b 16, uint32BE b 20).

(** How often a key occurs in a list. *)
Definition occurrences (k : N * N) (l : list (N * N)) : nat :=
  length (filter (k =.) l).

(** What the validation-free encoder needs of a buffer: the 24 bytes it
    reads, with the PNG signature in the first eight. *)
Definition legacy_readable (b : Buffer) : Prop :=
  24 ≤ len b ∧ take 8 b = png_signature_bytes.

Global Instance legacy_readable_dec b : Decision (legacy_readable b).
Proof. unfold legacy_readable. apply _. Defined.

(** What [getIcoInfo] makes of a dimension that went through a directory
    byte: the dimension modulo 256, with 0 read as 256. *)
Definition reported_dimension (d : N) : N :=
  if decide (d mod 256 = 0) then 256 else d mod 256.

(** ** The command-line generator: writing favicon.ico

    [generateIco], the caller of [encodeIco] in the generator, with the
    helpers it uses ([pathExists], [confirmOverwrite], [askQuestion],
    [writeFileSafe] and the colour functions).  These talk to the file
    system, the terminal and the console, so a call is a program over those
    interactions: it either is finished, or performs one action and goes on
    with the response.  Strings are sequences of bytes (a literal stands for
    its UTF-8 encoding); the functions of Node's and JavaScript's libraries
    that only transform strings ([path.join], [trim], [toLowerCase]) are
    parameters. *)
Module Cli.

(** A rejected promise: an error thrown by the code of the module (or by the
    JavaScript it runs), or a rejection by the library that was awaited. *)
Inductive Failure : Type :=
  | Thrown (e : Error)
  | LibraryFailure (message : string).

Inductive outcome (A : Type) : Type :=
  | Resolved (a : A)
  | Rejected (f : Failure).
Arguments Resolved {A} a.
Arguments Rejected {A} f.

Record Stats : Type := {
  isFile : bool;
  isDirectory : bool;
  stats_size : N;
}.

Inductive FileData : Type :=
  | Bytes (b : Buffer)
  | Text (s : string).

(** The interactions, each with the type of its response. *)
Inductive action : Type → Type :=
  | FsStat (p : string) : action (outcome Stats)
  | FsWriteFile (p : string) (data : FileData) : action (outcome unit)
  | Question (query : string) : action string
  | ConsoleLog (text : string) : action unit
  | SharpRaw (input : string) (width height : N) : action (outcome Buffer).

Inductive prog (A : Type) : Type :=
  | Ret (a : A)
  | Reject (f : Failure)
  | Act {R : Type} (a : action R) (k : R → prog A).
Arguments Ret {A} a.
Arguments Reject {A} f.
Arguments Act {A R} a k.

Fixpoint bind {A B : Type} (m : prog A) (f : A → prog B) : prog B :=
  match m with
  | Ret a => f a
  | Reject e => Reject e
  | Act a k => Act a (λ r, bind (k r) f)
  end.

Global Instance prog_ret : MRet prog := @Ret.
Global Instance prog_bind : MBind prog := λ A B f m, bind m f.

Definition perform {R : Type} (a : action R) : prog R := Act a Ret.

(** [await promise]: the value, or the rejection. *)
Definition await {A : Type} (a : action (outcome A)) : prog A :=
  Act a (λ r, match r with Resolved x => Ret x | Rejected f => Reject f end).

(** A call of a function of the ICO module, whose exception rejects the
    promise of the async caller. *)
Definition call {A : Type} (r : result A) : prog A :=
  match r with
  | Ok a => Ret a
  | Throw e => Reject (Thrown e)
  end.

(** [try { m } catch { handler }] *)
Fixpoint try_catch {A : Type} (m : prog A) (handler : Failure → prog A)
    : prog A :=
  match m with
  | Ret a => Ret a
  | Reject f => handler f
  | Act a k => Act a (λ r, try_catch (k r) handler)
  end.

(** [a && b] on awaited conditions: [b] is awaited only when [a] is true. *)
Definition and_then (a b : prog bool) : prog bool :=
  x ← a; if (x : bool) then b else Ret false.

(** What happened: the actions performed, in order, with their responses. *)
Inductive event : Type :=
  | Event {R : Type} (a : action R) (r : R).

(** A run against an environment that answers every action, given what
    happened before: the events, and how the program ended. *)
Fixpoint run {A : Type} (answer : ∀ R, list event → action R → R)
    (p : prog A) (history : list event) : list event * outcome A :=
  match p with
  | Ret a => (history, Resolved a)
  | Reject f => (history, Rejected f)
  | Act a k =>
      let r := answer _ history a in
      run answer (k r) (history ++ [Event a r])
  end.

(** The calls of [fsp.writeFile] among some events. *)
Definition write_of (ev : event) : list (string * FileData) :=
  match ev with
  | Event a _ =>
      match a with
      | FsWriteFile p data => [(p, data)]
      | _ => []
      end
  end.

Definition writes (events : list event) : list (string * FileData) :=
  events ≫= write_of.

(** The texts given to [console.log] among some events. *)
Definition log_of (ev : event) : list string :=
  match ev with
  | Event a _ =>
      match a with
      | ConsoleLog text => [text]
      | _ => []
      end
  end.

Definition logs (events : list event) : list string :=
  events ≫= log_of.

(** The questions asked on the terminal among some events. *)
Definition question_of (ev : event) : list string :=
  match ev with
  | Event a _ =>
      match a with
      | Question query => [query]
      | _ => []
      end
  end.

Definition questions (events : list event) : list string :=
  events ≫= question_of.

(** The options of the command line, as [program.opts()] returns them. *)
Record Opts : Type := {
  input : string;
  output : string;
  sizes : string;
  yes : bool;
  dryRun : bool;
  manifest : bool;
  browserconfig : bool;
  appName : string;
  themeColor : option string;
}.

Section Generator.

(** [process.stdout.isTTY] when the module is loaded, the options, and the
    library functions on strings. *)
Context (isColorSupported : bool) (options : Opts).
Context (path_join : string → string → string).
Context (trim toLowerCase : string → string).

(** *** colors *)

Definition wrap (open close : N) (text : string) : string :=
  if negb isColorSupported then text
  else String (ascii_of_N 27) "[" +:+ pretty open +:+ "m" +:+ text
       +:+ String (ascii_of_N 27) "[" +:+ pretty close +:+ "m".

Definition red (text : string) : string := wrap 31 39 text.
Definition green (text : string) : string := wrap 32 39 text.
Definition yellow (text : string) : string := wrap 33 39 text.
Definition blue (text : string) : string := wrap 34 39 text.
Definition magenta (text : string) : string := wrap 35 39 text.
Definition cyan (text : string) : string := wrap 36 39 text.
Definition white (text : string) : string := wrap 37 39 text.
Definition gray (text : string) : string := wrap 90 39 text.
Definition bold (text : string) : string := wrap 1 22 text.
Definition bgRed (text : string) : string := wrap 41 49 text.

(** *** The file-system helpers *)

(** [pathExists]: false for the empty path, without asking the file system;
    otherwise whether [fsp.stat] resolves.  (The argument is taken at its
    declared type, a string.) *)
Definition pathExists (p : string) : prog bool :=
  if decide (p = "") then Ret false else
  try_catch (_ ← await (FsStat p); Ret true) (λ _, Ret false).

(** *** The generator *)

Definition writeFileSafe (filePath : string) (data : FileData) : prog unit :=
  if dryRun options then
    perform (ConsoleLog (yellow ("[Dry Run] Would write file " +:+ filePath)))
  else await (FsWriteFile filePath data).

Definition askQuestion (query : string) : prog string :=
  perform (Question (cyan query)).

Definition confirmOverwrite (filePath : string) : prog bool :=
  if yes options then Ret true else
  ans ← askQuestion (filePath +:+ " exists. Overwrite? (y/n): ");
  Ret (String.prefix "y" (toLowerCase (trim ans))).

Definition generateIco (buffers : list Buffer) : prog unit :=
  let icoPath := path_join (output options) "favicon.ico" in
  skip ← and_then (pathExists icoPath)
           (confirmed ← confirmOverwrite icoPath; Ret (negb confirmed));
  if (skip : bool) then
    perform (ConsoleLog (yellow "⚠ Skipped favicon.ico"))
  else
    perform (ConsoleLog (cyan "⏳ Generating favicon.ico..."));;
    icoBuf ← call (encodeIco (VArray (VBuffer <$> buffers)));
    writeFileSafe icoPath (Bytes icoBuf);;
    perform (ConsoleLog (green "✔ Generated favicon.ico")).

(** *** The theme colour *)

(** [x.toString(16)] and [s.padStart(targetLength, fillString)] *)
Definition toString16 (x : N) : string :=
  NilZero.string_of_uint (N.to_hex_uint x).

Definition padStart (s : string) (targetLength : nat) (fillString : string)
    : string :=
  let fillLen := (targetLength - String.length s)%nat in
  if decide (fillLen = 0%nat ∨ fillString = "") then s else
  String.string_of_list_ascii
    (take fillLen
       (mjoin (replicate fillLen (String.list_ascii_of_string fillString))))
  +:+ s.

(** The template of [detectThemeColor] on the first three numbers of the
    pixel data. *)
Definition formatThemeColor (r g b : N) : string :=
  "#" +:+ String.concat "" ((λ x, padStart (toString16 x) 2 "0") <$> [r; g; b]).

(** [detectThemeColor], with the module variable [cachedThemeColor] passed in
    and out.  A cached string is used when it is truthy, that is not empty;
    destructuring pixel data of fewer than three bytes leaves [undefined],
    whose [toString] is a type error. *)
Definition detectThemeColor (cachedThemeColor : option string)
    : prog (string * option string) :=
  let detect :=
    data ← await (SharpRaw (input options) 1 1);
    match Byte.to_N <$> data with
    | r :: g :: b :: _ =>
        let color := formatThemeColor r g b in Ret (color, Some color)
    | _ => Reject (Thrown TypeError)
    end in
  match cachedThemeColor with
  | Some cached =>
      if decide (cached ≠ "") then Ret (cached, cachedThemeColor) else detect
  | None => detect
  end.

End Generator.

(** An environment for examples: every path exists as a file, every write
    succeeds, and the user gives the same reply to every question. *)
Definition sample_answer (reply : string) (R : Type) (history : list event)
    (a : action R) : R :=
  match a in action R return R with
  | FsStat _ =>
      Resolved {| isFile := true; isDirectory := false; stats_size := 0 |}
  | FsWriteFile _ _ => Resolved tt
  | Question _ => reply
  | ConsoleLog _ => tt
  | SharpRaw _ _ _ => Resolved [x1e; x90; xff; xff]
  end.

Definition sample_options (yes dryRun : bool) : Opts :=
  {| input := "logo.png"; output := "icons";
     sizes := "16,32,48,64,128,256,180,150,70";
     yes := yes; dryRun := dryRun; manifest := false; browserconfig := false;
     appName := "App"; themeColor := None |}.

(** The hexadecimal digit of a number below 16, and the two digits of a
    byte. *)
Definition hex_digit (n : N) : ascii :=
  default "0"%char (String.list_ascii_of_string "0123456789abcdef" !! N.to_nat n).

Definition hex_pair (x : byte) : string :=
  String (hex_digit (Byte.to_N x / 16))
    (String (hex_digit (Byte.to_N x mod 16)) "").

End Cli.

(** * Lemmas *)

(** ** Bytes and buffers *)

Lemma to_N_lt (x : byte) : Byte.to_N x < 256.
Proof. pose proof (Byte.to_N_bounded x). lia. Qed.

Lemma to_N_inj (x y : byte) : Byte.to_N x = Byte.to_N y → x = y.
Proof.
  intros E. pose proof (Byte.of_to_N x) as Hx. rewrite E, Byte.of_to_N in Hx.
  congruence.
Qed.

Lemma to_N_ToUint8 (v : N) : Byte.to_N (ToUint8 v) = v mod 256.
Proof.
  unfold ToUint8. destruct (Byte.of_N (v mod 256)) as [x|] eqn:E.
  - by apply Byte.to_of_N.
  - apply Byte.of_N_None_iff in E. pose proof (N.mod_upper_bound v 256). lia.
Qed.

Lemma ToUint8_to_N (x : byte) : ToUint8 (Byte.to_N x) = x.
Proof.
  apply to_N_inj. rewrite to_N_ToUint8. apply N.mod_small, to_N_lt.
Qed.

Lemma len_nil {A : Type} : len (@nil A) = 0.
Proof. reflexivity. Qed.

Lemma len_cons {A : Type} (x : A) (l : list A) : len (x :: l) = N.succ (len l).
Proof. unfold len. simpl length. lia. Qed.

Lemma len_app {A : Type} (l k : list A) : len (l ++ k) = len l + len k.
Proof. unfold len. rewrite length_app. lia. Qed.

Lemma len_alloc (n : N) : len (alloc n) = n.
Proof. unfold len, alloc. rewrite length_replicate. lia. Qed.

Lemma len_set_index (b : Buffer) (i v : N) : len (set_index b i v) = len b.
Proof. unfold len, set_index. by rewrite length_insert. Qed.

Lemma len_fmap {A B : Type} (f : A → B) (l : list A) : len (f <$> l) = len l.
Proof. unfold len. by rewrite length_fmap. Qed.

(** Lengths of buffers built from known pieces are computed by rewriting. *)
Create Rewrite HintDb len.
#[global] Hint Rewrite @len_nil @len_cons @len_app @len_fmap len_alloc len_set_index : len.

Ltac len_simpl := autorewrite with len.

Lemma at_index_lt (b : Buffer) (i : N) : i < len b → is_Some (at_index b i).
Proof.
  unfold at_index, len. intros H.
  destruct (lookup_lt_is_Some_2 b (N.to_nat i)) as [x ->]; [lia | by eexists].
Qed.

Lemma byte_or_zero_at_index (b : Buffer) (i : N) :
  i < len b → at_index b i = Some (byte_or_zero b i).
Proof.
  intros H. unfold byte_or_zero. by destruct (at_index_lt b i H) as [x ->].
Qed.

Lemma byte_or_zero_lookup (b : Buffer) (i : N) (x : byte) :
  b !! N.to_nat i = Some x → byte_or_zero b i = Byte.to_N x.
Proof. unfold byte_or_zero, at_index. by intros ->. Qed.

Lemma byte_or_zero_lt (b : Buffer) (i : N) : byte_or_zero b i < 256.
Proof.
  unfold byte_or_zero, at_index. destruct (b !! N.to_nat i); simpl;
    [apply to_N_lt | lia].
Qed.

Lemma byte_or_zero_app_l (b k : Buffer) (i : N) :
  i < len b → byte_or_zero (b ++ k) i = byte_or_zero b i.
Proof.
  unfold byte_or_zero, at_index, len. intros H. by rewrite lookup_app_l by lia.
Qed.

Lemma byte_or_zero_app_r (b k : Buffer) (i : N) :
  byte_or_zero (b ++ k) (len b + i) = byte_or_zero k i.
Proof.
  unfold byte_or_zero, at_index, len. rewrite lookup_app_r by lia.
  do 3 f_equal. lia.
Qed.

(** The readers succeed exactly inside the buffer. *)
Lemma readUInt16LE_in_bounds (b : Buffer) (offset : N) :
  offset + 2 ≤ len b → readUInt16LE b offset = Ok (uint16LE b offset).
Proof. intros H. unfold readUInt16LE. by rewrite decide_True. Qed.

Lemma readUInt32LE_in_bounds (b : Buffer) (offset : N) :
  offset + 4 ≤ len b → readUInt32LE b offset = Ok (uint32LE b offset).
Proof. intros H. unfold readUInt32LE. by rewrite decide_True. Qed.

Lemma readUInt32BE_in_bounds (b : Buffer) (offset : N) :
  offset + 4 ≤ len b → readUInt32BE b offset = Ok (uint32BE b offset).
Proof. intros H. unfold readUInt32BE. by rewrite decide_True. Qed.

(** ** Loops *)

Lemma for_range_unfold {St : Type} (lo hi : N)
    (body : N → St → result (LoopStep St)) (s : St) :
  lo < hi →
  for_range lo hi body s =
    match body lo s with
    | Ok (Continue s') => for_range (N.succ lo) hi body s'
    | Ok (Break s') => Ok s'
    | Throw e => Throw e
    end.
Proof.
  intros H. unfold for_range.
  replace (N.to_nat (hi - lo)) with (S (N.to_nat (hi - N.succ lo))) by lia.
  reflexivity.
Qed.

Lemma for_range_done {St : Type} (lo hi : N)
    (body : N → St → result (LoopStep St)) (s : St) :
  hi ≤ lo → for_range lo hi body s = Ok s.
Proof.
  intros H. unfold for_range. by replace (N.to_nat (hi - lo)) with O by lia.
Qed.

(** A loop whose body only checks a condition at each index: it throws at
    the least index where the condition holds. *)
Lemma for_range_check (P : N → Prop) `{!∀ i, Decision (P i)} (E : N → Error)
    (lo hi : N) :
  let body := λ i (_ : unit),
    if decide (P i) then Throw (E i) else Ok (Continue tt) in
  ((∀ i, lo ≤ i < hi → ¬ P i) ∧ for_range lo hi body tt = Ok tt)
  ∨ (∃ i, lo ≤ i < hi ∧ P i ∧ for_range lo hi body tt = Throw (E i)).
Proof.
  intros body. remember (N.to_nat (hi - lo)) as n eqn:Hn.
  revert lo Hn. induction n as [|n IH]; intros lo Hn.
  - left. split; [lia | apply for_range_done; lia].
  - rewrite for_range_unfold by lia. unfold body at 1 3.
    destruct (decide (P lo)) as [HP|HP].
    + right. exists lo. split; [lia | done].
    + destruct (IH (N.succ lo)) as [[Hall ->]|(i & Hi & HPi & ->)]; [lia | |].
      * left. split; [|done]. intros i Hi.
        destruct (decide (i = lo)) as [->|]; [done | apply Hall; lia].
      * right. exists i. split; [lia | done].
Qed.

Lemma signature_bytes_iff (b : Buffer) :
  (∀ i, 0 ≤ i < len PNG_SIGNATURE → ¬ at_index b i ≠ PNG_SIGNATURE !! N.to_nat i)
  ↔ take 8 b = png_signature_bytes.
Proof.
  change (len PNG_SIGNATURE) with 8.
  change PNG_SIGNATURE with (Byte.to_N <$> png_signature_bytes).
  split.
  - intros H. apply list_eq. intros k.
    destruct (decide (k < 8)%nat) as [Hk|Hk].
    + rewrite lookup_take_lt by done.
      specialize (H (N.of_nat k) ltac:(lia)). apply dec_stable in H.
      unfold at_index in H. rewrite Nat2N.id, list_lookup_fmap in H.
      destruct (b !! k) as [x|], (png_signature_bytes !! k) as [y|];
        simplify_eq/=; [f_equal; by apply to_N_inj | done].
    + rewrite lookup_take_ge by lia. symmetry. apply lookup_ge_None_2.
      simpl. lia.
  - intros H i Hi Hne. apply Hne. unfold at_index.
    rewrite list_lookup_fmap, <- H, lookup_take_lt by lia. done.
Qed.

Lemma validateAndExtractPngInfo_cases (v : value Buffer) (index : N) :
  (png_rejected v
   ∧ ∃ e, validateAndExtractPngInfo v index = Throw e
          ∧ validation_index e = Some index)
  ∨ (¬ png_rejected v
     ∧ ∃ b, v = VBuffer b ∧ validateAndExtractPngInfo v index = Ok (info_of b)).
Proof.
  destruct v as [b|items|ty]; [|left; split; [done | by eexists]..].
  unfold validateAndExtractPngInfo, png_rejected.
  destruct (decide (len b < 24)) as [Hlen|Hlen].
  { left. split; [by left | by eexists]. }
  destruct (for_range_check (λ i, at_index b i ≠ PNG_SIGNATURE !! N.to_nat i)
              (InvalidPngSignature index) 0 (len PNG_SIGNATURE))
    as [[Hsig ->]|(i & Hrange & Hi & ->)]; cbn [mbind result_bind].
  2:{ left. split; [|by eexists]. right; left. intros Hsig.
      by apply (proj2 (signature_bytes_iff b) Hsig i Hrange). }
  apply signature_bytes_iff in Hsig.
  rewrite !readUInt32BE_in_bounds by lia. cbn [mbind result_bind].
  destruct (decide (uint32BE b 8 ≠ 13)) as [H8|H8].
  { left. split; [tauto | by eexists]. }
  destruct (decide (toString_ascii b 12 16 ≠ "IHDR")) as [Hty|Hty].
  { left. split; [tauto | by eexists]. }
  destruct (decide (uint32BE b 16 = 0 ∨ uint32BE b 20 = 0)) as [H0|H0].
  { left. split; [tauto | by eexists]. }
  unfold MAX_DIMENSION.
  destruct (decide (256 < uint32BE b 16 ∨ 256 < uint32BE b 20)) as [Hmax|Hmax].
  { left. split; [tauto | by eexists]. }
  right. split; [tauto | by exists b].
Qed.

Lemma uint16_split (v : N) :
  v ≤ 65535 → v mod 256 + (N.shiftr v 8) mod 256 * 2 ^ 8 = v.
Proof.
  intros H. rewrite N.shiftr_div_pow2. change (2 ^ 8) with 256.
  pose proof (N.div_mod v 256 ltac:(lia)).
  pose proof (N.div_mod (v / 256) 256 ltac:(lia)).
  assert (v / 256 / 256 = 0).
  { rewrite N.Div0.div_div. apply N.div_small. lia. }
  lia.
Qed.

Lemma uint32_split (v : N) :
  v ≤ 4294967295 →
  v mod 256 + (N.shiftr v 8) mod 256 * 2 ^ 8 + (N.shiftr v 16) mod 256 * 2 ^ 16
    + (N.shiftr v 24) mod 256 * 2 ^ 24 = v.
Proof.
  intros H.
  change 24 with (8 + 8 + 8) at 1. change 16 with (8 + 8) at 1.
  rewrite <- !N.shiftr_shiftr, !N.shiftr_div_pow2.
  change (2 ^ 8) with 256. change (2 ^ 16) with 65536.
  change (2 ^ 24) with 16777216.
  pose proof (N.div_mod v 256 ltac:(lia)).
  pose proof (N.div_mod (v / 256) 256 ltac:(lia)).
  pose proof (N.div_mod (v / 256 / 256) 256 ltac:(lia)).
  pose proof (N.div_mod (v / 256 / 256 / 256) 256 ltac:(lia)).
  assert (v / 256 / 256 / 256 / 256 = 0).
  { rewrite !N.Div0.div_div. apply N.div_small. lia. }
  lia.
Qed.

Lemma writeUInt16LE_in_bounds (b : Buffer) (value offset : N) :
  value ≤ 65535 → offset + 2 ≤ len b →
  writeUInt16LE b value offset
  = Ok (set_index (set_index b offset value) (offset + 1) (N.shiftr value 8)).
Proof. intros. unfold writeUInt16LE. by rewrite decide_True. Qed.

Lemma writeUInt32LE_in_bounds (b : Buffer) (value offset : N) :
  value ≤ 4294967295 → offset + 4 ≤ len b →
  writeUInt32LE b value offset
  = Ok (set_index (set_index (set_index (set_index b offset value)
          (offset + 1) (N.shiftr value 8))
          (offset + 2) (N.shiftr value 16))
          (offset + 3) (N.shiftr value 24)).
Proof. intros. unfold writeUInt32LE. by rewrite decide_True. Qed.

Lemma writeUInt32LE_too_large (b : Buffer) (value offset : N) :
  4294967295 < value → writeUInt32LE b value offset = Throw RangeError.
Proof. intros. unfold writeUInt32LE. rewrite decide_False; [done | lia]. Qed.

Lemma createIcoDirectoryEntry_fits (info : PngImageInfo) (offset : N) :
  size info ≤ 4294967295 → offset ≤ 4294967295 →
  createIcoDirectoryEntry info offset = Ok (entry_bytes info offset).
Proof.
  intros Hsize Hoffset. unfold createIcoDirectoryEntry.
  rewrite writeUInt16LE_in_bounds; cbn [mbind result_bind].
  - rewrite writeUInt16LE_in_bounds; cbn [mbind result_bind].
    + rewrite writeUInt32LE_in_bounds; cbn [mbind result_bind].
      * rewrite writeUInt32LE_in_bounds; cbn [mbind result_bind].
        -- reflexivity.
        -- done.
        -- len_simpl. done.
      * done.
      * len_simpl. done.
    + done.
    + len_simpl. done.
  - done.
  - len_simpl. done.
Qed.

Lemma createIcoDirectoryEntry_overflow (info : PngImageInfo) (offset : N) :
  4294967295 < size info ∨ 4294967295 < offset →
  createIcoDirectoryEntry info offset = Throw RangeError.
Proof.
  intros H. unfold createIcoDirectoryEntry.
  rewrite writeUInt16LE_in_bounds; cbn [mbind result_bind];
    [|done|len_simpl; done].
  rewrite writeUInt16LE_in_bounds; cbn [mbind result_bind];
    [|done|len_simpl; done].
  destruct (decide (size info ≤ 4294967295)) as [Hs|Hs].
  - rewrite writeUInt32LE_in_bounds; cbn [mbind result_bind];
      [|done|len_simpl; done].
    rewrite writeUInt32LE_too_large by lia. done.
  - rewrite writeUInt32LE_too_large by lia. done.
Qed.

(** ** The validation loop *)

Lemma element_middle {B : Type} (done rest : list (value B)) (v : value B) :
  element (done ++ v :: rest) (len done) = v.
Proof.
  unfold element, len. rewrite Nat2N.id, list_lookup_middle; done.
Qed.

Lemma validateAndExtractPngInfo_Ok_inv (v : value Buffer) (index : N)
    (info : PngImageInfo) :
  validateAndExtractPngInfo v index = Ok info →
  ∃ b, v = VBuffer b ∧ ¬ png_rejected v ∧ info = info_of b.
Proof.
  intros H.
  destruct (validateAndExtractPngInfo_cases v index)
    as [(_ & e & He & _)|(Hok & b & -> & Hb)]; [congruence|].
  exists b. split; [done|]. split; [done | congruence].
Qed.

Lemma validateAndExtractPngInfo_accepts (b : Buffer) (index : N) :
  ¬ png_rejected (VBuffer b) →
  validateAndExtractPngInfo (VBuffer b) index = Ok (info_of b).
Proof.
  intros H.
  destruct (validateAndExtractPngInfo_cases (VBuffer b) index)
    as [(Hrej & _)|(_ & b' & [= <-] & Hb)]; done.
Qed.

(** The outcome of the validation loop from position [len done] on: either
    every remaining item is an acceptable buffer, or the loop stops at the
    first one that is not, with the error of that item wrapped with its
    1-based position. *)
Inductive validation_outcome (done rest : list (value Buffer))
    (acc : list PngImageInfo) : result (list PngImageInfo) → Prop :=
  | all_valid (bufs : list Buffer) :
      rest = VBuffer <$> bufs →
      Forall (λ b, ¬ png_rejected (VBuffer b)) bufs →
      validation_outcome done rest acc (Ok (acc ++ (info_of <$> bufs)))
  | first_invalid (bufs : list Buffer) (v : value Buffer)
        (rest' : list (value Buffer)) (e : Error) :
      rest = (VBuffer <$> bufs) ++ v :: rest' →
      Forall (λ b, ¬ png_rejected (VBuffer b)) bufs →
      png_rejected v →
      validateAndExtractPngInfo v (len done + len bufs + 1) = Throw e →
      validation_index e = Some (len done + len bufs + 1) →
      validation_outcome done rest acc
        (Throw (FailedToProcess (len done + len bufs + 1) e)).

Lemma validation_loop (rest done : list (value Buffer))
    (acc : list PngImageInfo) :
  validation_outcome done rest acc
    (for_range (len done) (len (done ++ rest)) (λ i imageInfos,
       match validateAndExtractPngInfo (element (done ++ rest) i) (i + 1) with
       | Ok info => Ok (Continue (imageInfos ++ [info]))
       | Throw error => Throw (FailedToProcess (i + 1) error)
       end) acc).
Proof.
  revert done acc. induction rest as [|v rest IH]; intros done acc.
  - rewrite for_range_done by (rewrite app_nil_r; lia).
    rewrite <- (app_nil_r acc) at 2. by apply (all_valid _ _ _ []).
  - rewrite for_range_unfold by (rewrite len_app, len_cons; lia).
    rewrite element_middle.
    destruct (validateAndExtractPngInfo_cases v (len done + 1))
      as [(Hrej & e & Hv & He)|(Hok & b & -> & ->)].
    + rewrite Hv.
      replace (len done + 1) with (len done + len (@nil Buffer) + 1) in *
        by (rewrite len_nil; lia).
      by eapply (first_invalid _ _ _ []).
    + assert (len (done ++ [VBuffer b]) = N.succ (len done)) as Hlen
        by (rewrite len_app, len_cons, len_nil; lia).
      specialize (IH (done ++ [VBuffer b]) (acc ++ [info_of b])).
      rewrite <- app_assoc in IH. cbn [app] in IH. rewrite Hlen in IH at 1.
      inversion IH as [bufs Hrest Hall Hres|bufs u rest' e Hrest Hall Hrej He Hidx Hres].
      * rewrite <- app_assoc. apply (all_valid _ _ _ (b :: bufs)).
        -- by rewrite Hrest.
        -- by constructor.
      * replace (len (done ++ [VBuffer b]) + len bufs + 1)
          with (len done + len (b :: bufs) + 1) in *
          by (rewrite len_cons; lia).
        eapply (first_invalid _ _ _ (b :: bufs));
          [by rewrite Hrest | by constructor | done..].
Qed.

Lemma validateAll_outcome (pngBuffers : list (value Buffer)) :
  validation_outcome [] pngBuffers [] (validateAll pngBuffers).
Proof. apply (validation_loop pngBuffers [] []). Qed.

(** ** The directory loop *)

Lemma alloc_add (n m : N) : alloc (n + m) = alloc n ++ alloc m.
Proof.
  unfold alloc. rewrite N2Nat.inj_add. apply replicate_add.
Qed.

Lemma len_entry_bytes (info : PngImageInfo) (offset : N) :
  len (entry_bytes info offset) = 16.
Proof. reflexivity. Qed.

Lemma len_directory_bytes (infos : list PngImageInfo) (offset : N) :
  len (directory_bytes infos offset) = 16 * len infos.
Proof.
  revert offset. induction infos as [|info infos IH]; intros offset; [done|].
  cbn [directory_bytes]. rewrite len_app, len_entry_bytes, IH, len_cons. lia.
Qed.

(** Copying over a region of the target that is as long as the source. *)
Lemma copy_over (source pre old post : Buffer) :
  length old = length source →
  copy source (pre ++ old ++ post) (len pre) = pre ++ source ++ post.
Proof.
  intros Hlen. unfold copy, len. rewrite Nat2N.id.
  rewrite take_app_length. f_equal.
  rewrite !length_app.
  replace (length source `min` (length pre + (length old + length post) - length pre))%nat
    with (length source) by lia.
  rewrite firstn_all. f_equal.
  rewrite drop_app_add', <- Hlen, drop_app_length; done.
Qed.

Lemma fillDirectory_loop (rest done : list PngImageInfo) (pre : Buffer)
    (offset : N) :
  let body := λ i '(dirEntries, offset),
    match (done ++ rest) !! N.to_nat i with
    | Some info =>
        entry ← createIcoDirectoryEntry info offset;
        Ok (Continue (copy entry dirEntries (i * DIR_ENTRY_SIZE), offset + size info))
    | None => Throw TypeError
    end in
  len pre = 16 * len done →
  for_range (len done) (len (done ++ rest)) body
    (pre ++ alloc (DIR_ENTRY_SIZE * len rest), offset)
  = if decide (directory_fits rest offset)
    then Ok (pre ++ directory_bytes rest offset, offset + total_size rest)
    else Throw RangeError.
Proof.
  intros body. revert done pre offset body.
  induction rest as [|info rest IH]; intros done pre offset body Hpre.
  - rewrite for_range_done by (rewrite app_nil_r; lia).
    rewrite decide_True by done. cbn. rewrite N.add_0_r. done.
  - rewrite for_range_unfold by (rewrite len_app, len_cons; lia).
    unfold body at 1. unfold len at 1. rewrite Nat2N.id, list_lookup_middle by done.
    cbn [directory_fits].
    destruct (decide (size info ≤ 4294967295 ∧ offset ≤ 4294967295)) as [[Hs Ho]|Hover].
    + rewrite createIcoDirectoryEntry_fits by done. cbn [mbind result_bind].
      unfold DIR_ENTRY_SIZE at 1 2.
      replace (16 * len (info :: rest)) with (16 + 16 * len rest)
        by (rewrite len_cons; lia).
      rewrite alloc_add.
      replace (len done * 16) with (len pre) by lia.
      rewrite copy_over by done.
      specialize (IH (done ++ [info]) (pre ++ entry_bytes info offset)
                    (offset + size info)).
      cbv zeta in IH. rewrite <- !app_assoc in IH. cbn [app] in IH.
      replace (len (done ++ [info])) with (N.succ (len done)) in IH
        by (rewrite len_app, len_cons, len_nil; lia).
      unfold body. unfold DIR_ENTRY_SIZE in IH |- *. rewrite IH.
      * destruct (decide (directory_fits rest (offset + size info))) as [Hfit|Hfit].
        -- rewrite decide_True by done. cbn [directory_bytes total_size foldr].
           f_equal. f_equal. unfold total_size. lia.
        -- rewrite decide_False by tauto. done.
      * rewrite len_app, len_entry_bytes, Hpre. lia.
    + rewrite createIcoDirectoryEntry_overflow by lia. cbn [mbind result_bind].
      rewrite decide_False by tauto. done.
Qed.

Lemma fillDirectory_spec (imageInfos : list PngImageInfo) (offset : N) :
  fillDirectory imageInfos (alloc (DIR_ENTRY_SIZE * len imageInfos)) offset
  = if decide (directory_fits imageInfos offset)
    then Ok (directory_bytes imageInfos offset, offset + total_size imageInfos)
    else Throw RangeError.
Proof.
  pose proof (fillDirectory_loop imageInfos [] [] offset) as H.
  cbv zeta in H. cbn [app] in H. apply H. done.
Qed.

(** ** encodeIco *)

(** What [encodeIco] does with an array of between 1 and 256 items. *)
Lemma encodeIco_array (pngBuffers : list (value Buffer)) :
  1 ≤ len pngBuffers ≤ 256 →
  encodeIco (VArray pngBuffers)
  = imageInfos ← validateAll pngBuffers;
    if decide (directory_fits imageInfos (6 + 16 * len imageInfos))
    then Ok (header_bytes (len imageInfos)
             ++ directory_bytes imageInfos (6 + 16 * len imageInfos)
             ++ concat (buffer <$> imageInfos))
    else Throw RangeError.
Proof.
  intros Hlen. unfold encodeIco, MAX_IMAGES.
  rewrite decide_False by lia. rewrite decide_False by lia.
  pose proof (validateAll_outcome pngBuffers) as Hval.
  destruct (validateAll pngBuffers) as [imageInfos|e]; [|done].
  cbn [mbind result_bind].
  assert (len imageInfos ≤ 256) as Hcount.
  { inversion Hval as [bufs Hrest Hall Hres|]; subst.
    cbn [app]. rewrite len_fmap. rewrite len_fmap in Hlen. lia. }
  rewrite writeUInt16LE_in_bounds by (rewrite ?len_alloc; done).
  cbn [mbind result_bind].
  rewrite writeUInt16LE_in_bounds by (len_simpl; done).
  cbn [mbind result_bind].
  rewrite writeUInt16LE_in_bounds
    by (len_simpl; unfold HEADER_SIZE; lia).
  cbn [mbind result_bind].
  rewrite !len_set_index, !len_alloc. unfold HEADER_SIZE at 2.
  rewrite fillDirectory_spec. unfold DIR_ENTRY_SIZE.
  destruct (decide (directory_fits imageInfos (6 + 16 * len imageInfos))); [|done].
  cbn [mbind result_bind]. reflexivity.
Qed.

Global Instance VBuffer_inj {B : Type} : Inj (=) (=) (@VBuffer B).
Proof. by intros x y [= ->]. Qed.

Lemma buffer_info_of (bufs : list Buffer) : buffer <$> (info_of <$> bufs) = bufs.
Proof. rewrite <- list_fmap_compose. apply list_fmap_id. Qed.

Lemma encodeIco_accepted (bufs : list Buffer) :
  accepted bufs → encodeIco (VArray (VBuffer <$> bufs)) = Ok (ico_bytes bufs).
Proof.
  intros (Hlen & Hall & Hfit).
  rewrite encodeIco_array by (rewrite len_fmap; done).
  pose proof (validateAll_outcome (VBuffer <$> bufs)) as Hval.
  inversion Hval as [bufs' Hrest Hall' Hres
                    |bufs' v rest' e Hrest Hall' Hrej He Hidx Hres].
  - apply (inj (fmap VBuffer)) in Hrest. subst bufs'.
    cbn [mbind result_bind app]. rewrite len_fmap.
    rewrite decide_True by done. by rewrite buffer_info_of.
  - exfalso. assert (v ∈ VBuffer <$> bufs) as Hin.
    { rewrite Hrest. apply elem_of_app. right. left. }
    apply list_elem_of_fmap in Hin as (b & -> & Hb).
    rewrite Forall_forall in Hall. by apply (Hall b).
Qed.

Lemma encodeIco_Ok_inv (v : value Buffer) (out : Buffer) :
  encodeIco v = Ok out →
  ∃ bufs, v = VArray (VBuffer <$> bufs) ∧ accepted bufs ∧ out = ico_bytes bufs.
Proof.
  intros H. destruct v as [b|items|ty]; [done| |done].
  assert (1 ≤ len items ≤ 256) as Hlen.
  { unfold encodeIco, MAX_IMAGES in H.
    destruct (decide (len items = 0)); [done|].
    destruct (decide (256 < len items)); [done|]. lia. }
  rewrite encodeIco_array in H by done.
  pose proof (validateAll_outcome items) as Hval.
  inversion Hval as [bufs Hrest Hall Hres
                    |bufs' v rest' e Hrest Hall' Hrej He Hidx Hres];
    rewrite <- Hres in H; [|done].
  cbn [mbind result_bind app] in H. rewrite len_fmap in H.
  destruct (decide (directory_fits (info_of <$> bufs) (6 + 16 * len bufs)))
    as [Hfit|]; [|done].
  exists bufs. rewrite Hrest in Hlen |- *. rewrite len_fmap in Hlen.
  split; [done|]. split; [done|].
  rewrite buffer_info_of in H. by injection H as <-.
Qed.

(** ** Reading the layout back *)

(** A region [e] of a buffer, between [pre] and [post], is read at the
    offsets counted from [len pre] as [e] itself is. *)
Section Window.
Context (pre e post : Buffer).

Lemma byte_or_zero_window (k : N) :
  k < len e → byte_or_zero (pre ++ e ++ post) (len pre + k) = byte_or_zero e k.
Proof. intros H. by rewrite byte_or_zero_app_r, byte_or_zero_app_l. Qed.

Lemma uint16LE_window (k : N) :
  k + 2 ≤ len e → uint16LE (pre ++ e ++ post) (len pre + k) = uint16LE e k.
Proof.
  intros H. unfold uint16LE.
  rewrite <- !N.add_assoc, !byte_or_zero_window by lia. done.
Qed.

Lemma uint32LE_window (k : N) :
  k + 4 ≤ len e → uint32LE (pre ++ e ++ post) (len pre + k) = uint32LE e k.
Proof.
  intros H. unfold uint32LE.
  rewrite <- !N.add_assoc, !byte_or_zero_window by lia. done.
Qed.

Lemma set_index_window (k v : N) :
  k < len e →
  set_index (pre ++ e ++ post) (len pre + k) v = pre ++ set_index e k v ++ post.
Proof.
  intros H. unfold set_index, len in *.
  rewrite insert_app_r_alt by lia.
  replace (N.to_nat (N.of_nat (length pre) + k) - length pre)%nat
    with (N.to_nat k) by lia.
  by rewrite insert_app_l by lia.
Qed.

Lemma slice_window : slice (pre ++ e ++ post) (len pre) (len e) = e.
Proof.
  unfold slice, len. rewrite !Nat2N.id, drop_app_length, take_app_length. done.
Qed.

End Window.

Lemma entry_width_byte (info : PngImageInfo) (offset : N) :
  byte_or_zero (entry_bytes info offset) 0 = dimension_byte (width info) mod 256.
Proof.
  unfold byte_or_zero, at_index, entry_bytes.
  cbn [N.to_nat Pos.to_nat Pos.iter_op Nat.add lookup list_lookup fmap
       option_fmap option_map default].
  apply to_N_ToUint8.
Qed.

Lemma entry_height_byte (info : PngImageInfo) (offset : N) :
  byte_or_zero (entry_bytes info offset) 1 = dimension_byte (height info) mod 256.
Proof.
  unfold byte_or_zero, at_index, entry_bytes.
  cbn [N.to_nat Pos.to_nat Pos.iter_op Nat.add lookup list_lookup fmap
       option_fmap option_map default].
  apply to_N_ToUint8.
Qed.

Lemma entry_size_field (info : PngImageInfo) (offset : N) :
  size info ≤ 4294967295 → uint32LE (entry_bytes info offset) 8 = size info.
Proof.
  intros H. unfold uint32LE, byte_or_zero, at_index, entry_bytes.
  change (N.to_nat 8) with 8%nat. change (N.to_nat (8 + 1)) with 9%nat.
  change (N.to_nat (8 + 2)) with 10%nat. change (N.to_nat (8 + 3)) with 11%nat.
  cbn [lookup list_lookup fmap option_fmap option_map default].
  rewrite !to_N_ToUint8. by apply uint32_split.
Qed.

Lemma entry_offset_field (info : PngImageInfo) (offset : N) :
  offset ≤ 4294967295 → uint32LE (entry_bytes info offset) 12 = offset.
Proof.
  intros H. unfold uint32LE, byte_or_zero, at_index, entry_bytes.
  change (N.to_nat 12) with 12%nat. change (N.to_nat (12 + 1)) with 13%nat.
  change (N.to_nat (12 + 2)) with 14%nat. change (N.to_nat (12 + 3)) with 15%nat.
  cbn [lookup list_lookup fmap option_fmap option_map default].
  rewrite !to_N_ToUint8. by apply uint32_split.
Qed.

Lemma directory_bytes_app (l k : list PngImageInfo) (offset : N) :
  directory_bytes (l ++ k) offset
  = directory_bytes l offset ++ directory_bytes k (offset + total_size l).
Proof.
  revert offset. induction l as [|info l IH]; intros offset.
  - cbn. by rewrite N.add_0_r.
  - cbn [app directory_bytes total_size foldr]. rewrite IH, <- app_assoc.
    do 3 f_equal. unfold total_size. lia.
Qed.

Lemma total_size_info_of (bufs : list Buffer) :
  total_size (info_of <$> bufs) = total_length bufs.
Proof.
  unfold total_size, total_length.
  induction bufs as [|b bufs IH]; [done|].
  rewrite fmap_cons. cbn [foldr]. by rewrite IH.
Qed.

Lemma len_concat (bufs : list Buffer) : len (concat bufs) = total_length bufs.
Proof.
  induction bufs as [|b bufs IH]; [done|].
  cbn [concat total_length foldr]. rewrite len_app, IH. done.
Qed.

Lemma directory_fits_app (l k : list PngImageInfo) (offset : N) :
  directory_fits (l ++ k) offset
  ↔ directory_fits l offset ∧ directory_fits k (offset + total_size l).
Proof.
  revert offset. induction l as [|info l IH]; intros offset.
  - cbn. rewrite N.add_0_r. tauto.
  - cbn [app directory_fits total_size foldr]. rewrite IH.
    replace (offset + size info + total_size l)
      with (offset + (size info + total_size l)) by lia.
    unfold total_size. tauto.
Qed.

Lemma len_header_bytes (count : N) : len (header_bytes count) = 6.
Proof. reflexivity. Qed.

Lemma len_ico_bytes (bufs : list Buffer) :
  len (ico_bytes bufs) = 6 + 16 * len bufs + total_length bufs.
Proof.
  unfold ico_bytes.
  rewrite !len_app, len_header_bytes, len_directory_bytes, len_fmap, len_concat.
  lia.
Qed.

(** An accepted document splits around the directory entry of image [i]... *)
Lemma ico_bytes_entry (bufs : list Buffer) (i : nat) (b : Buffer) :
  bufs !! i = Some b →
  ∃ pre post,
    ico_bytes bufs = pre ++ entry_bytes (info_of b) (payload_offset bufs i) ++ post
    ∧ len pre = 6 + 16 * N.of_nat i.
Proof.
  intros Hi. pose proof (take_drop_middle bufs i b Hi) as Hsplit.
  exists (header_bytes (len bufs)
          ++ directory_bytes (info_of <$> take i bufs) (6 + 16 * len bufs)),
         (directory_bytes (info_of <$> drop (S i) bufs)
            (payload_offset bufs i + len b) ++ concat bufs).
  split.
  - assert (info_of <$> bufs
            = (info_of <$> take i bufs) ++ info_of b :: (info_of <$> drop (S i) bufs))
      as Hinfos by (by rewrite <- Hsplit at 1; rewrite fmap_app, fmap_cons).
    unfold ico_bytes. rewrite Hinfos, directory_bytes_app. cbn [directory_bytes].
    rewrite total_size_info_of, <- !app_assoc. unfold payload_offset. done.
  - rewrite len_app, len_header_bytes, len_directory_bytes, len_fmap.
    unfold len. rewrite length_take. apply lookup_lt_Some in Hi. lia.
Qed.

(** ... and around its payload. *)
Lemma ico_bytes_payload (bufs : list Buffer) (i : nat) (b : Buffer) :
  bufs !! i = Some b →
  ∃ pre post, ico_bytes bufs = pre ++ b ++ post ∧ len pre = payload_offset bufs i.
Proof.
  intros Hi. pose proof (take_drop_middle bufs i b Hi) as Hsplit.
  exists (header_bytes (len bufs)
          ++ directory_bytes (info_of <$> bufs) (6 + 16 * len bufs)
          ++ concat (take i bufs)),
         (concat (drop (S i) bufs)).
  split.
  - assert (concat bufs = concat (take i bufs) ++ b ++ concat (drop (S i) bufs))
      as Hconcat by (by rewrite <- Hsplit at 1; rewrite concat_app).
    unfold ico_bytes. rewrite Hconcat. by rewrite <- !app_assoc.
  - rewrite !len_app, len_header_bytes, len_directory_bytes, len_fmap, len_concat.
    unfold payload_offset. lia.
Qed.

(** In an accepted batch every length and every offset fits its field. *)
Lemma accepted_fits (bufs : list Buffer) (i : nat) (b : Buffer) :
  accepted bufs → bufs !! i = Some b →
  len b ≤ 4294967295 ∧ payload_offset bufs i ≤ 4294967295.
Proof.
  intros (_ & _ & Hfit) Hi.
  rewrite <- (take_drop_middle bufs i b Hi) in Hfit at 1.
  rewrite fmap_app, fmap_cons in Hfit.
  apply directory_fits_app in Hfit as [_ Hfit].
  cbn [directory_fits] in Hfit. rewrite total_size_info_of in Hfit.
  unfold payload_offset. cbn in Hfit. tauto.
Qed.

Lemma accepted_valid (bufs : list Buffer) (i : nat) (b : Buffer) :
  accepted bufs → bufs !! i = Some b → ¬ png_rejected (VBuffer b).
Proof.
  intros (_ & Hall & _) Hi. rewrite Forall_lookup in Hall. by apply (Hall i).
Qed.

(** ** isValidIco and getIcoInfo *)

Lemma isValidIco_decides (v : value Buffer) :
  isValidIco v = Ok (bool_decide (valid_header v)).
Proof.
  destruct v as [b|items|ty]; [|done..].
  unfold isValidIco, valid_header, HEADER_SIZE, TYPE_ICO, TYPE_CUR, MAX_IMAGES.
  destruct (decide (len b < 6)) as [Hlen|Hlen].
  { rewrite bool_decide_eq_false_2; [done | lia]. }
  rewrite !readUInt16LE_in_bounds by lia. cbn [mbind result_bind].
  f_equal. apply eq_bool_prop_intro.
  rewrite !andb_True, orb_True, !bool_decide_spec. intuition lia.
Qed.

Lemma length_indices (i : N) (m : nat) : length (indices i m) = m.
Proof. revert i. induction m as [|m IH]; intros i; [done|]. cbn. by rewrite IH. Qed.

Lemma lookup_indices (i : N) (m j : nat) :
  (j < m)%nat → indices i m !! j = Some (i + N.of_nat j).
Proof.
  revert i j. induction m as [|m IH]; intros i j Hj; [lia|].
  destruct j as [|j]; cbn [indices lookup list_lookup].
  - f_equal. lia.
  - change (indices (N.succ i) m !! j = Some (i + N.of_nat (S j))).
    rewrite IH by lia. f_equal. lia.
Qed.

Lemma readEntry_fits (b : Buffer) (i : N) (images : list ImageEntry) :
  6 + 16 * i + 16 ≤ len b →
  readEntry b i images = Ok (Continue (images ++ [entry_at b i])).
Proof.
  intros H. unfold readEntry, HEADER_SIZE, DIR_ENTRY_SIZE, MAX_DIMENSION.
  rewrite decide_False by lia.
  rewrite readUInt32LE_in_bounds by lia. cbn [mbind result_bind].
  unfold entry_at. by rewrite (N.mul_comm i 16).
Qed.

Lemma readEntry_truncates (b : Buffer) (i : N) (images : list ImageEntry) :
  len b < 6 + 16 * i + 16 → readEntry b i images = Ok (Break images).
Proof.
  intros H. unfold readEntry, HEADER_SIZE, DIR_ENTRY_SIZE.
  rewrite decide_True by lia. done.
Qed.

(** The loop of [getIcoInfo] lists the entries that lie inside the buffer,
    in order, and stops at the first one that does not. *)
Lemma readEntry_loop (b : Buffer) (n : nat) (i : N) (acc : list ImageEntry) :
  ∃ m, (m ≤ n)%nat
    ∧ for_loop n i (readEntry b) acc = Ok (acc ++ (entry_at b <$> indices i m))
    ∧ (∀ j, (j < m)%nat → 6 + 16 * (i + N.of_nat j) + 16 ≤ len b)
    ∧ ((m < n)%nat → len b < 6 + 16 * (i + N.of_nat m) + 16).
Proof.
  revert i acc. induction n as [|n IH]; intros i acc.
  - exists O. cbn. rewrite app_nil_r. split_and!; [done | done | lia | lia].
  - cbn [for_loop].
    destruct (decide (len b < 6 + 16 * i + 16)) as [Hout|Hin].
    + rewrite readEntry_truncates by done. exists O. cbn. rewrite app_nil_r.
      split_and!; [lia | done | lia |]. intros _. by rewrite N.add_0_r.
    + rewrite readEntry_fits by lia.
      destruct (IH (N.succ i) (acc ++ [entry_at b i])) as (m & Hm & -> & Hfit & Hstop).
      exists (S m). cbn [indices]. rewrite fmap_cons, <- app_assoc.
      split_and!; [lia | done | |].
      * intros [|j] Hj; [rewrite N.add_0_r; lia|].
        specialize (Hfit j ltac:(lia)). lia.
      * intros Hlt. specialize (Hstop ltac:(lia)). lia.
Qed.

Lemma getIcoInfo_valid (b : Buffer) :
  valid_header (VBuffer b) →
  ∃ m, (m ≤ N.to_nat (uint16LE b 4))%nat
    ∧ getIcoInfo (VBuffer b)
      = Ok {| imageCount := uint16LE b 4;
              type := if decide (uint16LE b 2 = 1) then ICO else CUR;
              images := entry_at b <$> indices 0 m |}
    ∧ (∀ j, (j < m)%nat → 6 + 16 * N.of_nat j + 16 ≤ len b)
    ∧ ((m < N.to_nat (uint16LE b 4))%nat → len b < 6 + 16 * N.of_nat m + 16).
Proof.
  intros Hvalid. unfold getIcoInfo. rewrite isValidIco_decides.
  rewrite bool_decide_eq_true_2 by done. cbn [mbind result_bind negb].
  destruct Hvalid as (Hlen & _).
  rewrite !readUInt16LE_in_bounds by lia. cbn [mbind result_bind].
  unfold for_range. rewrite N.sub_0_r.
  destruct (readEntry_loop b (N.to_nat (uint16LE b 4)) 0 [])
    as (m & Hm & -> & Hfit & Hstop).
  exists m. cbn [mbind result_bind app]. unfold TYPE_ICO.
  split_and!; [done | done | |].
  - intros j Hj. specialize (Hfit j Hj). by rewrite N.add_0_l in Hfit.
  - intros Hlt. specialize (Hstop Hlt). by rewrite N.add_0_l in Hstop.
Qed.

Lemma getIcoInfo_invalid (v : value Buffer) :
  ¬ valid_header v → getIcoInfo v = Throw InvalidIcoFile.
Proof.
  intros H. unfold getIcoInfo. rewrite isValidIco_decides.
  by rewrite bool_decide_eq_false_2.
Qed.

(** ** Directory entries *)

Lemma dimension_byte_small (d : N) : d ≤ 256 → dimension_byte d mod 256 = dimension_byte d.
Proof.
  intros H. apply N.mod_small. unfold dimension_byte, MAX_DIMENSION.
  case_decide; lia.
Qed.

Lemma validated_dimensions (b : Buffer) :
  ¬ png_rejected (VBuffer b) →
  24 ≤ len b ∧ 0 < uint32BE b 16 ≤ 256 ∧ 0 < uint32BE b 20 ≤ 256.
Proof. unfold png_rejected. lia. Qed.

Lemma entry_bytes_layout (info : PngImageInfo) (offset : N) :
  width info ≤ 256 → height info ≤ 256 → size info = len (buffer info) →
  size info ≤ 4294967295 → offset ≤ 4294967295 →
  entry_layout info offset (entry_bytes info offset).
Proof.
  intros Hw Hh Hlen Hsize Hoffset. unfold entry_layout.
  rewrite entry_size_field, entry_offset_field by done.
  split_and!; try done.
  - unfold at_index, entry_bytes. change (N.to_nat 0) with 0%nat.
    cbn [lookup list_lookup fmap option_fmap option_map].
    by rewrite to_N_ToUint8, dimension_byte_small.
  - unfold at_index, entry_bytes. change (N.to_nat 1) with 1%nat.
    cbn [lookup list_lookup fmap option_fmap option_map].
    by rewrite to_N_ToUint8, dimension_byte_small.
Qed.

(** ** Documents produced by the encoder *)

Lemma uint16LE_app_l (e post : Buffer) (k : N) :
  k + 2 ≤ len e → uint16LE (e ++ post) k = uint16LE e k.
Proof. intros H. unfold uint16LE. by rewrite !byte_or_zero_app_l by lia. Qed.

Lemma uint32BE_app_l (e post : Buffer) (k : N) :
  k + 4 ≤ len e → uint32BE (e ++ post) k = uint32BE e k.
Proof. intros H. unfold uint32BE. by rewrite !byte_or_zero_app_l by lia. Qed.

Lemma header_count_field (count : N) :
  count ≤ 65535 → uint16LE (header_bytes count) 4 = count.
Proof.
  intros H. unfold uint16LE, byte_or_zero, at_index, header_bytes.
  change (N.to_nat 4) with 4%nat. change (N.to_nat (4 + 1)) with 5%nat.
  cbn [lookup list_lookup fmap option_fmap option_map default].
  rewrite !to_N_ToUint8. by apply uint16_split.
Qed.

Lemma ico_bytes_valid_header (bufs : list Buffer) :
  1 ≤ len bufs ≤ 256 → valid_header (VBuffer (ico_bytes bufs)).
Proof.
  intros Hlen. unfold valid_header.
  split; [rewrite len_ico_bytes; lia|].
  unfold ico_bytes. rewrite !uint16LE_app_l by (rewrite len_header_bytes; lia).
  rewrite header_count_field by lia.
  split_and!; [done | by left | lia | lia].
Qed.

Lemma ico_bytes_count (bufs : list Buffer) :
  len bufs ≤ 256 → uint16LE (ico_bytes bufs) 4 = len bufs.
Proof.
  intros Hlen. unfold ico_bytes.
  rewrite uint16LE_app_l by (rewrite len_header_bytes; lia).
  apply header_count_field. lia.
Qed.

Lemma ico_bytes_type (bufs : list Buffer) : uint16LE (ico_bytes bufs) 2 = 1.
Proof.
  unfold ico_bytes. by rewrite uint16LE_app_l by (rewrite len_header_bytes; lia).
Qed.

(** Decoding a stored dimension byte gives the dimension back. *)
Lemma dimension_roundtrip (d : N) :
  0 < d ≤ 256 →
  (if decide (dimension_byte d mod 256 = 0) then 256 else dimension_byte d mod 256) = d.
Proof.
  intros H. rewrite dimension_byte_small by lia.
  unfold dimension_byte, MAX_DIMENSION. repeat case_decide; lia.
Qed.

Lemma entry_at_ico_bytes (bufs : list Buffer) (i : nat) (b : Buffer) :
  accepted bufs → bufs !! i = Some b →
  entry_at (ico_bytes bufs) (N.of_nat i) = entry_of b.
Proof.
  intros Hacc Hi.
  destruct (accepted_fits bufs i b Hacc Hi) as [Hsize Hoffset].
  destruct (validated_dimensions b (accepted_valid bufs i b Hacc Hi))
    as (_ & Hw & Hh).
  destruct (ico_bytes_entry bufs i b Hi) as (pre & post & -> & Hpre).
  set (e := entry_bytes (info_of b) (payload_offset bufs i)).
  assert (byte_or_zero (pre ++ e ++ post) (len pre) = byte_or_zero e 0) as H0.
  { rewrite <- (byte_or_zero_window pre e post 0) by done. f_equal. lia. }
  unfold entry_at, entry_of. rewrite <- Hpre, H0.
  rewrite uint32LE_window, byte_or_zero_window by done.
  unfold e. rewrite entry_width_byte, entry_height_byte, entry_size_field by done.
  cbn [info_of width height size].
  by rewrite !dimension_roundtrip by done.
Qed.

Lemma getIcoInfo_ico_bytes (bufs : list Buffer) :
  accepted bufs →
  getIcoInfo (VBuffer (ico_bytes bufs))
  = Ok {| imageCount := len bufs; type := ICO; images := entry_of <$> bufs |}.
Proof.
  intros Hacc. pose proof Hacc as (Hlen & _ & _).
  destruct (getIcoInfo_valid (ico_bytes bufs) (ico_bytes_valid_header bufs Hlen))
    as (m & Hm & -> & Hfit & Hstop).
  rewrite ico_bytes_count, ico_bytes_type in * by lia.
  rewrite decide_True by done. do 2 f_equal.
  assert (m = length bufs) as ->.
  { destruct (decide (m < N.to_nat (len bufs))%nat) as [Hlt|Hge].
    - specialize (Hstop Hlt). rewrite len_ico_bytes in Hstop. unfold len in *. lia.
    - unfold len in *. lia. }
  apply list_eq. intros j. rewrite !list_lookup_fmap.
  destruct (bufs !! j) as [b|] eqn:Hj.
  - rewrite lookup_indices by (by apply lookup_lt_Some in Hj).
    cbn [fmap option_fmap option_map]. rewrite N.add_0_l.
    f_equal. by apply entry_at_ico_bytes.
  - rewrite lookup_ge_None_2; [done|].
    rewrite length_indices. by apply lookup_ge_None_1.
Qed.

Lemma validateAll_accepts (bufs : list Buffer) :
  Forall (λ b, ¬ png_rejected (VBuffer b)) bufs →
  validateAll (VBuffer <$> bufs) = Ok (info_of <$> bufs).
Proof.
  intros Hall. pose proof (validateAll_outcome (VBuffer <$> bufs)) as Hval.
  inversion Hval as [bufs' Hrest Hall' Hres
                    |bufs' v rest' e Hrest Hall' Hrej He Hidx Hres].
  - apply (inj (fmap VBuffer)) in Hrest. by subst bufs'.
  - exfalso. assert (v ∈ VBuffer <$> bufs) as Hin.
    { rewrite Hrest. apply elem_of_app. right. left. }
    apply list_elem_of_fmap in Hin as (b & -> & Hb).
    rewrite Forall_forall in Hall. by apply (Hall b).
Qed.

Lemma directory_fits_pointwise (bufs : list Buffer) (offset : N) :
  directory_fits (info_of <$> bufs) offset
  ↔ ∀ i b, bufs !! i = Some b →
      len b ≤ 4294967295 ∧ offset + total_length (take i bufs) ≤ 4294967295.
Proof.
  revert offset. induction bufs as [|b0 bufs IH]; intros offset.
  - split; [intros _ i b Hi; by rewrite lookup_nil in Hi | done].
  - rewrite fmap_cons. cbn [directory_fits info_of size]. rewrite IH. split.
    + intros (Hs & Ho & Hrest) [|i] b Hi.
      * injection Hi as <-. cbn. split; [done | lia].
      * specialize (Hrest i b Hi). cbn [take total_length foldr].
        unfold total_length in Hrest. lia.
    + intros H. split_and!.
      * by apply (H O b0).
      * specialize (H O b0 eq_refl). cbn in H. lia.
      * intros i b Hi. specialize (H (S i) b Hi).
        cbn [take total_length foldr] in H. unfold total_length. lia.
Qed.

Lemma accepted_pointwise (bufs : list Buffer) :
  accepted bufs
  ↔ 1 ≤ len bufs ≤ 256
    ∧ (∀ i b, bufs !! i = Some b → ¬ png_rejected (VBuffer b))
    ∧ (∀ i b, bufs !! i = Some b →
         len b ≤ 4294967295 ∧ payload_offset bufs i ≤ 4294967295).
Proof.
  unfold accepted, payload_offset.
  by rewrite Forall_lookup, directory_fits_pointwise.
Qed.

(** [encodeIco] returns a document exactly for the accepted batches. *)
Lemma encodeIco_Ok_iff (v : value Buffer) (out : Buffer) :
  encodeIco v = Ok out
  ↔ ∃ bufs, v = VArray (VBuffer <$> bufs) ∧ accepted bufs ∧ out = ico_bytes bufs.
Proof.
  split; [apply encodeIco_Ok_inv|].
  intros (bufs & -> & Hacc & ->). by apply encodeIco_accepted.
Qed.

(** A batch whose directory does not fit is refused by [writeUInt32LE]. *)
Lemma encodeIco_overflow (bufs : list Buffer) :
  1 ≤ len bufs ≤ 256 →
  Forall (λ b, ¬ png_rejected (VBuffer b)) bufs →
  ¬ directory_fits (info_of <$> bufs) (6 + 16 * len bufs) →
  encodeIco (VArray (VBuffer <$> bufs)) = Throw RangeError.
Proof.
  intros Hlen Hall Hfit. rewrite encodeIco_array by (by rewrite len_fmap).
  rewrite validateAll_accepts by done. cbn [mbind result_bind].
  rewrite len_fmap. by rewrite decide_False.
Qed.

(** The fields that decide the validation lie in the first 24 bytes. *)
Lemma toString_ascii_app_l (b rest : Buffer) (start stop : N) :
  stop ≤ len b → toString_ascii (b ++ rest) start stop = toString_ascii b start stop.
Proof.
  intros H. unfold toString_ascii, len in *. do 2 f_equal.
  destruct (decide (N.to_nat start ≤ length b)%nat).
  - rewrite drop_app_le by done. apply take_app_le. rewrite length_drop. lia.
  - replace (N.to_nat stop - N.to_nat start)%nat with O by lia. done.
Qed.

Lemma png_rejected_app (b rest : Buffer) :
  24 ≤ len b → png_rejected (VBuffer (b ++ rest)) ↔ png_rejected (VBuffer b).
Proof.
  intros H. unfold png_rejected.
  rewrite !uint32BE_app_l, toString_ascii_app_l by lia.
  rewrite take_app_le by (unfold len in H; lia).
  rewrite len_app. intuition lia.
Qed.

(** Closed decidable facts about sample data are settled by evaluation. *)
Ltac by_evaluation := apply (bool_decide_unpack _); vm_compute; exact I.

(** ** The validation-free encoder *)

Lemma signature_words (b : Buffer) :
  ¬ png_rejected (VBuffer b) →
  uint32BE b 0 = 0x89504e47 ∧ uint32BE b 4 = 0x0d0a1a0a.
Proof.
  intros H. assert (take 8 b = png_signature_bytes) as Hsig.
  { unfold png_rejected in H. destruct (decide (take 8 b = png_signature_bytes)); tauto. }
  rewrite <- (take_drop 8 b), Hsig.
  by rewrite !uint32BE_app_l by (vm_compute; discriminate).
Qed.

(** One iteration of the [forEach] body on the 16 zero bytes that follow
    [pre]: it leaves there the entry [createIcoDirectoryEntry] builds. *)
Lemma legacy_entry_writes (pre post : Buffer) (info : PngImageInfo)
    (offset i : N) :
  len pre = i * 16 →
  size info ≤ 4294967295 → offset ≤ 4294967295 →
  let d0 := pre ++ alloc 16 ++ post in
  let d1 := set_index d0 (i * 16 + 0) (dimension_byte (width info)) in
  let d2 := set_index d1 (i * 16 + 1) (dimension_byte (height info)) in
  let d3 := set_index d2 (i * 16 + 2) 0 in
  let d4 := set_index d3 (i * 16 + 3) 0 in
  (d5 ← writeUInt16LE d4 1 (i * 16 + 4);
   d6 ← writeUInt16LE d5 32 (i * 16 + 6);
   d7 ← writeUInt32LE d6 (size info) (i * 16 + 8);
   writeUInt32LE d7 offset (i * 16 + 12))
  = Ok (pre ++ entry_bytes info offset ++ post).
Proof.
  intros Hpre Hsize Hoffset. cbv zeta. rewrite <- Hpre.
  assert (len (pre ++ alloc 16 ++ post) = len pre + 16 + len post) as Hlen
    by (rewrite !len_app, len_alloc; lia).
  rewrite writeUInt16LE_in_bounds by (len_simpl; lia).
  cbn [mbind result_bind].
  rewrite writeUInt16LE_in_bounds by (len_simpl; lia).
  cbn [mbind result_bind].
  rewrite writeUInt32LE_in_bounds by (len_simpl; lia).
  cbn [mbind result_bind].
  rewrite writeUInt32LE_in_bounds by (len_simpl; lia).
  rewrite <- !N.add_assoc.
  repeat rewrite set_index_window by (len_simpl; done).
  reflexivity.
Qed.

Lemma legacy_entry_overflow (pre post : Buffer) (info : PngImageInfo)
    (offset i : N) :
  len pre = i * 16 →
  4294967295 < size info ∨ 4294967295 < offset →
  let d0 := pre ++ alloc 16 ++ post in
  let d1 := set_index d0 (i * 16 + 0) (dimension_byte (width info)) in
  let d2 := set_index d1 (i * 16 + 1) (dimension_byte (height info)) in
  let d3 := set_index d2 (i * 16 + 2) 0 in
  let d4 := set_index d3 (i * 16 + 3) 0 in
  (d5 ← writeUInt16LE d4 1 (i * 16 + 4);
   d6 ← writeUInt16LE d5 32 (i * 16 + 6);
   d7 ← writeUInt32LE d6 (size info) (i * 16 + 8);
   writeUInt32LE d7 offset (i * 16 + 12))
  = Throw RangeError.
Proof.
  intros Hpre Hover. cbv zeta. rewrite <- Hpre.
  assert (len (pre ++ alloc 16 ++ post) = len pre + 16 + len post) as Hlen
    by (rewrite !len_app, len_alloc; lia).
  rewrite writeUInt16LE_in_bounds by (len_simpl; lia).
  cbn [mbind result_bind].
  rewrite writeUInt16LE_in_bounds by (len_simpl; lia).
  cbn [mbind result_bind].
  destruct (decide (size info ≤ 4294967295)) as [Hs|Hs].
  - rewrite writeUInt32LE_in_bounds by (len_simpl; lia).
    cbn [mbind result_bind]. apply writeUInt32LE_too_large. lia.
  - by rewrite writeUInt32LE_too_large by lia.
Qed.

Lemma legacy_writeEntry_valid (b pre post : Buffer) (offset i : N) :
  ¬ png_rejected (VBuffer b) → len pre = i * 16 →
  Legacy.writeEntry b i (pre ++ alloc 16 ++ post, offset)
  = if decide (len b ≤ 4294967295 ∧ offset ≤ 4294967295)
    then Ok (pre ++ entry_bytes (info_of b) offset ++ post, offset + len b)
    else Throw RangeError.
Proof.
  intros Hok Hpre. unfold Legacy.writeEntry.
  destruct (signature_words b Hok) as [Hs0 Hs4].
  destruct (validated_dimensions b Hok) as (Hlen & _ & _).
  rewrite !readUInt32BE_in_bounds by lia. cbn [mbind result_bind].
  rewrite Hs0, Hs4. rewrite decide_False by (intros H; by apply H).
  rewrite decide_False by (intros H; by apply H).
  destruct (decide (len b ≤ 4294967295 ∧ offset ≤ 4294967295)) as [Hfit|Hfit].
  - pose proof (legacy_entry_writes pre post (info_of b) offset i Hpre
                  (proj1 Hfit) (proj2 Hfit)) as Hw.
    cbv zeta in Hw. cbn [info_of width height size] in Hw.
    unfold dimension_byte, MAX_DIMENSION in Hw.
    destruct (writeUInt16LE _ 1 (i * 16 + 4)) as [d5|];
      cbn [mbind result_bind] in Hw |- *; [|congruence].
    destruct (writeUInt16LE d5 32 (i * 16 + 6)) as [d6|];
      cbn [mbind result_bind] in Hw |- *; [|congruence].
    destruct (writeUInt32LE d6 (len b) (i * 16 + 8)) as [d7|];
      cbn [mbind result_bind] in Hw |- *; [|congruence].
    by rewrite Hw.
  - pose proof (legacy_entry_overflow pre post (info_of b) offset i Hpre) as Hw.
    cbv zeta in Hw. cbn [info_of width height size] in Hw.
    unfold dimension_byte, MAX_DIMENSION in Hw.
    specialize (Hw ltac:(lia)).
    destruct (writeUInt16LE _ 1 (i * 16 + 4)) as [d5|];
      cbn [mbind result_bind] in Hw |- *; [|congruence].
    destruct (writeUInt16LE d5 32 (i * 16 + 6)) as [d6|];
      cbn [mbind result_bind] in Hw |- *; [|congruence].
    destruct (writeUInt32LE d6 (len b) (i * 16 + 8)) as [d7|];
      cbn [mbind result_bind] in Hw |- *; [|congruence].
    by rewrite Hw.
Qed.

Lemma legacy_forEach (rest : list Buffer) (pre : Buffer) (offset i : N) :
  Forall (λ b, ¬ png_rejected (VBuffer b)) rest →
  len pre = i * 16 →
  Legacy.forEach rest i Legacy.writeEntry (pre ++ alloc (16 * len rest), offset)
  = if decide (directory_fits (info_of <$> rest) offset)
    then Ok (pre ++ directory_bytes (info_of <$> rest) offset,
             offset + total_length rest)
    else Throw RangeError.
Proof.
  intros Hall. revert pre offset i.
  induction Hall as [|b rest Hb Hall IH]; intros pre offset i Hpre.
  - cbn. rewrite N.add_0_r. done.
  - cbn [Legacy.forEach].
    replace (16 * len (b :: rest)) with (16 + 16 * len rest)
      by (rewrite len_cons; lia).
    rewrite alloc_add, legacy_writeEntry_valid by done.
    rewrite fmap_cons. cbn [directory_fits directory_bytes info_of size].
    destruct (decide (len b ≤ 4294967295 ∧ offset ≤ 4294967295)) as [[Hs Ho]|Hover].
    + cbn [mbind result_bind].
      rewrite (app_assoc pre), IH
        by (rewrite len_app, len_entry_bytes, Hpre; lia).
      destruct (decide (directory_fits (info_of <$> rest) (offset + len b))).
      * rewrite decide_True by done. rewrite <- app_assoc.
        do 2 f_equal. cbn [total_length foldr]. unfold total_length. lia.
      * by rewrite decide_False by tauto.
    + cbn [mbind result_bind]. by rewrite decide_False by tauto.
Qed.

Lemma legacy_encodeIco_accepted (bufs : list Buffer) :
  accepted bufs → Legacy.encodeIco bufs = Ok (ico_bytes bufs).
Proof.
  intros (Hlen & Hall & Hfit). unfold Legacy.encodeIco.
  rewrite writeUInt16LE_in_bounds by (rewrite ?len_alloc; done).
  cbn [mbind result_bind].
  rewrite writeUInt16LE_in_bounds by (len_simpl; done).
  cbn [mbind result_bind].
  rewrite writeUInt16LE_in_bounds by (len_simpl; lia).
  cbn [mbind result_bind].
  rewrite !len_set_index, !len_alloc.
  pose proof (legacy_forEach bufs [] (6 + 16 * len bufs) 0 Hall eq_refl) as Hloop.
  cbn [app] in Hloop. rewrite Hloop, decide_True by done.
  cbn [mbind result_bind]. reflexivity.
Qed.

(** ** The heap model *)

Lemma run_bind {A B : Type} (m : Heap.M A) (f : A → Heap.M B) (s : Heap.state) :
  (m ≫= f) s
  = match m s with
    | (Ok a, s') => f a s'
    | (Throw e, s') => (Throw e, s')
    end.
Proof. reflexivity. Qed.

Lemma read_run {A : Type} (f : list byte → result A) (r : Heap.ref)
    (s : Heap.state) (b : list byte) :
  Heap.buffers s !! r = Some b → Heap.read f r s = (f b, s).
Proof.
  intros H. unfold Heap.read. rewrite run_bind. unfold Heap.contents.
  rewrite H. by destruct (f b).
Qed.

Lemma write_run (f : list byte → result (list byte)) (r : Heap.ref)
    (s : Heap.state) (b : list byte) :
  Heap.buffers s !! r = Some b →
  Heap.write f r s
  = match f b with
    | Ok b' => (Ok tt, {| Heap.buffers := <[r := b']> (Heap.buffers s);
                          Heap.console := Heap.console s |})
    | Throw e => (Throw e, s)
    end.
Proof.
  intros H. unfold Heap.write. rewrite run_bind. unfold Heap.contents.
  rewrite H. by destruct (f b).
Qed.

(** A loop whose body leaves the state as it is runs as the loop of the
    functional model does, on related loop variables. *)
Lemma for_loop_read_only {St St' : Type} (R : St → St' → Prop)
    (s : Heap.state) (hbody : N → St → Heap.M (LoopStep St))
    (body : N → St' → result (LoopStep St')) :
  (∀ i st st', R st st' →
     match body i st' with
     | Ok (Continue x') => ∃ x, hbody i st s = (Ok (Continue x), s) ∧ R x x'
     | Ok (Break x') => ∃ x, hbody i st s = (Ok (Break x), s) ∧ R x x'
     | Throw e => hbody i st s = (Throw e, s)
     end) →
  ∀ n i st st', R st st' →
    match for_loop n i body st' with
    | Ok x' => ∃ x, Heap.for_loop n i hbody st s = (Ok x, s) ∧ R x x'
    | Throw e => Heap.for_loop n i hbody st s = (Throw e, s)
    end.
Proof.
  intros Hbody n. induction n as [|n IH]; intros i st st' HR.
  - cbn. by exists st.
  - cbn [for_loop Heap.for_loop]. rewrite run_bind.
    specialize (Hbody i st st' HR).
    destruct (body i st') as [[x'|x']|e].
    + destruct Hbody as (x & -> & HR'). by apply IH.
    + destruct Hbody as (x & -> & HR'). by exists x.
    + by rewrite Hbody.
Qed.

Lemma typeof_resolve (h : list (list byte)) (v : value Heap.ref) :
  typeof (Heap.resolve h v) = typeof v.
Proof. by destruct v. Qed.

(** Validation reads the buffer and leaves the state as it is. *)
Lemma heap_validate_run (s : Heap.state) (v : value Heap.ref) (index : N) :
  Heap.allocated (Heap.buffers s) v →
  match validateAndExtractPngInfo (Heap.resolve (Heap.buffers s) v) index with
  | Ok info =>
      ∃ hinfo, Heap.validateAndExtractPngInfo v index s = (Ok hinfo, s)
               ∧ info_rel (Heap.buffers s) hinfo info
  | Throw e => Heap.validateAndExtractPngInfo v index s = (Throw e, s)
  end.
Proof.
  intros Hv. destruct v as [r|items|ty]; [|done..].
  cbn [Heap.allocated] in Hv.
  destruct (lookup_lt_is_Some_2 _ _ Hv) as [b Hb].
  cbn [Heap.resolve]. rewrite Hb. change (default [] (Some b)) with b.
  unfold validateAndExtractPngInfo, Heap.validateAndExtractPngInfo.
  unfold Heap.length_of, Heap.readUInt32BE, Heap.toString_ascii.
  rewrite run_bind, (read_run _ _ _ _ Hb); cbv beta iota.
  destruct (decide (len b < 24)); cbv beta iota; [done|].
  rewrite run_bind.
  pose proof (for_loop_read_only (St := unit) (St' := unit) eq s
    (λ i _, x ← Heap.at_index r i;
            if decide (x ≠ PNG_SIGNATURE !! N.to_nat i)
            then Heap.throw (InvalidPngSignature index i)
            else mret (Continue tt))
    (λ i _, if decide (at_index b i ≠ PNG_SIGNATURE !! N.to_nat i)
            then Throw (InvalidPngSignature index i)
            else Ok (Continue tt))) as Hloop.
  unfold for_range, Heap.for_range.
  specialize (Hloop ltac:(
    intros i [] [] _; rewrite run_bind; unfold Heap.at_index;
    rewrite (read_run _ _ _ _ Hb);
    destruct (decide (at_index b i ≠ PNG_SIGNATURE !! N.to_nat i));
    [done | by exists tt])
    (N.to_nat (len PNG_SIGNATURE - 0)) 0 tt tt eq_refl).
  destruct (for_loop _ 0 _ tt) as [[]|e]; cbn [mbind result_bind].
  2:{ by rewrite Hloop. }
  destruct Hloop as ([] & -> & _).
  rewrite run_bind, (read_run _ _ _ _ Hb); cbv beta iota.
  destruct (readUInt32BE b 8) as [ihdrLength|e]; cbn [mbind result_bind]; cbv beta iota; [|done].
  destruct (decide (ihdrLength ≠ 13)); cbv beta iota; [done|].
  rewrite run_bind, (read_run _ _ _ _ Hb); cbv beta iota.
  destruct (decide (toString_ascii b 12 16 ≠ "IHDR")); cbv beta iota; [done|].
  rewrite run_bind, (read_run _ _ _ _ Hb); cbv beta iota.
  destruct (readUInt32BE b 16) as [w|e]; cbn [mbind result_bind]; cbv beta iota; [|done].
  rewrite run_bind, (read_run _ _ _ _ Hb); cbv beta iota.
  destruct (readUInt32BE b 20) as [ht|e]; cbn [mbind result_bind]; cbv beta iota; [|done].
  destruct (decide (w = 0 ∨ ht = 0)); cbv beta iota; [done|].
  destruct (decide (MAX_DIMENSION < w ∨ MAX_DIMENSION < ht)); cbv beta iota; [done|].
  rewrite run_bind, (read_run _ _ _ _ Hb); cbv beta iota.
  eexists. split; [reflexivity|]. by split_and!.
Qed.

Lemma allocated_array (h : list (list byte)) (items : list (value Heap.ref)) :
  Heap.allocated h (VArray items) ↔ Forall (Heap.allocated h) items.
Proof.
  cbn [Heap.allocated]. induction items as [|v items IH].
  - split; [by constructor | done].
  - rewrite Forall_cons, <- IH. done.
Qed.

Lemma element_resolve (h : list (list byte)) (items : list (value Heap.ref))
    (i : N) :
  element (Heap.resolve h <$> items) i = Heap.resolve h (element items i).
Proof.
  unfold element. rewrite list_lookup_fmap. by destruct (items !! N.to_nat i).
Qed.

Lemma element_allocated (h : list (list byte)) (items : list (value Heap.ref))
    (i : N) :
  Forall (Heap.allocated h) items → Heap.allocated h (element items i).
Proof.
  intros Hall. unfold element. destruct (items !! N.to_nat i) as [v|] eqn:Hi; [|done].
  rewrite Forall_lookup in Hall. by apply (Hall _ _ Hi).
Qed.

(** The validation loop of the heap model: same outcome as [validateAll] on
    the contents, and the state is left as it is. *)
Lemma heap_validateAll_run (s : Heap.state) (items : list (value Heap.ref)) :
  Forall (Heap.allocated (Heap.buffers s)) items →
  match validateAll (Heap.resolve (Heap.buffers s) <$> items) with
  | Ok infos =>
      ∃ hinfos,
        Heap.for_range 0 (len items) (λ i imageInfos,
          Heap.try_catch
            (info ← Heap.validateAndExtractPngInfo (element items i) (i + 1);
             mret (Continue (imageInfos ++ [info])))
            (λ error, Heap.throw (FailedToProcess (i + 1) error))) [] s
        = (Ok hinfos, s)
        ∧ Forall2 (info_rel (Heap.buffers s)) hinfos infos
  | Throw e =>
      Heap.for_range 0 (len items) (λ i imageInfos,
        Heap.try_catch
          (info ← Heap.validateAndExtractPngInfo (element items i) (i + 1);
           mret (Continue (imageInfos ++ [info])))
          (λ error, Heap.throw (FailedToProcess (i + 1) error))) [] s
      = (Throw e, s)
  end.
Proof.
  intros Hall. unfold validateAll, for_range, Heap.for_range.
  rewrite len_fmap.
  apply (for_loop_read_only (Forall2 (info_rel (Heap.buffers s)))); [|constructor].
  intros i st st' HR. rewrite element_resolve.
  unfold Heap.try_catch. rewrite run_bind.
  pose proof (heap_validate_run s (element items i) (i + 1)
                (element_allocated _ _ _ Hall)) as Hv.
  destruct (validateAndExtractPngInfo _ (i + 1)) as [info|e].
  - destruct Hv as (hinfo & -> & Hrel). eexists. split; [reflexivity|].
    apply Forall2_app; [done | by constructor].
  - by rewrite Hv.
Qed.

(** The duplicate-size loop only writes to the console, and what it writes
    are the warnings of [warnDuplicate]. *)
Lemma heap_warnings_run (h : list (list byte))
    (hinfos : list Heap.PngImageInfo) (infos : list PngImageInfo) :
  Forall2 (info_rel h) hinfos infos →
  ∀ (dimensionSet : gset (N * N)) (warnings : list (N * N)) (s : Heap.state),
  ∃ dimensionSet' printed,
    Heap.for_of hinfos (λ info (dimensionSet : gset (N * N)),
      let key := (Heap.width info, Heap.height info) in
      (if decide (key ∈ dimensionSet) then Heap.warn key else mret tt);;
      mret ({[key]} ∪ dimensionSet)) dimensionSet s
    = (Ok dimensionSet',
       {| Heap.buffers := Heap.buffers s;
          Heap.console := Heap.console s ++ printed |})
    ∧ foldl warnDuplicate (dimensionSet, warnings) infos
      = (dimensionSet', warnings ++ printed).
Proof.
  induction 1 as [|hinfo info hinfos infos (_ & Hw & Hh & _) _ IH];
    intros set warnings s.
  - exists set, []. cbn. rewrite !app_nil_r. by destruct s.
  - cbn [Heap.for_of foldl]. rewrite run_bind. cbv beta zeta. rewrite run_bind.
    unfold warnDuplicate at 2. rewrite Hw, Hh.
    destruct (decide ((width info, height info) ∈ set)).
    + destruct (IH ({[(width info, height info)]} ∪ set)
                  (warnings ++ [(width info, height info)])
                  {| Heap.buffers := Heap.buffers s;
                     Heap.console := Heap.console s
                                     ++ [(width info, height info)] |})
        as (set' & ws & Hrun & Hfold).
      exists set', ((width info, height info) :: ws).
      cbn [Heap.buffers Heap.console] in Hrun.
      rewrite <- app_assoc in Hrun, Hfold. split; [exact Hrun | exact Hfold].
    + apply IH.
Qed.

Lemma write_last (f : list byte → result (list byte)) (h : list (list byte))
    (b : list byte) (c : list (N * N)) :
  Heap.write f (length h) {| Heap.buffers := h ++ [b]; Heap.console := c |}
  = match f b with
    | Ok b' => (Ok tt, {| Heap.buffers := h ++ [b']; Heap.console := c |})
    | Throw e => (Throw e, {| Heap.buffers := h ++ [b]; Heap.console := c |})
    end.
Proof.
  rewrite (write_run _ _ _ b) by (cbn; apply list_lookup_middle; done).
  destruct (f b) as [b'|e]; [|done]. cbn [Heap.buffers Heap.console].
  do 2 f_equal. rewrite insert_app_r_alt, Nat.sub_diag by done. done.
Qed.

(** Building a directory entry allocates one buffer, the entry, and writes
    to no other. *)
Lemma heap_createIcoDirectoryEntry_run (h : list (list byte)) (c : list (N * N))
    (hinfo : Heap.PngImageInfo) (info : PngImageInfo) (offset : N) :
  Heap.width hinfo = width info → Heap.height hinfo = height info →
  Heap.size hinfo = size info →
  ∃ r e',
    Heap.createIcoDirectoryEntry hinfo offset
      {| Heap.buffers := h; Heap.console := c |}
    = (r, {| Heap.buffers := h ++ [e']; Heap.console := c |})
    ∧ match createIcoDirectoryEntry info offset with
      | Ok e => r = Ok (length h) ∧ e' = e
      | Throw err => r = Throw err
      end.
Proof.
  intros Hw Hh Hs.
  unfold Heap.createIcoDirectoryEntry, createIcoDirectoryEntry.
  rewrite Hw, Hh, Hs. cbv zeta.
  rewrite run_bind. unfold Heap.alloc, Heap.new.
  cbn [Heap.buffers Heap.console]. cbv beta iota.
  unfold Heap.set_index, Heap.writeUInt16LE, Heap.writeUInt32LE.
  do 4 (rewrite run_bind, write_last; cbv beta iota).
  rewrite run_bind, write_last.
  destruct (writeUInt16LE _ PLANES 4) as [e5|err];
    cbn [mbind result_bind]; cbv beta iota; [|by eexists _, _].
  rewrite run_bind, write_last.
  destruct (writeUInt16LE e5 BITS_PER_PIXEL 6) as [e6|err];
    cbn [mbind result_bind]; cbv beta iota; [|by eexists _, _].
  rewrite run_bind, write_last.
  destruct (writeUInt32LE e6 (size info) 8) as [e7|err];
    cbn [mbind result_bind]; cbv beta iota; [|by eexists _, _].
  rewrite run_bind, write_last.
  destruct (writeUInt32LE e7 offset 12) as [e8|err];
    cbn [mbind result_bind]; cbv beta iota; [|by eexists _, _].
  by eexists _, _.
Qed.

Lemma lookup_second_after (h : list (list byte)) (hd dir : list byte)
    (junk : list (list byte)) :
  (h ++ hd :: dir :: junk) !! S (length h) = Some dir.
Proof.
  rewrite lookup_app_r by lia.
  by replace (S (length h) - length h)%nat with 1%nat by lia.
Qed.

Lemma insert_second_after (h : list (list byte)) (hd dir x : list byte)
    (junk : list (list byte)) :
  <[S (length h) := x]> (h ++ hd :: dir :: junk) = h ++ hd :: x :: junk.
Proof.
  rewrite insert_app_r_alt by lia.
  by replace (S (length h) - length h)%nat with 1%nat by lia.
Qed.

(** The directory loop of the heap model writes to the directory buffer and
    to the entries it allocates, and computes what [fillDirectory] does. *)
Lemma heap_fillDirectory_run (h : list (list byte)) (c : list (N * N))
    (hd : list byte) (hinfos : list Heap.PngImageInfo)
    (infos : list PngImageInfo) :
  Forall2 (info_rel h) hinfos infos →
  ∀ (n : nat) (i offset : N) (dir : list byte) (junk : list (list byte)),
    ∃ r dir' junk',
      Heap.for_loop n i (λ i offset,
        match hinfos !! N.to_nat i with
        | Some info =>
            entry ← Heap.createIcoDirectoryEntry info offset;
            Heap.copy entry (S (length h)) (i * DIR_ENTRY_SIZE);;
            mret (Continue (offset + Heap.size info))
        | None => Heap.throw TypeError
        end) offset
        {| Heap.buffers := h ++ hd :: dir :: junk; Heap.console := c |}
      = (r, {| Heap.buffers := h ++ hd :: dir' :: junk'; Heap.console := c |})
      ∧ match for_loop n i (λ i '(dirEntries, offset),
                match infos !! N.to_nat i with
                | Some info =>
                    entry ← createIcoDirectoryEntry info offset;
                    Ok (Continue (copy entry dirEntries (i * DIR_ENTRY_SIZE),
                                  offset + size info))
                | None => Throw TypeError
                end) (dir, offset) with
        | Ok (dir'', offset') => r = Ok offset' ∧ dir' = dir''
        | Throw e => r = Throw e
        end.
Proof.
  intros Hrel n. induction n as [|n IH]; intros i offset dir junk.
  - by exists (Ok offset), dir, junk.
  - cbn [for_loop Heap.for_loop]. rewrite run_bind.
    destruct (hinfos !! N.to_nat i) as [hinfo|] eqn:Hhi.
    + destruct (Forall2_lookup_l _ _ _ _ _ Hrel Hhi)
        as (info & Hi & (_ & Hw & Hh & Hs)).
      rewrite Hi, run_bind.
      destruct (heap_createIcoDirectoryEntry_run (h ++ hd :: dir :: junk) c
                  hinfo info offset Hw Hh Hs) as (r & e' & -> & Hres).
      destruct (createIcoDirectoryEntry info offset) as [e|err];
        cbn [mbind result_bind].
      * destruct Hres as [-> ->]. cbv beta iota.
        rewrite run_bind. unfold Heap.copy. rewrite run_bind.
        unfold Heap.contents. cbn [Heap.buffers].
        rewrite list_lookup_middle by done. cbv beta iota.
        rewrite <- app_assoc. cbn [app].
        rewrite (write_run _ _ _ dir) by apply lookup_second_after.
        cbn [Heap.buffers Heap.console]. rewrite insert_second_after.
        rewrite Hs.
        destruct (IH (N.succ i) (offset + size info)
                    (copy e dir (i * DIR_ENTRY_SIZE)) (junk ++ [e]))
          as (r & dir' & junk' & Hrun & Hres).
        exists r, dir', junk'. split; [exact Hrun | exact Hres].
      * subst r. cbv beta iota. exists (Throw err), dir, (junk ++ [e']).
        split; [|done]. by rewrite <- app_assoc.
    + apply lookup_ge_None in Hhi.
      rewrite (lookup_ge_None_2 infos)
        by (by rewrite <- (Forall2_length _ _ _ Hrel)).
      by exists (Throw TypeError), dir, junk.
Qed.

Lemma contents_of_run (s : Heap.state) (refs : list Heap.ref)
    (bs : list (list byte)) :
  Forall2 (λ r b, Heap.buffers s !! r = Some b) refs bs →
  Heap.contents_of refs s = (Ok bs, s).
Proof.
  induction 1 as [|r b refs bs Hr _ IH]; [done|].
  cbn [Heap.contents_of]. rewrite run_bind. unfold Heap.contents at 1.
  rewrite Hr. cbv beta iota. rewrite run_bind, IH. done.
Qed.

Lemma header_writes (count : N) :
  count ≤ 65535 →
  (header ← writeUInt16LE (alloc HEADER_SIZE) 0 0;
   header ← writeUInt16LE header TYPE_ICO 2;
   writeUInt16LE header count 4)
  = Ok (header_bytes count).
Proof.
  intros H.
  rewrite writeUInt16LE_in_bounds by (rewrite ?len_alloc; done).
  cbn [mbind result_bind].
  rewrite writeUInt16LE_in_bounds by (len_simpl; done).
  cbn [mbind result_bind].
  rewrite writeUInt16LE_in_bounds
    by (len_simpl; unfold HEADER_SIZE; lia).
  reflexivity.
Qed.

Lemma header_writes_run (h : list (list byte)) (c : list (N * N)) (count : N)
    {A : Type} (k : Heap.M A) :
  count ≤ 65535 →
  (Heap.writeUInt16LE (length h) 0 0;;
   Heap.writeUInt16LE (length h) TYPE_ICO 2;;
   Heap.writeUInt16LE (length h) count 4;;
   k) {| Heap.buffers := h ++ [alloc HEADER_SIZE]; Heap.console := c |}
  = k {| Heap.buffers := h ++ [header_bytes count]; Heap.console := c |}.
Proof.
  intros H. pose proof (header_writes count H) as Hpure.
  unfold Heap.writeUInt16LE.
  rewrite run_bind, write_last.
  destruct (writeUInt16LE (alloc HEADER_SIZE) 0 0) as [h1|e];
    cbn [mbind result_bind] in Hpure |- *; [|done].
  rewrite run_bind, write_last.
  destruct (writeUInt16LE h1 TYPE_ICO 2) as [h2|e];
    cbn [mbind result_bind] in Hpure |- *; [|done].
  rewrite run_bind, write_last. rewrite Hpure. done.
Qed.

Lemma validateAll_length (items : list (value Buffer)) (infos : list PngImageInfo) :
  validateAll items = Ok infos → length infos = length items.
Proof.
  intros H. pose proof (validateAll_outcome items) as Hval.
  rewrite H in Hval. inversion Hval as [bufs Hrest Hall Hres|]; subst.
  cbn [app]. by rewrite !length_fmap.
Qed.

(** The complete run of [encodeIco] on a heap: the buffers that existed
    are left as they were, the console receives the duplicate warnings, and
    the outcome is that of the functional model on the contents. *)
Lemma heap_encodeIco_run (pngBuffers : value Heap.ref) (s : Heap.state) :
  Heap.allocated (Heap.buffers s) pngBuffers →
  ∃ r s',
    Heap.encodeIco pngBuffers s = (r, s')
    ∧ (∀ l b, Heap.buffers s !! l = Some b → Heap.buffers s' !! l = Some b)
    ∧ Heap.console s'
      = Heap.console s
        ++ encodeIco_warnings (Heap.resolve (Heap.buffers s) pngBuffers)
    ∧ match encodeIco (Heap.resolve (Heap.buffers s) pngBuffers) with
      | Ok bytes =>
          ∃ out, r = Ok out
                 ∧ (length (Heap.buffers s) ≤ out)%nat
                 ∧ Heap.buffers s' !! out = Some bytes
      | Throw e => r = Throw e
      end.
Proof.
  intros Halloc.
  destruct pngBuffers as [r0|items|ty];
    [exists (Throw NotAnArray), s; by rewrite app_nil_r
    |
    |exists (Throw NotAnArray), s; by rewrite app_nil_r].
  apply allocated_array in Halloc.
  unfold Heap.encodeIco, encodeIco, encodeIco_warnings.
  cbn [Heap.resolve]. rewrite len_fmap.
  destruct (decide (len items = 0));
    [exists (Throw NoPngBuffer), s; by rewrite app_nil_r|].
  destruct (decide (MAX_IMAGES < len items));
    [exists (Throw (TooManyImages (len items))), s; by rewrite app_nil_r|].
  rewrite run_bind.
  pose proof (heap_validateAll_run s items Halloc) as Hval.
  destruct (validateAll (Heap.resolve (Heap.buffers s) <$> items))
    as [infos|e] eqn:Hinfos; cbn [mbind result_bind].
  2:{ rewrite Hval. exists (Throw e), s. by rewrite app_nil_r. }
  destruct Hval as (hinfos & -> & Hrel). cbv beta iota.
  apply validateAll_length in Hinfos. rewrite length_fmap in Hinfos.
  assert (len infos ≤ 256) as Hmax by (unfold len, MAX_IMAGES in *; lia).
  rewrite run_bind.
  destruct (heap_warnings_run (Heap.buffers s) hinfos infos Hrel ∅ [] s)
    as (set & ws & Hwarn & Hfold).
  cbv zeta in Hwarn. rewrite Hwarn. cbv beta iota. clear Hwarn.
  assert (duplicateWarnings infos = ws) as ->
    by (unfold duplicateWarnings; by rewrite Hfold).
  clear Hfold.
  destruct s as [h c]. cbn [Heap.buffers Heap.console] in *.
  assert (len hinfos = len infos) as Hcount
    by (unfold len; by rewrite (Forall2_length _ _ _ Hrel)).
  rewrite Hcount.
  rewrite run_bind. unfold Heap.alloc at 1, Heap.new at 1.
  cbn [Heap.buffers Heap.console]. cbv beta iota.
  rewrite header_writes_run by lia.
  pose proof (header_writes (len infos) ltac:(lia)) as Hhdr.
  cbn [mbind result_bind] in Hhdr.
  destruct (writeUInt16LE (alloc HEADER_SIZE) 0 0) as [h1|e];
    cbn [mbind result_bind] in Hhdr |- *; [|done].
  destruct (writeUInt16LE h1 TYPE_ICO 2) as [h2|e];
    cbn [mbind result_bind] in Hhdr |- *; [|done].
  rewrite Hhdr. clear Hhdr h1 h2. cbn [mbind result_bind].
  rewrite run_bind. unfold Heap.alloc, Heap.new.
  cbn [Heap.buffers Heap.console]. cbv beta iota.
  rewrite <- app_assoc. cbn [app].
  rewrite length_app, Nat.add_1_r. cbn [length].
  rewrite run_bind. unfold Heap.length_of.
  rewrite (read_run _ _ _ (header_bytes (len infos)))
    by (cbn; by apply list_lookup_middle).
  cbv beta iota.
  rewrite run_bind.
  rewrite (read_run _ _ _ (alloc (DIR_ENTRY_SIZE * len infos)))
    by apply lookup_second_after.
  cbv beta iota. rewrite run_bind.
  unfold Heap.for_range, fillDirectory, for_range.
  destruct (heap_fillDirectory_run h (c ++ ws) (header_bytes (len infos))
              hinfos infos Hrel (N.to_nat (len infos - 0)) 0
              (len (header_bytes (len infos))
               + len (alloc (DIR_ENTRY_SIZE * len infos)))
              (alloc (DIR_ENTRY_SIZE * len infos)) [])
    as (r & dir' & junk' & Hrun & Hres).
  rewrite Hrun. clear Hrun.
  destruct (for_loop _ 0 _ _) as [[dir'' offset']|e]; cbn [mbind result_bind].
  2:{ subst r. eexists _, _. split; [reflexivity|]. split_and!; [|done|done].
      intros l b Hl. cbn [Heap.buffers]. by apply lookup_app_l_Some. }
  destruct Hres as [-> ->].
  unfold Heap.concat. rewrite run_bind.
  rewrite (contents_of_run _ _
             (header_bytes (len infos) :: dir'' :: (buffer <$> infos))).
  2:{ cbn [Heap.buffers]. constructor; [by apply list_lookup_middle|].
      constructor; [apply lookup_second_after|].
      apply Forall2_fmap. eapply Forall2_impl; [exact Hrel|].
      intros hinfo info (Hb & _). by apply lookup_app_l_Some. }
  cbv beta iota. unfold Heap.new. cbn [Heap.buffers Heap.console].
  eexists _, _. split; [reflexivity|]. cbn [Heap.buffers Heap.console].
  split_and!; [|done|].
  - intros l b Hl. rewrite <- app_assoc. by apply lookup_app_l_Some.
  - eexists. split; [reflexivity|]. split.
    + rewrite length_app. lia.
    + by apply list_lookup_middle.
Qed.

(** ** A single image *)

(** One 32x32 image of 25 bytes: a document of 6 + 16 + 25 bytes whose only
    entry stores 32, 32 and the offset 22. *)
Example pngToIco_single :
  pngToIco (VBuffer (sample_png 32 32 [x08]))
  = Ok (ico_bytes [sample_png 32 32 [x08]])
  ∧ len (ico_bytes [sample_png 32 32 [x08]]) = 6 + 16 + 25
  ∧ at_index (ico_bytes [sample_png 32 32 [x08]]) 6 = Some 32
  ∧ at_index (ico_bytes [sample_png 32 32 [x08]]) 7 = Some 32
  ∧ readUInt32LE (ico_bytes [sample_png 32 32 [x08]]) 18 = Ok 22.
Proof. vm_compute. by split_and!. Qed.
(** * The specification *)

(** ** The round trip *)

(** C1, as the code has it.  For between 1 and 256 buffers that pass the
    validation, and whose byte lengths and payload offsets fit the 32-bit
    fields of the directory, [encodeIco] returns a document of which
    [getIcoInfo] reports the batch: the count is the number of buffers, and
    entry [i] has the IHDR width and height and the byte length of buffer
    [i]. *)
Theorem encodeIco_getIcoInfo_roundtrip (bufs : list Buffer) :
  1 ≤ len bufs ≤ 256 →
  (∀ i b, bufs !! i = Some b → ¬ png_rejected (VBuffer b)) →
  (∀ i b, bufs !! i = Some b →
     len b ≤ 4294967295 ∧ payload_offset bufs i ≤ 4294967295) →
  ∃ out info,
    encodeIco (VArray (VBuffer <$> bufs)) = Ok out
    ∧ getIcoInfo (VBuffer out) = Ok info
    ∧ imageCount info = len bufs
    ∧ length (images info) = length bufs
    ∧ ∀ i b, bufs !! i = Some b →
        images info !! i
        = Some {| entry_width := uint32BE b 16; entry_height := uint32BE b 20;
                  entry_size := len b |}.
Proof.
  intros Hlen Hvalid Hfit.
  assert (accepted bufs) as Hacc by (by apply accepted_pointwise).
  exists (ico_bytes bufs),
    {| imageCount := len bufs; type := ICO; images := entry_of <$> bufs |}.
  split; [by apply encodeIco_accepted|].
  split; [by apply getIcoInfo_ico_bytes|].
  cbn [imageCount images]. split; [done|]. split; [by rewrite length_fmap|].
  intros i b Hi. by rewrite list_lookup_fmap, Hi.
Qed.

Lemma encodeIco_getIcoInfo_roundtrip_witness :
  ∃ out info,
    encodeIco (VArray (VBuffer <$> [sample_png 16 16 [x08]; sample_png 256 256 []]))
    = Ok out
    ∧ getIcoInfo (VBuffer out) = Ok info
    ∧ imageCount info = 2
    ∧ length (images info) = 2%nat
    ∧ ∀ i b, [sample_png 16 16 [x08]; sample_png 256 256 []] !! i = Some b →
        images info !! i
        = Some {| entry_width := uint32BE b 16; entry_height := uint32BE b 20;
                  entry_size := len b |}.
Proof.
  apply (encodeIco_getIcoInfo_roundtrip
           [sample_png 16 16 [x08]; sample_png 256 256 []]).
  - vm_compute. split; discriminate.
  - intros [|[|i]] b Hi; simplify_eq/=; by_evaluation.
  - intros [|[|i]] b Hi; simplify_eq/=; vm_compute; split; discriminate.
Defined.

(** C1 as stated fails: a single buffer of 2^32 bytes with a valid 1x1 head
    passes the validation, and [encodeIco] throws when it writes the length
    into the 32-bit size field. *)
Lemma encodeIco_oversized_payload :
  len [oversized_png] = 1
  ∧ len oversized_png = 4294967296
  ∧ ¬ png_rejected (VBuffer oversized_png)
  ∧ encodeIco (VArray [VBuffer oversized_png]) = Throw RangeError.
Proof.
  assert (len oversized_png = 4294967296) as Hlen.
  { unfold oversized_png. rewrite len_app. unfold len at 2.
    rewrite length_replicate, N2Nat.id. reflexivity. }
  assert (¬ png_rejected (VBuffer oversized_png)) as Hok.
  { unfold oversized_png. rewrite png_rejected_app by (vm_compute; discriminate).
    by_evaluation. }
  split; [reflexivity|]. split; [exact Hlen|]. split; [exact Hok|].
  apply (encodeIco_overflow [oversized_png]).
  - split; [reflexivity | discriminate].
  - by constructor.
  - rewrite fmap_cons. cbn [directory_fits info_of size]. rewrite Hlen.
    intros (H & _). by apply H.
Qed.

(** ** Offsets and payloads *)

(** C2.  In a document that [encodeIco] returned for a batch, the offset
    stored in bytes 12-15 of directory entry [i] is
    [6 + 16 * N + sum(len(bufs[0..i)))], and the bytes of the document from
    that offset, as many as bytes 8-11 of the entry say, are buffer [i]. *)
Theorem encodeIco_offsets (bufs : list Buffer) (out : Buffer) (i : nat)
    (b : Buffer) :
  encodeIco (VArray (VBuffer <$> bufs)) = Ok out →
  bufs !! i = Some b →
  ∃ offset stored_size,
    readUInt32LE out (6 + 16 * N.of_nat i + 12) = Ok offset
    ∧ offset = 6 + 16 * len bufs + total_length (take i bufs)
    ∧ readUInt32LE out (6 + 16 * N.of_nat i + 8) = Ok stored_size
    ∧ slice out offset stored_size = b.
Proof.
  intros Henc Hi.
  apply encodeIco_Ok_inv in Henc as (bufs' & Heq & Hacc & ->).
  injection Heq as Heq. apply (inj (fmap VBuffer)) in Heq. subst bufs'.
  destruct (accepted_fits bufs i b Hacc Hi) as [Hsize Hoffset].
  exists (payload_offset bufs i), (len b).
  destruct (ico_bytes_entry bufs i b Hi) as (pre & post & Hentry & Hpre).
  assert (len (ico_bytes bufs) = len pre + 16 + len post) as Hlen.
  { rewrite Hentry, !len_app, len_entry_bytes. lia. }
  rewrite !readUInt32LE_in_bounds by lia.
  split_and!; [| done | |].
  - rewrite Hentry, <- Hpre, uint32LE_window by done.
    by rewrite entry_offset_field.
  - rewrite Hentry, <- Hpre, uint32LE_window by done.
    by rewrite entry_size_field.
  - destruct (ico_bytes_payload bufs i b Hi) as (pre' & post' & -> & <-).
    apply slice_window.
Qed.

Lemma encodeIco_offsets_witness :
  ∃ offset stored_size,
    readUInt32LE
      (ico_bytes [sample_png 16 16 [x08]; sample_png 32 32 [x08; x06]])
      (6 + 16 * N.of_nat 1 + 12) = Ok offset
    ∧ offset = 6 + 16 * 2 + total_length [sample_png 16 16 [x08]]
    ∧ readUInt32LE
        (ico_bytes [sample_png 16 16 [x08]; sample_png 32 32 [x08; x06]])
        (6 + 16 * N.of_nat 1 + 8) = Ok stored_size
    ∧ slice (ico_bytes [sample_png 16 16 [x08]; sample_png 32 32 [x08; x06]])
        offset stored_size
      = sample_png 32 32 [x08; x06].
Proof.
  apply (encodeIco_offsets
           [sample_png 16 16 [x08]; sample_png 32 32 [x08; x06]]
           (ico_bytes [sample_png 16 16 [x08]; sample_png 32 32 [x08; x06]])
           1 (sample_png 32 32 [x08; x06])).
  - vm_compute. reflexivity.
  - reflexivity.
Defined.

(** ** Rejection of a batch *)

(** C3.  [encodeIco] throws on an empty array and on an array of more than
    256 items.  On an array of between 1 and 256 items of which some item is
    rejected by the validation, it throws an error that carries the 1-based
    position of the first rejected item and the error the validation raised
    for it; the call yields that error and nothing else. *)
Theorem encodeIco_rejects (pngBuffers : list (value Buffer)) :
  (len pngBuffers = 0 → encodeIco (VArray pngBuffers) = Throw NoPngBuffer)
  ∧ (256 < len pngBuffers →
     encodeIco (VArray pngBuffers) = Throw (TooManyImages (len pngBuffers)))
  ∧ (1 ≤ len pngBuffers ≤ 256 → Exists png_rejected pngBuffers →
     ∃ i v cause,
       pngBuffers !! i = Some v
       ∧ png_rejected v
       ∧ (∀ j u, (j < i)%nat → pngBuffers !! j = Some u → ¬ png_rejected u)
       ∧ validateAndExtractPngInfo v (N.of_nat i + 1) = Throw cause
       ∧ validation_index cause = Some (N.of_nat i + 1)
       ∧ encodeIco (VArray pngBuffers)
         = Throw (FailedToProcess (N.of_nat i + 1) cause)).
Proof.
  split_and!.
  - intros H. unfold encodeIco. by rewrite decide_True.
  - intros H. unfold encodeIco, MAX_IMAGES.
    rewrite decide_False by lia. by rewrite decide_True.
  - intros Hlen Hex. rewrite encodeIco_array by done.
    pose proof (validateAll_outcome pngBuffers) as Hval.
    inversion Hval as [bufs Hrest Hall Hres
                      |bufs v rest' e Hrest Hall Hrej He Hidx Hres].
    + exfalso. apply Exists_exists in Hex as (v & Hin & Hrej).
      rewrite Hrest in Hin. apply list_elem_of_fmap in Hin as (b & -> & Hb).
      rewrite Forall_forall in Hall. by apply (Hall b).
    + rewrite len_nil, N.add_0_l in *.
      replace (len bufs) with (N.of_nat (length (VBuffer <$> bufs))) in *
        by (by rewrite length_fmap).
      exists (length (VBuffer <$> bufs)), v, e.
      split_and!; [by rewrite Hrest, list_lookup_middle | done | | done | done | done].
      intros j u Hj Hu. rewrite Hrest, lookup_app_l in Hu by done.
      apply list_lookup_fmap_Some in Hu as (b & -> & Hb).
      rewrite Forall_lookup in Hall. by apply (Hall j).
Qed.

(** The second of three items is not a buffer: the error names position 2
    and wraps the error of the validation; the third item, too short, is not
    reached. *)
Example encodeIco_reports_first_failure :
  encodeIco (VArray [VBuffer (sample_png 16 16 []); VOther "string";
                     VBuffer [x89; x50]])
  = Throw (FailedToProcess 2 (ExpectedBuffer 2 "string")).
Proof. vm_compute. reflexivity. Qed.

(** ** PNG validation *)

(** C4.  A buffer on which the code does not do what the claim says.  Its
    bytes 12-15 are C9 48 44 52, not the four bytes of IHDR, and nothing else
    is wrong with it (24 bytes, the PNG signature, the IHDR length 13, the
    dimensions 1x1); the claim has the validation fail, and the code returns
    the record.  The code decodes the four bytes with
    [toString('ascii', 12, 16)], which clears the high bit of each byte,
    before it compares them with IHDR. *)
Theorem validateAndExtractPngInfo_accepts_high_bit_chunk_type :
  len high_bit_chunk_png = 24
  ∧ take 8 high_bit_chunk_png = png_signature_bytes
  ∧ readUInt32BE high_bit_chunk_png 8 = Ok 13
  ∧ slice high_bit_chunk_png 12 4 = [xc9; x48; x44; x52]
  ∧ slice high_bit_chunk_png 12 4 ≠ ihdr_bytes
  ∧ toString_ascii high_bit_chunk_png 12 16 = "IHDR"
  ∧ validateAndExtractPngInfo (VBuffer high_bit_chunk_png) 1
    = Ok {| buffer := high_bit_chunk_png; width := 1; height := 1;
            size := 24 |}.
Proof. split_and!; by vm_compute. Qed.

(** ** The validity check *)

(** C5.  [isValidIco] returns a boolean on every value, never an error; the
    boolean is true exactly for a buffer of at least 6 bytes whose reserved
    field is 0, whose type field is 1 or 2 and whose count field is between
    1 and 256; and it is true for every document [encodeIco] returns. *)
Theorem isValidIco_spec :
  (∀ v : value Buffer,
     ∃ r, isValidIco v = Ok r
          ∧ (r = true
             ↔ ∃ b, v = VBuffer b
                 ∧ 6 ≤ len b
                 ∧ uint16LE b 0 = 0
                 ∧ (uint16LE b 2 = 1 ∨ uint16LE b 2 = 2)
                 ∧ 0 < uint16LE b 4 ≤ 256))
  ∧ (∀ (pngBuffers : value Buffer) (out : Buffer),
       encodeIco pngBuffers = Ok out → isValidIco (VBuffer out) = Ok true).
Proof.
  split.
  - intros v. exists (bool_decide (valid_header v)).
    split; [apply isValidIco_decides|].
    rewrite bool_decide_eq_true. destruct v as [b|items|ty]; cbn [valid_header].
    + split; [intros H; by exists b | by intros (b' & [= <-] & H)].
    + split; [done | by intros (b & [=] & _)].
    + split; [done | by intros (b & [=] & _)].
  - intros pngBuffers out Henc.
    apply encodeIco_Ok_inv in Henc as (bufs & -> & (Hlen & _) & ->).
    rewrite isValidIco_decides. f_equal. apply bool_decide_eq_true.
    by apply ico_bytes_valid_header.
Qed.

(** ** The dimension 256 *)

(** C6.  In a document [encodeIco] returned, the directory entry of an image
    whose IHDR width and height are 256 holds the bytes 0 and 0 for them, and
    [getIcoInfo] reports the width and the height 256 for that entry. *)
Theorem dimension_256_roundtrip (bufs : list Buffer) (out : Buffer) (i : nat)
    (b : Buffer) :
  encodeIco (VArray (VBuffer <$> bufs)) = Ok out →
  bufs !! i = Some b →
  uint32BE b 16 = 256 → uint32BE b 20 = 256 →
  at_index out (6 + 16 * N.of_nat i) = Some 0
  ∧ at_index out (6 + 16 * N.of_nat i + 1) = Some 0
  ∧ ∃ info e,
      getIcoInfo (VBuffer out) = Ok info
      ∧ images info !! i = Some e
      ∧ entry_width e = 256 ∧ entry_height e = 256.
Proof.
  intros Henc Hi Hw Hh.
  apply encodeIco_Ok_inv in Henc as (bufs' & Heq & Hacc & ->).
  injection Heq as Heq. apply (inj (fmap VBuffer)) in Heq. subst bufs'.
  destruct (ico_bytes_entry bufs i b Hi) as (pre & post & Hentry & Hpre).
  set (e := entry_bytes (info_of b) (payload_offset bufs i)) in *.
  assert (len (ico_bytes bufs) = len pre + 16 + len post) as Hlen.
  { rewrite Hentry, !len_app. subst e. rewrite len_entry_bytes. lia. }
  assert (byte_or_zero (ico_bytes bufs) (len pre) = 0) as H0.
  { rewrite Hentry, <- (N.add_0_r (len pre)), byte_or_zero_window by done.
    subst e. rewrite entry_width_byte. cbn [info_of width]. by rewrite Hw. }
  assert (byte_or_zero (ico_bytes bufs) (len pre + 1) = 0) as H1.
  { rewrite Hentry, byte_or_zero_window by done.
    subst e. rewrite entry_height_byte. cbn [info_of height]. by rewrite Hh. }
  rewrite <- Hpre, !byte_or_zero_at_index, H0, H1 by lia.
  split_and!; [done | done |].
  exists {| imageCount := len bufs; type := ICO; images := entry_of <$> bufs |},
         (entry_of b).
  split; [by apply getIcoInfo_ico_bytes|].
  cbn [images]. rewrite list_lookup_fmap, Hi. done.
Qed.

Lemma dimension_256_roundtrip_witness :
  at_index (ico_bytes [sample_png 16 16 [x08]; sample_png 256 256 []])
    (6 + 16 * N.of_nat 1) = Some 0
  ∧ at_index (ico_bytes [sample_png 16 16 [x08]; sample_png 256 256 []])
      (6 + 16 * N.of_nat 1 + 1) = Some 0
  ∧ ∃ info e,
      getIcoInfo
        (VBuffer (ico_bytes [sample_png 16 16 [x08]; sample_png 256 256 []]))
      = Ok info
      ∧ images info !! 1%nat = Some e
      ∧ entry_width e = 256 ∧ entry_height e = 256.
Proof.
  apply (dimension_256_roundtrip
           [sample_png 16 16 [x08]; sample_png 256 256 []]
           (ico_bytes [sample_png 16 16 [x08]; sample_png 256 256 []])
           1 (sample_png 256 256 []));
    vm_compute; reflexivity.
Defined.

(** ** The layout of a directory entry *)

(** C7, as the code has it.  For a validated image whose byte length fits 32
    bits and an offset that fits 32 bits, [createIcoDirectoryEntry] returns
    sixteen bytes: the width and the height with 256 stored as 0, two zero
    bytes, 1 and 32 as little-endian 16-bit numbers, then the byte length of
    the payload and the offset as little-endian 32-bit numbers. *)
Theorem createIcoDirectoryEntry_layout (v : value Buffer) (index : N)
    (imageInfo : PngImageInfo) (offset : N) :
  validateAndExtractPngInfo v index = Ok imageInfo →
  size imageInfo ≤ 4294967295 →
  offset ≤ 4294967295 →
  ∃ entry, createIcoDirectoryEntry imageInfo offset = Ok entry
           ∧ entry_layout imageInfo offset entry.
Proof.
  intros Hv Hsize Hoffset.
  apply validateAndExtractPngInfo_Ok_inv in Hv as (b & -> & Hok & ->).
  apply validated_dimensions in Hok as (_ & Hw & Hh).
  exists (entry_bytes (info_of b) offset). split.
  - by apply createIcoDirectoryEntry_fits.
  - apply entry_bytes_layout; cbn; [lia | lia | done | done | done].
Qed.

Lemma createIcoDirectoryEntry_layout_witness :
  validateAndExtractPngInfo (VBuffer (sample_png 256 32 [x08; x06])) 1
  = Ok (info_of (sample_png 256 32 [x08; x06]))
  ∧ ∃ entry,
      createIcoDirectoryEntry (info_of (sample_png 256 32 [x08; x06])) 22 = Ok entry
      ∧ entry_layout (info_of (sample_png 256 32 [x08; x06])) 22 entry.
Proof.
  split; [vm_compute; reflexivity|].
  apply (createIcoDirectoryEntry_layout
           (VBuffer (sample_png 256 32 [x08; x06])) 1);
    vm_compute; (reflexivity || discriminate).
Defined.

(** C7 as stated fails: an offset that needs more than 32 bits makes
    [writeUInt32LE] throw, for an image that passed the validation. *)
Lemma createIcoDirectoryEntry_offset_out_of_range :
  validateAndExtractPngInfo (VBuffer (sample_png 1 1 [])) 1
  = Ok (info_of (sample_png 1 1 []))
  ∧ createIcoDirectoryEntry (info_of (sample_png 1 1 [])) 4294967296
    = Throw RangeError.
Proof. split; vm_compute; reflexivity. Qed.

(** ** Inspection *)

(** C8.  [getIcoInfo] throws, the invalid-file error, exactly when
    [isValidIco] is false.  Otherwise it returns: the count is the count
    field; the entries listed are the first [m] of the directory, in order,
    each within the buffer, where [m] is the count unless entry [m] would end
    past the buffer; each listed entry has the stored width and height bytes
    with 0 read as 256, and the stored payload length, whatever lies at the
    stored offset. *)
Theorem getIcoInfo_spec (v : value Buffer) :
  (isValidIco v = Ok false ∧ getIcoInfo v = Throw InvalidIcoFile)
  ∨ (isValidIco v = Ok true
     ∧ ∃ b m,
         v = VBuffer b
         ∧ getIcoInfo v
           = Ok {| imageCount := uint16LE b 4;
                   type := if decide (uint16LE b 2 = 1) then ICO else CUR;
                   images := entry_at b <$> indices 0 m |}
         ∧ (m ≤ N.to_nat (uint16LE b 4))%nat
         ∧ (∀ j, (j < m)%nat → 6 + 16 * N.of_nat j + 16 ≤ len b)
         ∧ ((m < N.to_nat (uint16LE b 4))%nat → len b < 6 + 16 * N.of_nat m + 16)).
Proof.
  rewrite isValidIco_decides.
  destruct (decide (valid_header v)) as [Hvalid|Hinvalid].
  - right. split; [by rewrite bool_decide_eq_true_2|].
    destruct v as [b|items|ty]; [|done..].
    destruct (getIcoInfo_valid b Hvalid) as (m & Hm & Hget & Hfit & Hstop).
    by exists b, m.
  - left. split; [by rewrite bool_decide_eq_false_2|].
    by apply getIcoInfo_invalid.
Qed.

(** The directory is not checked against the payloads: an entry that
    declares 1000 bytes at offset 5000 in a 22-byte buffer is reported. *)
Example getIcoInfo_reads_the_directory_only :
  getIcoInfo
    (VBuffer [x00; x00; x01; x00; x01; x00;
              x10; x10; x00; x00; x01; x00; x20; x00;
              xe8; x03; x00; x00; x88; x13; x00; x00])
  = Ok {| imageCount := 1; type := ICO;
          images := [{| entry_width := 16; entry_height := 16;
                        entry_size := 1000 |}] |}.
Proof. vm_compute. reflexivity. Qed.

(** A count of 3 over a buffer that holds one entry and a half: the list
    stops after the first entry. *)
Example getIcoInfo_truncates :
  getIcoInfo
    (VBuffer [x00; x00; x02; x00; x03; x00;
              x00; x20; x00; x00; x01; x00; x20; x00;
              x07; x00; x00; x00; x36; x00; x00; x00;
              x10; x10; x00; x00; x01; x00; x20; x00])
  = Ok {| imageCount := 3; type := CUR;
          images := [{| entry_width := 256; entry_height := 32;
                        entry_size := 7 |}] |}.
Proof. vm_compute. reflexivity. Qed.

(** ** The input buffers *)

(** C9.  Run on a heap, on an argument whose references are to buffers of
    the heap, [encodeIco] leaves every buffer that existed before the call
    as it was, whether it returns or throws: it writes only to the buffers
    it allocates.  Its outcome is the outcome of the functional [encodeIco]
    on the contents of the argument: the same error, or a new buffer that
    holds the same bytes. *)
Theorem encodeIco_leaves_inputs_unchanged (pngBuffers : value Heap.ref)
    (s : Heap.state) :
  Heap.allocated (Heap.buffers s) pngBuffers →
  ∃ r s',
    Heap.encodeIco pngBuffers s = (r, s')
    ∧ (∀ l b, Heap.buffers s !! l = Some b → Heap.buffers s' !! l = Some b)
    ∧ match encodeIco (Heap.resolve (Heap.buffers s) pngBuffers) with
      | Ok bytes =>
          ∃ out, r = Ok out
                 ∧ (length (Heap.buffers s) ≤ out)%nat
                 ∧ Heap.buffers s' !! out = Some bytes
      | Throw e => r = Throw e
      end.
Proof.
  intros Halloc.
  destruct (heap_encodeIco_run pngBuffers s Halloc)
    as (r & s' & Hrun & Hframe & _ & Hout).
  by exists r, s'.
Qed.

Lemma encodeIco_leaves_inputs_unchanged_witness :
  ∃ r s',
    Heap.encodeIco (VArray [VBuffer 0%nat; VBuffer 1%nat; VBuffer 0%nat])
      {| Heap.buffers := [sample_png 16 16 [x08]; sample_png 256 256 []];
         Heap.console := [] |}
    = (r, s')
    ∧ (∀ l b,
         [sample_png 16 16 [x08]; sample_png 256 256 []] !! l = Some b →
         Heap.buffers s' !! l = Some b)
    ∧ match
        encodeIco
          (Heap.resolve [sample_png 16 16 [x08]; sample_png 256 256 []]
             (VArray [VBuffer 0%nat; VBuffer 1%nat; VBuffer 0%nat]))
      with
      | Ok bytes =>
          ∃ out, r = Ok out
                 ∧ (2 ≤ out)%nat
                 ∧ Heap.buffers s' !! out = Some bytes
      | Throw e => r = Throw e
      end.
Proof.
  apply (encodeIco_leaves_inputs_unchanged
           (VArray [VBuffer 0%nat; VBuffer 1%nat; VBuffer 0%nat])
           {| Heap.buffers := [sample_png 16 16 [x08]; sample_png 256 256 []];
              Heap.console := [] |}).
  cbn. split_and!; (lia || exact I).
Defined.

(** ** The two encoders *)

(** C10.  On every argument for which the validating [encodeIco] returns a
    document, an array of buffers, the validation-free [encodeIco] returns
    the same bytes for the same buffers. *)
Theorem encodeIco_legacy_agree (pngBuffers : value Buffer) (out : Buffer) :
  encodeIco pngBuffers = Ok out →
  ∃ bufs, pngBuffers = VArray (VBuffer <$> bufs)
          ∧ 1 ≤ len bufs ≤ 256
          ∧ Forall (λ b, ¬ png_rejected (VBuffer b)) bufs
          ∧ Legacy.encodeIco bufs = Ok out.
Proof.
  intros Henc. apply encodeIco_Ok_inv in Henc as (bufs & -> & Hacc & ->).
  exists bufs. pose proof Hacc as (Hlen & Hall & _).
  split_and!; [done | lia | lia | done | by apply legacy_encodeIco_accepted].
Qed.

Lemma encodeIco_legacy_agree_witness :
  ∃ bufs,
    VArray (VBuffer <$> [sample_png 16 16 [x08]; sample_png 256 256 []])
    = VArray (VBuffer <$> bufs)
    ∧ 1 ≤ len bufs ≤ 256
    ∧ Forall (λ b, ¬ png_rejected (VBuffer b)) bufs
    ∧ Legacy.encodeIco bufs
      = Ok (ico_bytes [sample_png 16 16 [x08]; sample_png 256 256 []]).
Proof.
  apply (encodeIco_legacy_agree
           (VArray (VBuffer <$> [sample_png 16 16 [x08]; sample_png 256 256 []]))).
  vm_compute. reflexivity.
Defined.

(** The agreement is on accepted batches only: the validation-free encoder
    takes a 300x300 image, which the validating one refuses, and stores the
    dimension modulo 256. *)
Example legacy_accepts_more :
  encodeIco (VArray [VBuffer (sample_png 300 300 [])])
  = Throw (FailedToProcess 1 (DimensionsTooLarge 1 300 300))
  ∧ ∃ out, Legacy.encodeIco [sample_png 300 300 []] = Ok out
           ∧ at_index out 6 = Some 44 ∧ at_index out 7 = Some 44.
Proof. split; [vm_compute; reflexivity|]. eexists. by vm_compute. Qed.

(** * Further properties of the ICO module *)

(** ** The document [encodeIco] returns *)

Lemma ico_bytes_recover (bufs : list Buffer) (i : nat) (b : Buffer) :
  accepted bufs → bufs !! i = Some b →
  slice (ico_bytes bufs)
    (uint32LE (ico_bytes bufs) (6 + 16 * N.of_nat i + 12))
    (uint32LE (ico_bytes bufs) (6 + 16 * N.of_nat i + 8)) = b.
Proof.
  intros Hacc Hi.
  destruct (accepted_fits bufs i b Hacc Hi) as [Hsize Hoffset].
  destruct (ico_bytes_entry bufs i b Hi) as (pre & post & Hentry & Hpre).
  assert (uint32LE (ico_bytes bufs) (6 + 16 * N.of_nat i + 12)
          = payload_offset bufs i) as ->.
  { rewrite Hentry, <- Hpre, uint32LE_window by done.
    by rewrite entry_offset_field. }
  assert (uint32LE (ico_bytes bufs) (6 + 16 * N.of_nat i + 8) = len b) as ->.
  { rewrite Hentry, <- Hpre, uint32LE_window by done.
    by rewrite entry_size_field. }
  destruct (ico_bytes_payload bufs i b Hi) as (pre' & post' & -> & <-).
  apply slice_window.
Qed.

Lemma ico_bytes_inj (bufs1 bufs2 : list Buffer) :
  accepted bufs1 → accepted bufs2 → ico_bytes bufs1 = ico_bytes bufs2 →
  bufs1 = bufs2.
Proof.
  intros Hacc1 Hacc2 Heq.
  assert (len bufs1 = len bufs2) as Hlen.
  { rewrite <- (ico_bytes_count bufs1), <- (ico_bytes_count bufs2), Heq;
      [done| |]; [destruct Hacc2 as [[_ ?] _] | destruct Hacc1 as [[_ ?] _]];
      done. }
  assert (length bufs1 = length bufs2) as Hlength by (unfold len in Hlen; lia).
  apply list_eq. intros i.
  destruct (bufs1 !! i) as [b1|] eqn:H1.
  - destruct (lookup_lt_is_Some_2 bufs2 i) as [b2 H2].
    { rewrite <- Hlength. by apply lookup_lt_Some in H1. }
    rewrite H2. f_equal.
    rewrite <- (ico_bytes_recover bufs1 i b1 Hacc1 H1),
            <- (ico_bytes_recover bufs2 i b2 Hacc2 H2).
    by rewrite Heq.
  - symmetry. apply lookup_ge_None. rewrite <- Hlength.
    by apply lookup_ge_None.
Qed.

(** X1.  A document [encodeIco] returns is a 6-byte header, 16 bytes per
    image and then the buffers themselves in the order given: its length is
    [6 + 16 * N + sum(len(bufs))], it starts with 00 00 01 00 and the count,
    and what follows the directory is the concatenation of the inputs. *)
Theorem encodeIco_document (pngBuffers : value Buffer) (out : Buffer) :
  encodeIco pngBuffers = Ok out →
  ∃ bufs,
    pngBuffers = VArray (VBuffer <$> bufs)
    ∧ len out = 6 + 16 * len bufs + total_length bufs
    ∧ take 4 out = [x00; x00; x01; x00]
    ∧ readUInt16LE out 4 = Ok (len bufs)
    ∧ drop (6 + 16 * length bufs) out = concat bufs.
Proof.
  intros Henc.
  apply encodeIco_Ok_inv in Henc as (bufs & -> & Hacc & ->).
  exists bufs. split; [done|]. split; [apply len_ico_bytes|].
  split; [done|]. split.
  - rewrite readUInt16LE_in_bounds by (rewrite len_ico_bytes; lia).
    f_equal. apply ico_bytes_count. by destruct Hacc as [[_ ?] _].
  - unfold ico_bytes. rewrite app_assoc. apply drop_app_length'.
    rewrite length_app.
    pose proof (len_header_bytes (len bufs)) as H1.
    pose proof (len_directory_bytes (info_of <$> bufs) (6 + 16 * len bufs)) as H2.
    rewrite len_fmap in H2. unfold len in *. lia.
Qed.

Lemma encodeIco_document_witness :
  ∃ bufs,
    VArray (VBuffer <$> [sample_png 16 16 [x08]; sample_png 32 32 [x08; x06]])
    = VArray (VBuffer <$> bufs)
    ∧ len (ico_bytes [sample_png 16 16 [x08]; sample_png 32 32 [x08; x06]])
      = 6 + 16 * len bufs + total_length bufs
    ∧ take 4 (ico_bytes [sample_png 16 16 [x08]; sample_png 32 32 [x08; x06]])
      = [x00; x00; x01; x00]
    ∧ readUInt16LE
        (ico_bytes [sample_png 16 16 [x08]; sample_png 32 32 [x08; x06]]) 4
      = Ok (len bufs)
    ∧ drop (6 + 16 * length bufs)
        (ico_bytes [sample_png 16 16 [x08]; sample_png 32 32 [x08; x06]])
      = concat bufs.
Proof.
  apply (encodeIco_document
           (VArray (VBuffer <$> [sample_png 16 16 [x08];
                                 sample_png 32 32 [x08; x06]]))).
  vm_compute. reflexivity.
Defined.

(** X2.  [encodeIco] is injective: a document is returned for one argument
    only, so the batch can be recovered from the document. *)
Theorem encodeIco_injective (v1 v2 : value Buffer) (out : Buffer) :
  encodeIco v1 = Ok out → encodeIco v2 = Ok out → v1 = v2.
Proof.
  intros H1 H2.
  apply encodeIco_Ok_inv in H1 as (bufs1 & -> & Hacc1 & ->).
  apply encodeIco_Ok_inv in H2 as (bufs2 & -> & Hacc2 & Heq).
  by rewrite (ico_bytes_inj bufs1 bufs2).
Qed.

Lemma encodeIco_injective_witness :
  VArray [VBuffer (sample_png 16 16 [x08])]
  = VArray (VBuffer <$> [sample_png 16 16 [x08]]).
Proof.
  apply (encodeIco_injective _ _ (ico_bytes [sample_png 16 16 [x08]]));
    vm_compute; reflexivity.
Defined.

(** ** Every outcome of [encodeIco] *)

Lemma directory_overflow (bufs : list Buffer) (offset : N) :
  ¬ directory_fits (info_of <$> bufs) offset →
  ∃ i b, bufs !! i = Some b
         ∧ (4294967295 < len b
            ∨ 4294967295 < offset + total_length (take i bufs)).
Proof.
  revert offset. induction bufs as [|b0 bufs IH]; intros offset Hfit.
  - by destruct Hfit.
  - cbn [fmap list_fmap directory_fits info_of size] in Hfit.
    destruct (decide (len b0 ≤ 4294967295)) as [Hsize|Hsize];
      [|exists 0%nat, b0; split; [done|]; left; lia].
    destruct (decide (offset ≤ 4294967295)) as [Hoffset|Hoffset];
      [|exists 0%nat, b0; split; [done|]; right; cbn; lia].
    destruct (IH (offset + len b0)) as (i & b & Hi & Hover); [tauto|].
    exists (S i), b. split; [done|].
    cbn [take total_length foldr]. fold (total_length (take i bufs)). lia.
Qed.

Lemma len_zero_nil {A : Type} (l : list A) : len l = 0 → l = [].
Proof. destruct l; [done|]. unfold len; cbn. lia. Qed.

(** X3.  The outcomes of [encodeIco], each with the arguments that lead to
    it.  It returns for an array of between 1 and 256 buffers that all pass
    the validation and whose lengths and payload offsets fit 32 bits.  It
    throws its own errors for a value that is not an array, an empty array,
    an array of more than 256 items and for the first rejected item (every
    item before the position it reports passes the validation); it
    throws Node's range error exactly for a batch of valid buffers in which
    a length or an offset needs more than 32 bits; and it throws nothing
    else, in particular no validation error that is not wrapped. *)
Theorem encodeIco_outcome (v : value Buffer) :
  match encodeIco v with
  | Ok out =>
      ∃ bufs, v = VArray (VBuffer <$> bufs) ∧ 1 ≤ len bufs ≤ 256
        ∧ Forall (λ b, ¬ png_rejected (VBuffer b)) bufs
        ∧ ∀ i b, bufs !! i = Some b →
            len b ≤ 4294967295 ∧ payload_offset bufs i ≤ 4294967295
  | Throw NotAnArray => ∀ items, v ≠ VArray items
  | Throw NoPngBuffer => v = VArray []
  | Throw (TooManyImages count) =>
      ∃ items, v = VArray items ∧ count = len items ∧ 256 < count
  | Throw (FailedToProcess position cause) =>
      ∃ items u, v = VArray items ∧ 1 ≤ len items ≤ 256
        ∧ 1 ≤ position
        ∧ items !! N.to_nat (position - 1) = Some u
        ∧ png_rejected u
        ∧ (∀ j w, (j < N.to_nat (position - 1))%nat →
             items !! j = Some w → ¬ png_rejected w)
        ∧ validateAndExtractPngInfo u position = Throw cause
  | Throw RangeError =>
      ∃ bufs, v = VArray (VBuffer <$> bufs) ∧ 1 ≤ len bufs ≤ 256
        ∧ Forall (λ b, ¬ png_rejected (VBuffer b)) bufs
        ∧ ∃ i b, bufs !! i = Some b
            ∧ (4294967295 < len b ∨ 4294967295 < payload_offset bufs i)
  | Throw _ => False
  end.
Proof.
  destruct v as [b|items|ty]; [by intros items| |by intros items].
  destruct (decide (len items = 0)) as [Hzero|Hzero].
  { unfold encodeIco. rewrite decide_True by done.
    by rewrite (len_zero_nil items). }
  destruct (decide (256 < len items)) as [Hmany|Hmany].
  { unfold encodeIco, MAX_IMAGES. rewrite decide_False, decide_True by done.
    by exists items. }
  assert (1 ≤ len items ≤ 256) as Hlen by lia.
  rewrite encodeIco_array by done.
  pose proof (validateAll_outcome items) as Hval.
  inversion Hval as [bufs Hrest Hall Hres
                    |bufs u rest' e Hrest Hall Hrej He Hidx Hres].
  - cbn [mbind result_bind app]. rewrite len_fmap.
    subst items. rewrite len_fmap in Hlen.
    destruct (decide (directory_fits (info_of <$> bufs) (6 + 16 * len bufs)))
      as [Hfit|Hfit].
    + exists bufs. split_and!; [done|lia|lia|done|].
      by apply directory_fits_pointwise.
    + exists bufs. split_and!; [done|lia|lia|done|].
      by apply directory_overflow.
  - cbn [mbind result_bind]. rewrite len_nil, N.add_0_l in *.
    replace (N.to_nat (len bufs + 1 - 1)) with (length (VBuffer <$> bufs))
      by (rewrite length_fmap; unfold len; lia).
    exists items, u. split_and!; [done|lia|lia|lia| |done| |done].
    + rewrite Hrest. by apply list_lookup_middle.
    + intros j w Hj Hw. rewrite Hrest, lookup_app_l in Hw by done.
      apply list_lookup_fmap_Some in Hw as (b & -> & Hb).
      rewrite Forall_lookup in Hall. by apply (Hall j).
Qed.

(** Of three items the second and the third are rejected: the error is
    about the second. *)
Example encodeIco_outcome_first_rejected :
  encodeIco (VArray [VBuffer (sample_png 16 16 []); VOther "string";
                     VBuffer [x89; x50]])
  = Throw (FailedToProcess 2 (ExpectedBuffer 2 "string"))
  ∧ ¬ png_rejected (VBuffer (sample_png 16 16 []))
  ∧ png_rejected (VOther "string" : value Buffer)
  ∧ png_rejected (VBuffer [x89; x50]).
Proof.
  split; [vm_compute; reflexivity|]. split; [by_evaluation|].
  split; [done|]. left. vm_compute. reflexivity.
Qed.

(** ** pngToIco *)

(** X4.  [pngToIco] on one value: a rejected value gives the error of the
    validation wrapped with position 1; a valid buffer of more than
    [2^32 - 1] bytes gives a range error; any other valid buffer gives a
    document of 22 bytes followed by the buffer itself, whose only entry
    points at offset 22 and of which [getIcoInfo] reports one image of type
    ICO with the dimensions and the byte length of the buffer. *)
Theorem pngToIco_spec (v : value Buffer) :
  (png_rejected v →
   ∃ cause, validateAndExtractPngInfo v 1 = Throw cause
            ∧ pngToIco v = Throw (FailedToProcess 1 cause))
  ∧ (∀ b, v = VBuffer b → ¬ png_rejected v → 4294967295 < len b →
     pngToIco v = Throw RangeError)
  ∧ (∀ b, v = VBuffer b → ¬ png_rejected v → len b ≤ 4294967295 →
     ∃ out, pngToIco v = Ok out
            ∧ len out = 22 + len b
            ∧ drop 22 out = b
            ∧ readUInt32LE out 18 = Ok 22
            ∧ getIcoInfo (VBuffer out)
              = Ok {| imageCount := 1; type := ICO;
                      images := [{| entry_width := uint32BE b 16;
                                    entry_height := uint32BE b 20;
                                    entry_size := len b |}] |}).
Proof.
  split_and!.
  - intros Hrej. unfold pngToIco.
    rewrite encodeIco_array by (vm_compute; split; discriminate).
    pose proof (validateAll_outcome [v]) as Hval.
    inversion Hval as [bufs Hrest Hall Hres
                      |bufs u rest' e Hrest Hall Hrej' He Hidx Hres].
    + destruct bufs as [|b [|??]]; simplify_eq/=.
      by apply Forall_inv in Hall.
    + destruct bufs as [|b bufs]; simplify_eq/=;
        [|by destruct bufs].
      by exists e.
  - intros b -> Hok Hlong. unfold pngToIco.
    apply (encodeIco_overflow [b]).
    + vm_compute. split; discriminate.
    + by constructor.
    + cbn [fmap list_fmap directory_fits info_of size]. lia.
  - intros b -> Hok Hfit.
    assert (accepted [b]) as Hacc.
    { split_and!; [vm_compute; discriminate | vm_compute; discriminate
                  | by constructor |].
      cbn [fmap list_fmap directory_fits info_of size].
      change (len [b]) with 1. lia. }
    exists (ico_bytes [b]). unfold pngToIco.
    split; [apply (encodeIco_accepted [b] Hacc)|].
    split; [rewrite len_ico_bytes; change (len [b]) with 1; cbn; lia|].
    split; [cbn; by rewrite app_nil_r|].
    split.
    + rewrite readUInt32LE_in_bounds
        by (rewrite len_ico_bytes; change (len [b]) with 1; lia).
      reflexivity.
    + by rewrite (getIcoInfo_ico_bytes [b] Hacc).
Qed.

(** ** The duplicate-size warnings *)

Lemma occurrences_app (k : N * N) (l1 l2 : list (N * N)) :
  occurrences k (l1 ++ l2) = (occurrences k l1 + occurrences k l2)%nat.
Proof. unfold occurrences. by rewrite filter_app, length_app. Qed.

Lemma occurrences_singleton (k x : N * N) :
  occurrences k [x] = if decide (k = x) then 1%nat else 0%nat.
Proof.
  unfold occurrences. rewrite filter_cons, filter_nil.
  by destruct (decide (k = x)).
Qed.

Lemma occurrences_zero (k : N * N) (l : list (N * N)) :
  occurrences k l = 0%nat ↔ k ∉ l.
Proof.
  induction l as [|x l IH].
  - split; [intros _; apply not_elem_of_nil | done].
  - change (x :: l) with ([x] ++ l).
    rewrite occurrences_app, occurrences_singleton, not_elem_of_app,
      list_elem_of_singleton, <- IH.
    destruct (decide (k = x)); [|tauto]. split; [lia | tauto].
Qed.

Lemma NoDup_occurrences (l : list (N * N)) :
  NoDup l ↔ ∀ k, (occurrences k l ≤ 1)%nat.
Proof.
  induction l as [|x l IH].
  - split; [intros _ k; cbn; lia | constructor].
  - rewrite NoDup_cons, IH. split.
    + intros [Hnot Hall] k.
      change (x :: l) with ([x] ++ l).
      rewrite occurrences_app, occurrences_singleton.
      destruct (decide (k = x)) as [->|]; [|apply Hall].
      apply occurrences_zero in Hnot. lia.
    + intros Hall. split.
      * apply occurrences_zero. specialize (Hall x).
        change (x :: l) with ([x] ++ l) in Hall.
        rewrite occurrences_app, occurrences_singleton, decide_True in Hall
          by done.
        lia.
      * intros k. specialize (Hall k).
        change (x :: l) with ([x] ++ l) in Hall.
        rewrite occurrences_app in Hall. lia.
Qed.

(** The invariant of the duplicate loop: the set holds the keys seen, and
    every key seen [n] times has been printed [n - 1] times. *)
Lemma warnDuplicate_loop (infos : list PngImageInfo) (seen : list (N * N))
    (dimensionSet : gset (N * N)) (warnings : list (N * N)) :
  (∀ k, k ∈ dimensionSet ↔ k ∈ seen) →
  (∀ k, occurrences k warnings = pred (occurrences k seen)) →
  ∀ k, occurrences k (foldl warnDuplicate (dimensionSet, warnings) infos).2
       = pred (occurrences k
                 (seen ++ ((λ info, (width info, height info)) <$> infos))).
Proof.
  revert seen dimensionSet warnings.
  induction infos as [|info infos IH]; intros seen set warnings Hset Hcount k.
  - cbn [foldl fmap list_fmap snd]. rewrite app_nil_r. apply Hcount.
  - cbn [foldl fmap list_fmap]. unfold warnDuplicate at 2.
    replace (seen ++ (width info, height info)
                     :: ((λ info, (width info, height info)) <$> infos))
      with ((seen ++ [(width info, height info)])
              ++ ((λ info, (width info, height info)) <$> infos))
      by (by rewrite <- app_assoc).
    apply IH.
    + intros k'. rewrite elem_of_union, elem_of_singleton, elem_of_app,
        list_elem_of_singleton, Hset. tauto.
    + intros k'. rewrite occurrences_app, occurrences_singleton.
      destruct (decide ((width info, height info) ∈ set)) as [Hin|Hin].
      * rewrite occurrences_app, occurrences_singleton, Hcount.
        destruct (decide (k' = (width info, height info))) as [->|]; [|lia].
        apply Hset in Hin.
        assert (occurrences (width info, height info) seen ≠ 0%nat)
          by (by rewrite occurrences_zero; intros H; apply H).
        lia.
      * rewrite Hcount.
        destruct (decide (k' = (width info, height info))) as [->|]; [|lia].
        rewrite Hset in Hin. apply occurrences_zero in Hin. lia.
Qed.

Lemma duplicateWarnings_count (bufs : list Buffer) (k : N * N) :
  occurrences k (duplicateWarnings (info_of <$> bufs))
  = pred (occurrences k (dimensions <$> bufs)).
Proof.
  unfold duplicateWarnings.
  rewrite (warnDuplicate_loop (info_of <$> bufs) [] ∅ []).
  - cbn [app]. by rewrite <- list_fmap_compose.
  - intros k'. rewrite elem_of_empty. by rewrite elem_of_nil.
  - done.
Qed.

Lemma occurrences_all_zero (l : list (N * N)) :
  l = [] ↔ ∀ k, occurrences k l = 0%nat.
Proof.
  split; [by intros -> k|].
  intros Hall. destruct l as [|x l]; [done|].
  specialize (Hall x). apply occurrences_zero in Hall.
  exfalso. apply Hall. left.
Qed.

(** X5.  What [encodeIco] prints.  For an array of between 1 and 256 valid
    buffers the call appends to the console one warning per image whose
    dimensions an earlier image of the batch already has: a pair
    (width, height) that occurs [n] times in the batch is warned about
    [n - 1] times, so nothing is printed exactly when the dimensions of the
    batch are pairwise distinct. *)
Theorem encodeIco_warns_duplicates (pngBuffers : value Heap.ref)
    (s : Heap.state) (bufs : list Buffer) :
  Heap.allocated (Heap.buffers s) pngBuffers →
  Heap.resolve (Heap.buffers s) pngBuffers = VArray (VBuffer <$> bufs) →
  1 ≤ len bufs ≤ 256 →
  Forall (λ b, ¬ png_rejected (VBuffer b)) bufs →
  ∃ r s' printed,
    Heap.encodeIco pngBuffers s = (r, s')
    ∧ Heap.console s' = Heap.console s ++ printed
    ∧ (∀ k, occurrences k printed = pred (occurrences k (dimensions <$> bufs)))
    ∧ (printed = [] ↔ NoDup (dimensions <$> bufs)).
Proof.
  intros Halloc Hres Hlen Hall.
  destruct (heap_encodeIco_run pngBuffers s Halloc)
    as (r & s' & Hrun & _ & Hconsole & _).
  exists r, s', (duplicateWarnings (info_of <$> bufs)).
  split; [done|]. split.
  - rewrite Hconsole, Hres. unfold encodeIco_warnings, MAX_IMAGES.
    rewrite len_fmap, !decide_False by lia.
    by rewrite validateAll_accepts.
  - split; [apply duplicateWarnings_count|].
    rewrite occurrences_all_zero, NoDup_occurrences.
    split; intros H k; specialize (H k);
      rewrite duplicateWarnings_count in *; lia.
Qed.

Lemma encodeIco_warns_duplicates_witness :
  ∃ r s' printed,
    Heap.encodeIco (VArray [VBuffer 0%nat; VBuffer 1%nat; VBuffer 0%nat])
      {| Heap.buffers := [sample_png 16 16 [x08]; sample_png 256 256 []];
         Heap.console := [] |}
    = (r, s')
    ∧ Heap.console s' = [] ++ printed
    ∧ (∀ k, occurrences k printed
            = pred (occurrences k
                      (dimensions <$> [sample_png 16 16 [x08];
                                       sample_png 256 256 [];
                                       sample_png 16 16 [x08]])))
    ∧ (printed = []
       ↔ NoDup (dimensions <$> [sample_png 16 16 [x08]; sample_png 256 256 [];
                                sample_png 16 16 [x08]])).
Proof.
  apply (encodeIco_warns_duplicates
           (VArray [VBuffer 0%nat; VBuffer 1%nat; VBuffer 0%nat])
           {| Heap.buffers := [sample_png 16 16 [x08]; sample_png 256 256 []];
              Heap.console := [] |}
           [sample_png 16 16 [x08]; sample_png 256 256 [];
            sample_png 16 16 [x08]]).
  - cbn. lia.
  - reflexivity.
  - vm_compute. split; discriminate.
  - repeat constructor; by_evaluation.
Defined.

(** X6.  A call of [encodeIco] that fails before the header is built has no
    effect at all: for a value that is not an array, an empty or over-long
    array, or an array with a rejected item, it throws with the heap and the
    console exactly as they were, so no buffer has been allocated and no
    warning printed.  (A range error comes later, after the allocations.) *)
Theorem encodeIco_failure_has_no_effect (pngBuffers : value Heap.ref)
    (s : Heap.state) (e : Error) :
  Heap.allocated (Heap.buffers s) pngBuffers →
  encodeIco (Heap.resolve (Heap.buffers s) pngBuffers) = Throw e →
  e ≠ RangeError →
  Heap.encodeIco pngBuffers s = (Throw e, s).
Proof.
  intros Halloc Henc Hrange.
  destruct pngBuffers as [r0|items|ty];
    [by injection Henc as <- | | by injection Henc as <-].
  apply allocated_array in Halloc.
  cbn [Heap.resolve] in Henc.
  destruct (decide (len items = 0)) as [Hzero|Hzero].
  { unfold encodeIco in Henc. unfold Heap.encodeIco.
    rewrite len_fmap in Henc. rewrite decide_True in Henc by done.
    rewrite decide_True by done.
    by injection Henc as <-. }
  destruct (decide (MAX_IMAGES < len items)) as [Hmany|Hmany].
  { unfold encodeIco in Henc. unfold Heap.encodeIco.
    rewrite len_fmap in Henc.
    rewrite decide_False, decide_True in Henc by done.
    rewrite decide_False, decide_True by done.
    by injection Henc as <-. }
  unfold MAX_IMAGES in Hmany.
  rewrite encodeIco_array in Henc by (rewrite len_fmap; lia).
  unfold Heap.encodeIco. rewrite !decide_False by done.
  rewrite run_bind.
  pose proof (heap_validateAll_run s items Halloc) as Hval.
  destruct (validateAll (Heap.resolve (Heap.buffers s) <$> items))
    as [infos|e'] eqn:Hinfos; cbn [mbind result_bind] in Henc.
  - destruct (decide (directory_fits infos (6 + 16 * len infos)));
      [done | by injection Henc as <-].
  - rewrite Hval. by injection Henc as <-.
Qed.

Lemma encodeIco_failure_has_no_effect_witness :
  Heap.encodeIco (VArray [VBuffer 0%nat; VOther "string"])
    {| Heap.buffers := [sample_png 16 16 [x08]]; Heap.console := [] |}
  = (Throw (FailedToProcess 2 (ExpectedBuffer 2 "string")),
     {| Heap.buffers := [sample_png 16 16 [x08]]; Heap.console := [] |}).
Proof.
  apply (encodeIco_failure_has_no_effect
           (VArray [VBuffer 0%nat; VOther "string"])
           {| Heap.buffers := [sample_png 16 16 [x08]]; Heap.console := [] |}).
  - cbn. lia.
  - vm_compute. reflexivity.
  - discriminate.
Defined.

(** ** What [getIcoInfo] reports *)

Lemma elem_of_indices (i k : N) (m : nat) :
  k ∈ indices i m → i ≤ k < i + N.of_nat m.
Proof.
  revert i. induction m as [|m IH]; intros i; cbn [indices].
  - by intros ?%elem_of_nil.
  - intros [->|Hk%IH]%elem_of_cons; lia.
Qed.

Lemma uint32LE_lt (b : Buffer) (offset : N) : uint32LE b offset ≤ 4294967295.
Proof.
  unfold uint32LE.
  pose proof (byte_or_zero_lt b offset).
  pose proof (byte_or_zero_lt b (offset + 1)).
  pose proof (byte_or_zero_lt b (offset + 2)).
  pose proof (byte_or_zero_lt b (offset + 3)).
  lia.
Qed.

Lemma entry_at_bounds (b : Buffer) (i : N) :
  1 ≤ entry_width (entry_at b i) ≤ 256
  ∧ 1 ≤ entry_height (entry_at b i) ≤ 256
  ∧ entry_size (entry_at b i) ≤ 4294967295.
Proof.
  unfold entry_at. cbn [entry_width entry_height entry_size].
  pose proof (byte_or_zero_lt b (6 + 16 * i)).
  pose proof (byte_or_zero_lt b (6 + 16 * i + 1)).
  pose proof (uint32LE_lt b (6 + 16 * i + 8)).
  repeat case_decide; lia.
Qed.

(** X7.  Whatever the buffer holds, a report of [getIcoInfo] is within
    bounds: the count is between 1 and 256; the number of images listed is
    the smaller of the count and the number of whole 16-byte entries the
    buffer has room for after the header; every listed width and height is
    between 1 and 256 and every listed size is below [2^32]. *)
Theorem getIcoInfo_bounds (v : value Buffer) (info : IcoInfo) :
  getIcoInfo v = Ok info →
  ∃ b, v = VBuffer b
    ∧ 1 ≤ imageCount info ≤ 256
    ∧ len (images info) = N.min (imageCount info) ((len b - 6) / 16)
    ∧ Forall (λ e, 1 ≤ entry_width e ≤ 256
                   ∧ 1 ≤ entry_height e ≤ 256
                   ∧ entry_size e ≤ 4294967295) (images info).
Proof.
  intros Hinfo.
  destruct (decide (valid_header v)) as [Hvalid|Hinvalid];
    [|by rewrite getIcoInfo_invalid in Hinfo].
  destruct v as [b|items|ty]; [|done|done].
  destruct (getIcoInfo_valid b Hvalid) as (m & Hm & Hget & Hfit & Hstop).
  rewrite Hget in Hinfo. injection Hinfo as <-.
  cbn [imageCount images].
  destruct Hvalid as (Hlen & _ & _ & Hcount).
  exists b. split_and!; [done | lia | lia | |].
  - unfold len at 1. rewrite length_fmap, length_indices.
    pose proof (N.div_mod (len b - 6) 16 ltac:(done)) as Hdiv.
    pose proof (N.mod_lt (len b - 6) 16 ltac:(done)) as Hmod.
    set (q := (len b - 6) / 16) in *. set (r := (len b - 6) mod 16) in *.
    destruct (N.min_spec (uint16LE b 4) q) as [[? ->]|[? ->]];
    destruct m as [|m'].
    + specialize (Hstop ltac:(lia)). lia.
    + specialize (Hfit m' ltac:(lia)).
      destruct (decide (S m' < N.to_nat (uint16LE b 4))%nat) as [Hlt|Hge];
        [specialize (Hstop Hlt)|]; lia.
    + specialize (Hstop ltac:(lia)). lia.
    + specialize (Hfit m' ltac:(lia)).
      destruct (decide (S m' < N.to_nat (uint16LE b 4))%nat) as [Hlt|Hge];
        [specialize (Hstop Hlt)|]; lia.
  - apply Forall_fmap, Forall_forall. intros i _. apply entry_at_bounds.
Qed.

Lemma getIcoInfo_bounds_witness :
  ∃ b, VBuffer [x00; x00; x02; x00; x03; x00;
                x00; x20; x00; x00; x01; x00; x20; x00;
                x07; x00; x00; x00; x36; x00; x00; x00;
                x10; x10; x00; x00; x01; x00; x20; x00] = VBuffer b
    ∧ 1 ≤ 3 ≤ 256
    ∧ len [{| entry_width := 256; entry_height := 32; entry_size := 7 |}]
      = N.min 3 ((len b - 6) / 16)
    ∧ Forall (λ e, 1 ≤ entry_width e ≤ 256
                   ∧ 1 ≤ entry_height e ≤ 256
                   ∧ entry_size e ≤ 4294967295)
        [{| entry_width := 256; entry_height := 32; entry_size := 7 |}].
Proof.
  apply (getIcoInfo_bounds
           (VBuffer [x00; x00; x02; x00; x03; x00;
                     x00; x20; x00; x00; x01; x00; x20; x00;
                     x07; x00; x00; x00; x36; x00; x00; x00;
                     x10; x10; x00; x00; x01; x00; x20; x00])
           {| imageCount := 3; type := CUR;
              images := [{| entry_width := 256; entry_height := 32;
                            entry_size := 7 |}] |}).
  vm_compute. reflexivity.
Defined.

Lemma uint32LE_app_l (e post : Buffer) (k : N) :
  k + 4 ≤ len e → uint32LE (e ++ post) k = uint32LE e k.
Proof.
  intros H. unfold uint32LE. by rewrite !byte_or_zero_app_l by lia.
Qed.

Lemma entry_at_app_l (b extra : Buffer) (i : N) :
  6 + 16 * i + 16 ≤ len b → entry_at (b ++ extra) i = entry_at b i.
Proof.
  intros H. unfold entry_at.
  by rewrite !byte_or_zero_app_l, uint32LE_app_l by lia.
Qed.

Lemma valid_header_app_l (b extra : Buffer) :
  6 ≤ len b → valid_header (VBuffer (b ++ extra)) ↔ valid_header (VBuffer b).
Proof.
  intros H. unfold valid_header.
  rewrite !uint16LE_app_l, len_app by lia. intuition lia.
Qed.

(** A directory that lies inside the buffer is listed in full. *)
Lemma getIcoInfo_complete (b : Buffer) :
  valid_header (VBuffer b) → 6 + 16 * uint16LE b 4 ≤ len b →
  getIcoInfo (VBuffer b)
  = Ok {| imageCount := uint16LE b 4;
          type := if decide (uint16LE b 2 = 1) then ICO else CUR;
          images := entry_at b <$> indices 0 (N.to_nat (uint16LE b 4)) |}.
Proof.
  intros Hvalid Hdir.
  destruct (getIcoInfo_valid b Hvalid) as (m & Hm & -> & Hfit & Hstop).
  destruct (decide (m < N.to_nat (uint16LE b 4))%nat) as [Hlt|Hge].
  - specialize (Hstop Hlt). lia.
  - by replace m with (N.to_nat (uint16LE b 4)) by lia.
Qed.

(** X8.  [getIcoInfo] reads the header and the directory and nothing else:
    for a buffer that holds the whole directory its header declares, the
    outcome (a report or the invalid-file error) is the same whatever bytes
    follow. *)
Theorem getIcoInfo_ignores_payload (b extra : Buffer) :
  6 + 16 * uint16LE b 4 ≤ len b →
  getIcoInfo (VBuffer (b ++ extra)) = getIcoInfo (VBuffer b).
Proof.
  intros Hdir.
  assert (6 ≤ len b) as Hlen by lia.
  destruct (decide (valid_header (VBuffer b))) as [Hvalid|Hinvalid].
  - rewrite (getIcoInfo_complete b) by done.
    rewrite (getIcoInfo_complete (b ++ extra));
      [|by apply valid_header_app_l
       |rewrite uint16LE_app_l, len_app by lia; lia].
    rewrite !uint16LE_app_l by lia. do 2 f_equal.
    apply Forall_fmap_ext_1, Forall_forall. intros i Hi%elem_of_indices.
    apply entry_at_app_l. lia.
  - rewrite !getIcoInfo_invalid; [done | done |].
    by rewrite valid_header_app_l.
Qed.

Lemma getIcoInfo_ignores_payload_witness :
  getIcoInfo
    (VBuffer ([x00; x00; x01; x00; x01; x00;
               x10; x10; x00; x00; x01; x00; x20; x00;
               xe8; x03; x00; x00; x88; x13; x00; x00] ++ [xff; xfe]))
  = getIcoInfo
      (VBuffer [x00; x00; x01; x00; x01; x00;
                x10; x10; x00; x00; x01; x00; x20; x00;
                xe8; x03; x00; x00; x88; x13; x00; x00]).
Proof.
  apply (getIcoInfo_ignores_payload
           [x00; x00; x01; x00; x01; x00;
            x10; x10; x00; x00; x01; x00; x20; x00;
            xe8; x03; x00; x00; x88; x13; x00; x00] [xff; xfe]).
  vm_compute. discriminate.
Defined.

(** ** What the validation looks at *)

Lemma for_range_ext {St : Type} (lo hi : N)
    (body1 body2 : N → St → result (LoopStep St)) (s : St) :
  (∀ i s, lo ≤ i < hi → body1 i s = body2 i s) →
  for_range lo hi body1 s = for_range lo hi body2 s.
Proof.
  remember (N.to_nat (hi - lo)) as n eqn:Hn.
  revert lo s Hn. induction n as [|n IH]; intros lo s Hn Hext.
  - by rewrite !for_range_done by lia.
  - rewrite !for_range_unfold by lia. rewrite Hext by lia.
    destruct (body2 lo s) as [[s'|s']|e]; [|done|done].
    apply IH; [lia|]. intros i s'' Hi. apply Hext. lia.
Qed.

(** A loop whose body only checks a condition throws at the first index
    where the condition holds. *)
Lemma for_range_check_first (P : N → Prop) `{!∀ i, Decision (P i)}
    (E : N → Error) (lo hi i : N) :
  lo ≤ i < hi → (∀ j, lo ≤ j < i → ¬ P j) → P i →
  for_range lo hi
    (λ i (_ : unit), if decide (P i) then Throw (E i) else Ok (Continue tt)) tt
  = Throw (E i).
Proof.
  remember (N.to_nat (i - lo)) as n eqn:Hn.
  revert lo Hn. induction n as [|n IH]; intros lo Hn Hi Hfirst HP.
  - assert (lo = i) as -> by lia.
    rewrite for_range_unfold by lia. by rewrite decide_True.
  - rewrite for_range_unfold by lia.
    rewrite decide_False by (apply Hfirst; lia).
    apply IH; [lia | lia | | done]. intros j Hj. apply Hfirst. lia.
Qed.

Lemma at_index_app_l (b rest : Buffer) (i : N) :
  i < len b → at_index (b ++ rest) i = at_index b i.
Proof.
  intros H. unfold at_index. rewrite lookup_app_l; [done|].
  unfold len in H. lia.
Qed.

(** X9.  The validation reads the first 24 bytes of a buffer and its length,
    nothing more: bytes appended to a buffer of at least 24 bytes change
    neither the verdict nor the error nor the dimensions, only the recorded
    buffer and size.  In particular the chunk data after the dimensions and
    the checksums of the stream are never examined. *)
Theorem validateAndExtractPngInfo_reads_24_bytes (b rest : Buffer) (index : N) :
  24 ≤ len b →
  validateAndExtractPngInfo (VBuffer (b ++ rest)) index
  = match validateAndExtractPngInfo (VBuffer b) index with
    | Ok info =>
        Ok {| buffer := b ++ rest; width := width info; height := height info;
              size := size info + len rest |}
    | Throw e => Throw e
    end.
Proof.
  intros Hlen. unfold validateAndExtractPngInfo.
  rewrite (decide_False (P := len (b ++ rest) < 24)) by (rewrite len_app; lia).
  rewrite (decide_False (P := len b < 24)) by lia.
  rewrite (for_range_ext 0 (len PNG_SIGNATURE) _
             (λ i _, if decide (at_index b i ≠ PNG_SIGNATURE !! N.to_nat i)
                     then Throw (InvalidPngSignature index i)
                     else Ok (Continue tt))).
  2:{ intros i _ Hi. change (len PNG_SIGNATURE) with 8 in Hi.
      by rewrite at_index_app_l by lia. }
  destruct (for_range 0 (len PNG_SIGNATURE) _ tt) as [[]|e];
    cbn [mbind result_bind]; [|done].
  rewrite !readUInt32BE_in_bounds by (rewrite ?len_app; lia).
  cbn [mbind result_bind].
  rewrite !uint32BE_app_l, toString_ascii_app_l by lia.
  repeat (case_decide; [done|]).
  cbn [width height size]. by rewrite len_app.
Qed.

Lemma validateAndExtractPngInfo_reads_24_bytes_witness :
  validateAndExtractPngInfo (VBuffer (png_head 16 32 ++ [xff; x00; xff])) 1
  = match validateAndExtractPngInfo (VBuffer (png_head 16 32)) 1 with
    | Ok info =>
        Ok {| buffer := png_head 16 32 ++ [xff; x00; xff];
              width := width info; height := height info;
              size := size info + len [xff; x00; xff] |}
    | Throw e => Throw e
    end.
Proof.
  apply (validateAndExtractPngInfo_reads_24_bytes (png_head 16 32)
           [xff; x00; xff] 1).
  vm_compute. discriminate.
Defined.

(** X10.  Which error the validation raises: the checks are made in the
    order type, length, signature, IHDR length, chunk type, zero dimension,
    oversized dimension, and the error is that of the first check that
    fails, with the value that failed it; for the signature it names the
    first byte that differs. *)
Theorem validateAndExtractPngInfo_first_failure (index : N) :
  (∀ v : value Buffer, (∀ b, v ≠ VBuffer b) →
     validateAndExtractPngInfo v index = Throw (ExpectedBuffer index (typeof v)))
  ∧ ∀ b : Buffer,
      (len b < 24 →
       validateAndExtractPngInfo (VBuffer b) index
       = Throw (PngTooSmall index (len b)))
      ∧ (24 ≤ len b →
         (∀ i, i < 8 →
            (∀ j, j < i → at_index b j = PNG_SIGNATURE !! N.to_nat j) →
            at_index b i ≠ PNG_SIGNATURE !! N.to_nat i →
            validateAndExtractPngInfo (VBuffer b) index
            = Throw (InvalidPngSignature index i))
         ∧ (take 8 b = png_signature_bytes →
            (uint32BE b 8 ≠ 13 →
             validateAndExtractPngInfo (VBuffer b) index
             = Throw (InvalidIhdrLength index (uint32BE b 8)))
            ∧ (uint32BE b 8 = 13 →
               (toString_ascii b 12 16 ≠ "IHDR" →
                validateAndExtractPngInfo (VBuffer b) index
                = Throw (ExpectedIhdr index (toString_ascii b 12 16)))
               ∧ (toString_ascii b 12 16 = "IHDR" →
                  (uint32BE b 16 = 0 ∨ uint32BE b 20 = 0 →
                   validateAndExtractPngInfo (VBuffer b) index
                   = Throw (InvalidDimensions index (uint32BE b 16)
                              (uint32BE b 20)))
                  ∧ (uint32BE b 16 ≠ 0 → uint32BE b 20 ≠ 0 →
                     256 < uint32BE b 16 ∨ 256 < uint32BE b 20 →
                     validateAndExtractPngInfo (VBuffer b) index
                     = Throw (DimensionsTooLarge index (uint32BE b 16)
                                (uint32BE b 20))))))).
Proof.
  split.
  { intros [b|items|ty] Hv; [by destruct (Hv b) | done | done]. }
  intros b. split.
  { intros Hlen. unfold validateAndExtractPngInfo. by rewrite decide_True. }
  intros Hlen. split.
  { intros i Hi Hfirst Hdiff. unfold validateAndExtractPngInfo.
    rewrite decide_False by lia.
    rewrite (for_range_check_first
               (λ i, at_index b i ≠ PNG_SIGNATURE !! N.to_nat i)
               (InvalidPngSignature index) 0 (len PNG_SIGNATURE) i);
      [done | change (len PNG_SIGNATURE) with 8; lia | | done].
    intros j Hj Hne. apply Hne, Hfirst. lia. }
  intros Hsig. unfold validateAndExtractPngInfo.
  rewrite decide_False by lia.
  destruct (for_range_check (λ i, at_index b i ≠ PNG_SIGNATURE !! N.to_nat i)
              (InvalidPngSignature index) 0 (len PNG_SIGNATURE))
    as [[_ ->]|(i & Hrange & Hi & _)]; cbn [mbind result_bind].
  2:{ by destruct (proj2 (signature_bytes_iff b) Hsig i Hrange). }
  rewrite !readUInt32BE_in_bounds by lia. cbn [mbind result_bind].
  unfold MAX_DIMENSION.
  split; [intros H8; by rewrite decide_True|].
  intros H8. rewrite (decide_False (P := uint32BE b 8 ≠ 13)) by tauto.
  split; [intros Hty; by rewrite decide_True|].
  intros Hty.
  rewrite (decide_False (P := toString_ascii b 12 16 ≠ "IHDR")) by tauto.
  split; [intros H0; by rewrite decide_True|].
  intros Hw Hh Hmax.
  rewrite decide_False by tauto. by rewrite decide_True.
Qed.

(** The fourth byte of the signature is wrong, and so is the chunk type:
    the error is about byte 3. *)
Example validateAndExtractPngInfo_names_first_byte :
  validateAndExtractPngInfo
    (VBuffer ([x89; x50; x4e; x00; x0d; x0a; x1a; x0a]
              ++ [x00; x00; x00; x0d; x00; x00; x00; x00]
              ++ be32 1 ++ be32 1)) 5
  = Throw (InvalidPngSignature 5 3).
Proof. vm_compute. reflexivity. Qed.

(** ** A directory entry for any record *)

(** X11.  [createIcoDirectoryEntry] on any record, validated or not.  It
    returns exactly when the recorded size and the offset fit 32 bits, and
    throws a range error otherwise.  The entry it returns has 16 bytes; its
    size field is the recorded size (the buffer is not consulted), its
    offset field is the offset, and bytes 0 and 1 hold the width and the
    height modulo 256, with 256 itself stored as 0. *)
Theorem createIcoDirectoryEntry_any_record (imageInfo : PngImageInfo)
    (offset : N) :
  (size imageInfo ≤ 4294967295 ∧ offset ≤ 4294967295
   ∧ ∃ entry,
       createIcoDirectoryEntry imageInfo offset = Ok entry
       ∧ len entry = 16
       ∧ at_index entry 0 = Some (dimension_byte (width imageInfo) mod 256)
       ∧ at_index entry 1 = Some (dimension_byte (height imageInfo) mod 256)
       ∧ readUInt32LE entry 8 = Ok (size imageInfo)
       ∧ readUInt32LE entry 12 = Ok offset)
  ∨ ((4294967295 < size imageInfo ∨ 4294967295 < offset)
     ∧ createIcoDirectoryEntry imageInfo offset = Throw RangeError).
Proof.
  destruct (decide (size imageInfo ≤ 4294967295 ∧ offset ≤ 4294967295))
    as [[Hsize Hoffset]|Hover].
  - left. split; [done|]. split; [done|].
    exists (entry_bytes imageInfo offset).
    split; [by apply createIcoDirectoryEntry_fits|].
    split; [apply len_entry_bytes|].
    rewrite !readUInt32LE_in_bounds by (rewrite len_entry_bytes; lia).
    rewrite entry_size_field, entry_offset_field by done.
    rewrite !byte_or_zero_at_index by (rewrite len_entry_bytes; lia).
    by rewrite entry_width_byte, entry_height_byte.
  - right. split; [lia|]. apply createIcoDirectoryEntry_overflow. lia.
Qed.

(** ** The validation against the conditions of the specification *)

Lemma toString_ascii_ihdr (b : Buffer) :
  slice b 12 4 = ihdr_bytes → toString_ascii b 12 16 = "IHDR".
Proof.
  unfold slice, toString_ascii.
  change (N.to_nat 16 - N.to_nat 12)%nat with (N.to_nat 4).
  by intros ->.
Qed.

(** X21.  The validation and the conditions of the specification, the chunk
    type apart.  Every error it throws is one of its own and carries the
    index it was given.  It throws on a value that is not a buffer, on a
    buffer shorter than 24 bytes, on a wrong signature, on an IHDR length
    other than 13 and on a width or height that is 0 or above 256.  It
    returns the buffer with its IHDR width and height and its byte length
    when none of these holds and bytes 12-15 are the four bytes of IHDR.  It
    has no side effect: run on a heap, it leaves the heap and the console as
    they were.  (What it does when bytes 12-15 are other bytes is not stated
    here.) *)
Theorem validateAndExtractPngInfo_conditions (v : value Buffer) (index : N) :
  (∀ e, validateAndExtractPngInfo v index = Throw e →
        validation_index e = Some index)
  ∧ (match v with
     | VBuffer b =>
         len b < 24
         ∨ take 8 b ≠ png_signature_bytes
         ∨ uint32BE b 8 ≠ 13
         ∨ uint32BE b 16 = 0 ∨ 256 < uint32BE b 16
         ∨ uint32BE b 20 = 0 ∨ 256 < uint32BE b 20
     | _ => True
     end →
     ∃ e, validateAndExtractPngInfo v index = Throw e)
  ∧ (∀ b, v = VBuffer b →
       24 ≤ len b →
       take 8 b = png_signature_bytes →
       uint32BE b 8 = 13 →
       slice b 12 4 = ihdr_bytes →
       0 < uint32BE b 16 ≤ 256 →
       0 < uint32BE b 20 ≤ 256 →
       validateAndExtractPngInfo v index
       = Ok {| buffer := b; width := uint32BE b 16; height := uint32BE b 20;
               size := len b |})
  ∧ (∀ (s : Heap.state) (hv : value Heap.ref),
       Heap.allocated (Heap.buffers s) hv →
       Heap.resolve (Heap.buffers s) hv = v →
       ∃ r, Heap.validateAndExtractPngInfo hv index s = (r, s)).
Proof.
  split_and!.
  - intros e He.
    destruct (validateAndExtractPngInfo_cases v index)
      as [(_ & e' & He' & Hidx)|(_ & b & _ & Hb)]; congruence.
  - intros Hcond.
    destruct (validateAndExtractPngInfo_cases v index)
      as [(_ & e & He & _)|(Hok & b & -> & _)]; [by exists e|].
    exfalso. apply Hok. unfold png_rejected. tauto.
  - intros b -> Hlen Hsig H13 Hty Hw Hh.
    apply (validateAndExtractPngInfo_accepts b index).
    unfold png_rejected. rewrite (toString_ascii_ihdr b Hty).
    intros [?|[?|[?|[?|?]]]]; [lia | done | done | done | lia].
  - intros s hv Halloc <-.
    pose proof (heap_validate_run s hv index Halloc) as Hrun.
    destruct (validateAndExtractPngInfo _ index) as [info|e].
    + destruct Hrun as (hinfo & Hrun & _). by eexists.
    + by eexists.
Qed.

(** A 16x32 head with three more bytes is accepted; the same bytes with the
    length field 12 are not. *)
Example validateAndExtractPngInfo_conditions_cases :
  validateAndExtractPngInfo (VBuffer (sample_png 16 32 [x01; x02; x03])) 4
  = Ok {| buffer := sample_png 16 32 [x01; x02; x03]; width := 16;
          height := 32; size := 27 |}
  ∧ validateAndExtractPngInfo
      (VBuffer (png_signature_bytes ++ [x00; x00; x00; x0c] ++ ihdr_bytes
                ++ be32 16 ++ be32 32)) 4
    = Throw (InvalidIhdrLength 4 12).
Proof. split; vm_compute; reflexivity. Qed.

(** ** The validation-free encoder on any batch *)

Lemma signature_words_of_bytes (b : Buffer) :
  take 8 b = png_signature_bytes →
  uint32BE b 0 = 0x89504e47 ∧ uint32BE b 4 = 0x0d0a1a0a.
Proof.
  intros Hsig. rewrite <- (take_drop 8 b), Hsig.
  by rewrite !uint32BE_app_l by (vm_compute; discriminate).
Qed.

Lemma signature_bytes_of_words (b : Buffer) :
  8 ≤ len b → uint32BE b 0 = 0x89504e47 → uint32BE b 4 = 0x0d0a1a0a →
  take 8 b = png_signature_bytes.
Proof.
  intros Hlen H0 H4. apply signature_bytes_iff.
  change (len PNG_SIGNATURE) with 8. intros i Hi Hne. apply Hne. clear Hne.
  rewrite byte_or_zero_at_index by lia.
  unfold uint32BE in H0, H4. cbn [N.add] in H0, H4.
  pose proof (byte_or_zero_lt b 0). pose proof (byte_or_zero_lt b 1).
  pose proof (byte_or_zero_lt b 2). pose proof (byte_or_zero_lt b 3).
  pose proof (byte_or_zero_lt b 4). pose proof (byte_or_zero_lt b 5).
  pose proof (byte_or_zero_lt b 6). pose proof (byte_or_zero_lt b 7).
  change (4 + 1) with 5 in H4. change (4 + 2) with 6 in H4.
  change (4 + 3) with 7 in H4.
  assert (i = 0 ∨ i = 1 ∨ i = 2 ∨ i = 3 ∨ i = 4 ∨ i = 5 ∨ i = 6 ∨ i = 7)
    as Hcases by lia.
  rewrite ?N.add_0_l in H0.
  destruct Hcases as [->|[->|[->|[->|[->|[->|[->| ->]]]]]]];
    match goal with
    | |- _ = ?r => let r' := eval vm_compute in r in change r with r'
    end;
    f_equal; lia.
Qed.

Lemma legacy_writeEntry_readable (b pre post : Buffer) (offset i : N) :
  legacy_readable b → len pre = i * 16 →
  Legacy.writeEntry b i (pre ++ alloc 16 ++ post, offset)
  = if decide (len b ≤ 4294967295 ∧ offset ≤ 4294967295)
    then Ok (pre ++ entry_bytes (info_of b) offset ++ post, offset + len b)
    else Throw RangeError.
Proof.
  intros [Hlen Hsig] Hpre. unfold Legacy.writeEntry.
  destruct (signature_words_of_bytes b Hsig) as [Hs0 Hs4].
  rewrite !readUInt32BE_in_bounds by lia. cbn [mbind result_bind].
  rewrite Hs0, Hs4. rewrite decide_False by (intros H; by apply H).
  rewrite decide_False by (intros H; by apply H).
  destruct (decide (len b ≤ 4294967295 ∧ offset ≤ 4294967295)) as [Hfit|Hfit].
  - pose proof (legacy_entry_writes pre post (info_of b) offset i Hpre
                  (proj1 Hfit) (proj2 Hfit)) as Hw.
    cbv zeta in Hw. cbn [info_of width height size] in Hw.
    unfold dimension_byte, MAX_DIMENSION in Hw.
    destruct (writeUInt16LE _ 1 (i * 16 + 4)) as [d5|];
      cbn [mbind result_bind] in Hw |- *; [|congruence].
    destruct (writeUInt16LE d5 32 (i * 16 + 6)) as [d6|];
      cbn [mbind result_bind] in Hw |- *; [|congruence].
    destruct (writeUInt32LE d6 (len b) (i * 16 + 8)) as [d7|];
      cbn [mbind result_bind] in Hw |- *; [|congruence].
    by rewrite Hw.
  - pose proof (legacy_entry_overflow pre post (info_of b) offset i Hpre) as Hw.
    cbv zeta in Hw. cbn [info_of width height size] in Hw.
    unfold dimension_byte, MAX_DIMENSION in Hw.
    specialize (Hw ltac:(lia)).
    destruct (writeUInt16LE _ 1 (i * 16 + 4)) as [d5|];
      cbn [mbind result_bind] in Hw |- *; [|congruence].
    destruct (writeUInt16LE d5 32 (i * 16 + 6)) as [d6|];
      cbn [mbind result_bind] in Hw |- *; [|congruence].
    destruct (writeUInt32LE d6 (len b) (i * 16 + 8)) as [d7|];
      cbn [mbind result_bind] in Hw |- *; [|congruence].
    by rewrite Hw.
Qed.

Lemma readUInt32BE_out_of_bounds (b : Buffer) (offset : N) :
  len b < offset + 4 → readUInt32BE b offset = Throw RangeError.
Proof.
  intros H. unfold readUInt32BE, in_bounds. by rewrite decide_False by lia.
Qed.

(** On a buffer that is too short or has another signature the callback
    throws before it writes: the invalid-file error after a signature word
    that differs, a range error when a read goes past the end. *)
Lemma legacy_writeEntry_unreadable (b : Buffer) (i : N) (st : Buffer * N) :
  ¬ legacy_readable b →
  ∃ e, Legacy.writeEntry b i st = Throw e
       ∧ (e = InvalidPngFile ∨ e = RangeError).
Proof.
  intros Hbad. destruct st as [dirEntries offset]. unfold Legacy.writeEntry.
  destruct (decide (4 ≤ len b)) as [Hb0|Hb0];
    [|rewrite (readUInt32BE_out_of_bounds b 0) by lia; eauto].
  rewrite (readUInt32BE_in_bounds b 0) by lia. cbn [mbind result_bind].
  destruct (decide (uint32BE b 0 ≠ 2303741511)) as [|Hs0]; [eauto|].
  destruct (decide (8 ≤ len b)) as [Hb4|Hb4];
    [|rewrite (readUInt32BE_out_of_bounds b 4) by lia; eauto].
  rewrite (readUInt32BE_in_bounds b 4) by lia. cbn [mbind result_bind].
  destruct (decide (uint32BE b 4 ≠ 218765834)) as [|Hs4]; [eauto|].
  destruct (decide (20 ≤ len b)) as [Hb16|Hb16];
    [|rewrite (readUInt32BE_out_of_bounds b 16) by lia; eauto].
  rewrite (readUInt32BE_in_bounds b 16) by lia. cbn [mbind result_bind].
  destruct (decide (24 ≤ len b)) as [Hb20|Hb20];
    [|rewrite (readUInt32BE_out_of_bounds b 20) by lia; eauto].
  exfalso. apply Hbad. split; [lia|].
  apply signature_bytes_of_words;
    [lia
    |by destruct (decide (uint32BE b 0 = 2303741511))
    |by destruct (decide (uint32BE b 4 = 218765834))].
Qed.

Lemma legacy_forEach_outcome (rest : list Buffer) (pre : Buffer) (offset i : N) :
  len pre = i * 16 →
  (Forall legacy_readable rest ∧ directory_fits (info_of <$> rest) offset →
   Legacy.forEach rest i Legacy.writeEntry (pre ++ alloc (16 * len rest), offset)
   = Ok (pre ++ directory_bytes (info_of <$> rest) offset,
         offset + total_length rest))
  ∧ (¬ (Forall legacy_readable rest ∧ directory_fits (info_of <$> rest) offset) →
     ∃ e, Legacy.forEach rest i Legacy.writeEntry
            (pre ++ alloc (16 * len rest), offset) = Throw e
          ∧ (e = InvalidPngFile ∨ e = RangeError)).
Proof.
  revert pre offset i.
  induction rest as [|b rest IH]; intros pre offset i Hpre.
  - split.
    + intros _. cbn. by rewrite N.add_0_r.
    + intros H. destruct H. split; [constructor | done].
  - cbn [Legacy.forEach].
    replace (16 * len (b :: rest)) with (16 + 16 * len rest)
      by (rewrite len_cons; lia).
    rewrite alloc_add, fmap_cons.
    cbn [directory_fits directory_bytes info_of size].
    destruct (decide (legacy_readable b)) as [Hb|Hb].
    2:{ split; [intros [Hall _]; by apply Forall_inv in Hall|]. intros _.
        destruct (legacy_writeEntry_unreadable b i
                    (pre ++ alloc 16 ++ alloc (16 * len rest), offset) Hb)
          as (e & -> & He).
        by exists e. }
    rewrite legacy_writeEntry_readable by done.
    destruct (decide (len b ≤ 4294967295 ∧ offset ≤ 4294967295))
      as [[Hs Ho]|Hover]; cbn [mbind result_bind].
    2:{ split; [intros [_ ?]; tauto|]. intros _. exists RangeError. auto. }
    rewrite (app_assoc pre).
    destruct (IH (pre ++ entry_bytes (info_of b) offset) (offset + len b)
                (N.succ i)) as [IHok IHfail].
    { rewrite len_app, len_entry_bytes, Hpre. lia. }
    split.
    + intros [Hall (_ & _ & Hfit)]. apply Forall_inv_tail in Hall.
      rewrite IHok by done. rewrite <- app_assoc. do 2 f_equal.
      cbn [total_length foldr]. unfold total_length. lia.
    + intros Hnot. apply IHfail. intros [Hall Hfit]. apply Hnot.
      split; [by constructor | done].
Qed.

Lemma legacy_encodeIco_run (pngBuffers : list Buffer) :
  (len pngBuffers ≤ 65535
   ∧ Forall legacy_readable pngBuffers
   ∧ directory_fits (info_of <$> pngBuffers) (6 + 16 * len pngBuffers) →
   Legacy.encodeIco pngBuffers = Ok (ico_bytes pngBuffers))
  ∧ (¬ (len pngBuffers ≤ 65535
        ∧ Forall legacy_readable pngBuffers
        ∧ directory_fits (info_of <$> pngBuffers) (6 + 16 * len pngBuffers)) →
     ∃ e, Legacy.encodeIco pngBuffers = Throw e
          ∧ (e = InvalidPngFile ∨ e = RangeError)).
Proof.
  unfold Legacy.encodeIco.
  rewrite writeUInt16LE_in_bounds by (rewrite ?len_alloc; done).
  cbn [mbind result_bind].
  rewrite writeUInt16LE_in_bounds by (len_simpl; done).
  cbn [mbind result_bind].
  destruct (decide (len pngBuffers ≤ 65535)) as [Hcount|Hcount].
  2:{ unfold writeUInt16LE. rewrite !decide_False by tauto.
      cbn [mbind result_bind]. split; [tauto | eauto]. }
  rewrite writeUInt16LE_in_bounds by (len_simpl; lia).
  cbn [mbind result_bind].
  rewrite !len_set_index, !len_alloc.
  destruct (legacy_forEach_outcome pngBuffers [] (6 + 16 * len pngBuffers) 0
              eq_refl) as [Hok Hfail].
  cbn [app] in Hok, Hfail. split.
  - intros (_ & Hall & Hfit). by rewrite Hok.
  - intros Hbad. destruct Hfail as (e & -> & He); [tauto|].
    cbn [mbind result_bind]. eauto.
Qed.

(** X12.  Every outcome of the validation-free [encodeIco].  It returns
    exactly when there are at most 65535 buffers, each of at least 24 bytes
    and starting with the PNG signature, and every length and payload offset
    fits 32 bits; the document then has the layout of the validating
    encoder, whatever the IHDR fields hold.  Otherwise it throws its
    invalid-file error or a range error of Node: it never checks the count
    against 1 and 256, the IHDR chunk or the dimensions. *)
Theorem legacy_encodeIco_outcome (pngBuffers : list Buffer) :
  match Legacy.encodeIco pngBuffers with
  | Ok out =>
      len pngBuffers ≤ 65535
      ∧ Forall legacy_readable pngBuffers
      ∧ (∀ i b, pngBuffers !! i = Some b →
           len b ≤ 4294967295 ∧ payload_offset pngBuffers i ≤ 4294967295)
      ∧ out = ico_bytes pngBuffers
  | Throw e =>
      (e = InvalidPngFile ∨ e = RangeError)
      ∧ ¬ (len pngBuffers ≤ 65535
           ∧ Forall legacy_readable pngBuffers
           ∧ ∀ i b, pngBuffers !! i = Some b →
               len b ≤ 4294967295 ∧ payload_offset pngBuffers i ≤ 4294967295)
  end.
Proof.
  destruct (legacy_encodeIco_run pngBuffers) as [Hok Hfail].
  destruct (decide (len pngBuffers ≤ 65535
                    ∧ Forall legacy_readable pngBuffers
                    ∧ directory_fits (info_of <$> pngBuffers)
                        (6 + 16 * len pngBuffers))) as [Hgood|Hbad].
  - rewrite Hok by done. destruct Hgood as (Hcount & Hall & Hfit).
    split_and!; [done | done | by apply directory_fits_pointwise | done].
  - destruct (Hfail Hbad) as (e & -> & He).
    split; [done|]. intros (Hcount & Hall & Hfit). apply Hbad.
    split_and!; [done | done | by apply directory_fits_pointwise].
Qed.

(** The validation-free encoder returns a header for no image at all, and
    throws a range error, not its own error, for a buffer cut short. *)
Example legacy_encodeIco_edge_cases :
  Legacy.encodeIco [] = Ok [x00; x00; x01; x00; x00; x00]
  ∧ Legacy.encodeIco [png_signature_bytes] = Throw RangeError
  ∧ Legacy.encodeIco [alloc 24] = Throw InvalidPngFile.
Proof. by vm_compute. Qed.

Lemma legacy_encodeIco_Ok_inv (pngBuffers : list Buffer) (out : Buffer) :
  Legacy.encodeIco pngBuffers = Ok out →
  len pngBuffers ≤ 65535
  ∧ directory_fits (info_of <$> pngBuffers) (6 + 16 * len pngBuffers)
  ∧ out = ico_bytes pngBuffers.
Proof.
  intros Henc. destruct (legacy_encodeIco_run pngBuffers) as [Hok Hfail].
  destruct (decide (len pngBuffers ≤ 65535
                    ∧ Forall legacy_readable pngBuffers
                    ∧ directory_fits (info_of <$> pngBuffers)
                        (6 + 16 * len pngBuffers))) as [Hgood|Hbad].
  - rewrite Hok in Henc by done. injection Henc as <-. tauto.
  - destruct (Hfail Hbad) as (e & He & _). congruence.
Qed.

(** X13.  A document of the validation-free [encodeIco] is a valid ICO file
    for [isValidIco] exactly when it was made from between 1 and 256
    buffers: the header written for an empty batch, or for more than 256
    images, is one the inspector of the same module refuses. *)
Theorem legacy_encodeIco_validity (pngBuffers : list Buffer) (out : Buffer) :
  Legacy.encodeIco pngBuffers = Ok out →
  isValidIco (VBuffer out) = Ok (bool_decide (1 ≤ len pngBuffers ≤ 256)).
Proof.
  intros (Hcount & _ & ->)%legacy_encodeIco_Ok_inv.
  rewrite isValidIco_decides. f_equal. apply bool_decide_ext.
  unfold valid_header. rewrite len_ico_bytes.
  unfold ico_bytes. rewrite !uint16LE_app_l by (rewrite len_header_bytes; lia).
  rewrite header_count_field by done.
  change (uint16LE (header_bytes (len pngBuffers)) 0) with 0.
  change (uint16LE (header_bytes (len pngBuffers)) 2) with 1.
  intuition lia.
Qed.

Lemma legacy_encodeIco_validity_witness :
  isValidIco (VBuffer [x00; x00; x01; x00; x00; x00])
  = Ok (bool_decide (1 ≤ len (@nil Buffer) ≤ 256)).
Proof.
  apply (legacy_encodeIco_validity [] [x00; x00; x01; x00; x00; x00]).
  vm_compute. reflexivity.
Defined.

Lemma dimension_byte_mod (d : N) : dimension_byte d mod 256 = d mod 256.
Proof. unfold dimension_byte, MAX_DIMENSION. by case_decide as H; [rewrite H|]. Qed.

Lemma entry_at_ico_bytes_any (bufs : list Buffer) (i : nat) (b : Buffer) :
  bufs !! i = Some b → len b ≤ 4294967295 →
  entry_at (ico_bytes bufs) (N.of_nat i)
  = {| entry_width := reported_dimension (uint32BE b 16);
       entry_height := reported_dimension (uint32BE b 20);
       entry_size := len b |}.
Proof.
  intros Hi Hsize.
  destruct (ico_bytes_entry bufs i b Hi) as (pre & post & -> & Hpre).
  set (e := entry_bytes (info_of b) (payload_offset bufs i)).
  assert (byte_or_zero (pre ++ e ++ post) (len pre) = byte_or_zero e 0) as H0.
  { rewrite <- (byte_or_zero_window pre e post 0) by done. f_equal. lia. }
  unfold entry_at. rewrite <- Hpre, H0.
  rewrite uint32LE_window, byte_or_zero_window by done.
  unfold e. rewrite entry_width_byte, entry_height_byte, entry_size_field by done.
  cbn [info_of width height size].
  by rewrite !dimension_byte_mod.
Qed.

(** X14.  What [getIcoInfo] reports of a document of the validation-free
    [encodeIco] made from between 1 and 256 buffers: the count, the type
    ICO, and for each buffer its byte length and its IHDR width and height
    reduced modulo 256, with a multiple of 256 (0 included) reported as
    256.  Dimensions above 256, which this encoder accepts, do not survive
    the round trip. *)
Theorem legacy_encodeIco_getIcoInfo (pngBuffers : list Buffer) (out : Buffer) :
  Legacy.encodeIco pngBuffers = Ok out →
  1 ≤ len pngBuffers ≤ 256 →
  getIcoInfo (VBuffer out)
  = Ok {| imageCount := len pngBuffers;
          type := ICO;
          images :=
            (λ b, {| entry_width := reported_dimension (uint32BE b 16);
                     entry_height := reported_dimension (uint32BE b 20);
                     entry_size := len b |}) <$> pngBuffers |}.
Proof.
  intros (_ & Hfit & ->)%legacy_encodeIco_Ok_inv Hlen.
  rewrite getIcoInfo_complete;
    [|by apply ico_bytes_valid_header
     |rewrite ico_bytes_count, len_ico_bytes by lia; lia].
  rewrite ico_bytes_count, ico_bytes_type by lia.
  rewrite decide_True by done. do 2 f_equal.
  apply list_eq. intros j. rewrite !list_lookup_fmap.
  destruct (pngBuffers !! j) as [b|] eqn:Hj.
  - rewrite lookup_indices
      by (apply lookup_lt_Some in Hj; unfold len; lia).
    cbn [fmap option_fmap option_map]. rewrite N.add_0_l. f_equal.
    apply entry_at_ico_bytes_any; [done|].
    by apply (proj1 (directory_fits_pointwise pngBuffers
                       (6 + 16 * len pngBuffers)) Hfit j b).
  - rewrite lookup_ge_None_2; [done|].
    rewrite length_indices. apply lookup_ge_None_1 in Hj. unfold len. lia.
Qed.

Lemma legacy_encodeIco_getIcoInfo_witness :
  getIcoInfo (VBuffer (ico_bytes [sample_png 300 512 [x08]; sample_png 0 16 []]))
  = Ok {| imageCount := len [sample_png 300 512 [x08]; sample_png 0 16 []];
          type := ICO;
          images :=
            (λ b, {| entry_width := reported_dimension (uint32BE b 16);
                     entry_height := reported_dimension (uint32BE b 20);
                     entry_size := len b |})
              <$> [sample_png 300 512 [x08]; sample_png 0 16 []] |}.
Proof.
  apply (legacy_encodeIco_getIcoInfo
           [sample_png 300 512 [x08]; sample_png 0 16 []]).
  - vm_compute. reflexivity.
  - vm_compute. split; discriminate.
Defined.

(** * The generator: writing favicon.ico *)

Lemma encodeIco_valid_document (bufs : list Buffer) (doc : Buffer) :
  encodeIco (VArray (VBuffer <$> bufs)) = Ok doc →
  isValidIco (VBuffer doc) = Ok true
  ∧ getIcoInfo (VBuffer doc)
    = Ok {| imageCount := len bufs; type := ICO; images := entry_of <$> bufs |}.
Proof.
  intros (bufs' & Heq & Hacc & ->)%encodeIco_Ok_inv.
  injection Heq as Heq. apply (inj (fmap VBuffer)) in Heq. subst bufs'.
  split; [|by apply getIcoInfo_ico_bytes].
  rewrite isValidIco_decides. f_equal. apply bool_decide_eq_true_2.
  apply ico_bytes_valid_header. by destruct Hacc.
Qed.

(** Symbolic execution of a generator program: unfold the program, and
    split on whatever the environment answers and on the options. *)
Ltac cli_step :=
  first
    [ progress cbn -[encodeIco isValidIco getIcoInfo Cli.yellow Cli.cyan
                     Cli.green String.prefix]
    | match goal with
      | |- context [decide (?p = "")] => destruct (decide (p = ""))
      | |- context [match encodeIco ?v with _ => _ end] =>
          destruct (encodeIco v) eqn:?
      | |- context [if Cli.dryRun ?o then _ else _] =>
          destruct (Cli.dryRun o) eqn:?
      | |- context [if Cli.yes ?o then _ else _] =>
          destruct (Cli.yes o) eqn:?
      | |- context [if String.prefix ?x ?y then _ else _] =>
          destruct (String.prefix x y) eqn:?
      | |- context [negb (String.prefix ?x ?y)] =>
          destruct (String.prefix x y) eqn:?
      | |- context [match ?answer (Cli.outcome ?A) ?h ?a with _ => _ end] =>
          destruct (answer (Cli.outcome A) h a) eqn:?
      end ].

Ltac cli_exec :=
  unfold Cli.generateIco, Cli.and_then, Cli.pathExists, Cli.confirmOverwrite,
    Cli.askQuestion, Cli.writeFileSafe, Cli.perform, Cli.await, Cli.call;
  repeat cli_step.

Section GeneratorProperties.

Context (isColorSupported : bool) (options : Cli.Opts).
Context (path_join : string → string → string).
Context (trim toLowerCase : string → string).
Context (answer : ∀ R, list Cli.event → Cli.action R → R).

Abbreviation generateIco :=
  (Cli.generateIco isColorSupported options path_join trim toLowerCase).
Abbreviation icoPath := (path_join (Cli.output options) "favicon.ico").

(** X15.  What [generateIco] writes.  Whatever the file system and the user
    answer, a call performs at most one [fsp.writeFile], and only of a
    document that [encodeIco] returned for the buffers it was given, to
    [favicon.ico] in the output directory; in a dry run it writes nothing.
    A document it writes is a valid ICO file of which [getIcoInfo] reports
    one image per buffer.  It asks at most one question, and none under
    [--yes]. *)
Theorem generateIco_writes (buffers : list Buffer) (history : list Cli.event) :
  ∃ new result,
    Cli.run answer (generateIco buffers) history = (history ++ new, result)
    ∧ (Cli.writes new = []
       ∨ (Cli.dryRun options = false
          ∧ ∃ doc,
              encodeIco (VArray (VBuffer <$> buffers)) = Ok doc
              ∧ Cli.writes new = [(icoPath, Cli.Bytes doc)]
              ∧ isValidIco (VBuffer doc) = Ok true
              ∧ ∃ info, getIcoInfo (VBuffer doc) = Ok info
                        ∧ imageCount info = len buffers
                        ∧ length (images info) = length buffers))
    ∧ (length (Cli.questions new) ≤ 1)%nat
    ∧ (Cli.yes options = true → Cli.questions new = []).
Proof.
  cli_exec;
    (eexists _, _; split; [rewrite <- ?app_assoc; reflexivity|]);
    cbn -[isValidIco getIcoInfo];
    (split; [|split; [lia|]]); try (by left); try done.
  all: right; split; [done|]; eexists; split; [done|]; split; [done|].
  all: match goal with
       | H : encodeIco _ = Ok _ |- _ =>
           destruct (encodeIco_valid_document _ _ H) as [Hvalid Hinfo]
       end.
  all: split; [done|]; eexists; split; [done|]; cbn; by rewrite length_fmap.
Qed.

(** X16.  How [generateIco] ends.  It resolves either after skipping (the
    file exists, [--yes] is not given and the reply does not start with y),
    with nothing written, or after generating, and then [encodeIco] returned
    a document, which was written unless this is a dry run.  It rejects only
    with the error [encodeIco] threw, nothing being written, or with the
    rejection of the one write it attempted. *)
Theorem generateIco_outcome (buffers : list Buffer) (history : list Cli.event) :
  ∃ new result,
    Cli.run answer (generateIco buffers) history = (history ++ new, result)
    ∧ match result with
      | Cli.Resolved _ =>
          (Cli.yes options = false
           ∧ Cli.logs new
             = [Cli.yellow isColorSupported "⚠ Skipped favicon.ico"]
           ∧ Cli.writes new = [])
          ∨ (∃ doc,
               encodeIco (VArray (VBuffer <$> buffers)) = Ok doc
               ∧ last (Cli.logs new)
                 = Some (Cli.green isColorSupported "✔ Generated favicon.ico")
               ∧ Cli.writes new
                 = if Cli.dryRun options then []
                   else [(icoPath, Cli.Bytes doc)])
      | Cli.Rejected f =>
          (∃ e, f = Cli.Thrown e
                ∧ encodeIco (VArray (VBuffer <$> buffers)) = Throw e
                ∧ Cli.writes new = [])
          ∨ (∃ doc,
               encodeIco (VArray (VBuffer <$> buffers)) = Ok doc
               ∧ Cli.dryRun options = false
               ∧ Cli.writes new = [(icoPath, Cli.Bytes doc)]
               ∧ last new
                 = Some (Cli.Event (Cli.FsWriteFile icoPath (Cli.Bytes doc))
                           (Cli.Rejected f)))
      end.
Proof.
  cli_exec;
    (eexists _, _; split; [rewrite <- ?app_assoc; reflexivity|]);
    cbn -[Cli.yellow Cli.cyan Cli.green];
    first [ by left; eauto
          | right; eexists; split; [done|]; by rewrite ?Heqb ].
Qed.

(** X17.  Declining the overwrite.  When [favicon.ico] exists, [--yes] is
    not given and the reply to the question does not start with y once
    trimmed and lower-cased, [generateIco] resolves after printing that it
    skipped the file: it writes nothing and does not call [encodeIco], so it
    resolves even for buffers that [encodeIco] would refuse. *)
Theorem generateIco_declined (buffers : list Buffer)
    (history : list Cli.event) (stats : Cli.Stats) (reply : string) :
  icoPath ≠ "" →
  Cli.yes options = false →
  answer _ history (Cli.FsStat icoPath) = Cli.Resolved stats →
  answer _ (history ++ [Cli.Event (Cli.FsStat icoPath) (Cli.Resolved stats)])
    (Cli.Question (Cli.cyan isColorSupported
                     (icoPath +:+ " exists. Overwrite? (y/n): ")))
  = reply →
  String.prefix "y" (toLowerCase (trim reply)) = false →
  ∃ new,
    Cli.run answer (generateIco buffers) history = (history ++ new, Cli.Resolved tt)
    ∧ Cli.writes new = []
    ∧ Cli.logs new = [Cli.yellow isColorSupported "⚠ Skipped favicon.ico"].
Proof.
  intros Hpath Hyes Hstat Hreply Hno.
  unfold Cli.generateIco, Cli.and_then, Cli.pathExists, Cli.confirmOverwrite,
    Cli.askQuestion, Cli.writeFileSafe, Cli.perform, Cli.await, Cli.call.
  rewrite decide_False, Hyes by done.
  cbn -[encodeIco Cli.yellow Cli.cyan Cli.green String.prefix].
  rewrite Hstat.
  cbn -[encodeIco Cli.yellow Cli.cyan Cli.green String.prefix].
  rewrite Hreply, Hno.
  cbn -[encodeIco Cli.yellow Cli.cyan Cli.green String.prefix].
  rewrite <- !app_assoc.
  match goal with
  | |- context [Cli.Resolved (answer unit ?h ?a)] =>
      destruct (answer unit h a)
  end.
  eexists. split; [reflexivity|]. done.
Qed.

End GeneratorProperties.

Lemma generateIco_declined_witness :
  ∃ new,
    Cli.run (Cli.sample_answer " No")
      (Cli.generateIco false (Cli.sample_options false false)
         (λ dir file, dir +:+ "/" +:+ file) id id []) []
    = ([] ++ new, Cli.Resolved tt)
    ∧ Cli.writes new = []
    ∧ Cli.logs new = [Cli.yellow false "⚠ Skipped favicon.ico"].
Proof.
  apply (generateIco_declined false (Cli.sample_options false false)
           (λ dir file, dir +:+ "/" +:+ file) id id
           (Cli.sample_answer " No") [] []
           {| Cli.isFile := true; Cli.isDirectory := false;
              Cli.stats_size := 0 |} " No").
  - discriminate.
  - reflexivity.
  - reflexivity.
  - reflexivity.
  - reflexivity.
Defined.

(** A run that overwrites: the file exists, the user agrees, and the
    document of one 16x16 image is written between the two messages. *)
Example generateIco_overwrites :
  Cli.run (Cli.sample_answer "Yes")
    (Cli.generateIco false (Cli.sample_options false false)
       (λ dir file, dir +:+ "/" +:+ file) id
       (λ s, if decide (s = "Yes") then "yes" else s)
       [sample_png 16 16 [x08]]) []
  = ([Cli.Event (Cli.FsStat "icons/favicon.ico")
        (Cli.Resolved {| Cli.isFile := true; Cli.isDirectory := false;
                         Cli.stats_size := 0 |});
      Cli.Event
        (Cli.Question "icons/favicon.ico exists. Overwrite? (y/n): ") "Yes";
      Cli.Event (Cli.ConsoleLog "⏳ Generating favicon.ico...") tt;
      Cli.Event
        (Cli.FsWriteFile "icons/favicon.ico"
           (Cli.Bytes (ico_bytes [sample_png 16 16 [x08]])))
        (Cli.Resolved tt);
      Cli.Event (Cli.ConsoleLog "✔ Generated favicon.ico") tt],
     Cli.Resolved tt).
Proof. vm_compute. reflexivity. Qed.

(** ** The theme colour *)

Lemma padStart_toString16 (x : byte) :
  Cli.padStart (Cli.toString16 (Byte.to_N x)) 2 "0" = Cli.hex_pair x.
Proof. destruct x; vm_compute; reflexivity. Qed.

Lemma formatThemeColor_bytes (r g b : byte) :
  Cli.formatThemeColor (Byte.to_N r) (Byte.to_N g) (Byte.to_N b)
  = "#" +:+ Cli.hex_pair r +:+ Cli.hex_pair g +:+ Cli.hex_pair b.
Proof.
  unfold Cli.formatThemeColor. cbn [fmap list_fmap].
  by rewrite !padStart_toString16.
Qed.

Section ThemeColor.

Context (options : Cli.Opts).
Context (answer : ∀ R, list Cli.event → Cli.action R → R).

(** X18.  The colour [detectThemeColor] computes.  With nothing cached it
    asks for the raw 1x1 pixel once.  From pixel data of at least three
    bytes it resolves to a string of seven characters, [#] followed by the
    two lower-case hexadecimal digits of each of the first three bytes, high
    digit first and padded with 0, and caches it; a fourth byte (alpha) is
    ignored.  From fewer than three bytes it rejects with a type error. *)
Theorem detectThemeColor_format (history : list Cli.event) (data : Buffer) :
  answer _ history (Cli.SharpRaw (Cli.input options) 1 1) = Cli.Resolved data →
  ∃ result,
    Cli.run answer (Cli.detectThemeColor options None) history
    = (history ++ [Cli.Event (Cli.SharpRaw (Cli.input options) 1 1)
                     (Cli.Resolved data)],
       result)
    ∧ match data with
      | r :: g :: b :: _ =>
          let color := "#" +:+ Cli.hex_pair r +:+ Cli.hex_pair g
                       +:+ Cli.hex_pair b in
          result = Cli.Resolved (color, Some color)
          ∧ String.length color = 7%nat
      | _ => result = Cli.Rejected (Cli.Thrown TypeError)
      end.
Proof.
  intros Hdata. unfold Cli.detectThemeColor, Cli.await.
  cbn -[Cli.formatThemeColor]. rewrite Hdata.
  destruct data as [|r [|g [|b rest]]]; cbn -[Cli.formatThemeColor];
    [by eexists..|].
  rewrite formatThemeColor_bytes. by eexists.
Qed.

(** X19.  The colour is detected once.  After a call of [detectThemeColor]
    that resolved, a call with the cache it left performs no action and
    resolves to the same colour, whatever the environment would answer
    now. *)
Theorem detectThemeColor_cached (cache cache' : option string)
    (history history' : list Cli.event) (color : string)
    (answer' : ∀ R, list Cli.event → Cli.action R → R)
    (later : list Cli.event) :
  Cli.run answer (Cli.detectThemeColor options cache) history
  = (history', Cli.Resolved (color, cache')) →
  Cli.run answer' (Cli.detectThemeColor options cache') later
  = (later, Cli.Resolved (color, cache')).
Proof.
  assert (∀ data : Buffer,
            Cli.run answer
              (match Byte.to_N <$> data with
               | r :: g :: b :: _ =>
                   Cli.Ret (Cli.formatThemeColor r g b,
                            Some (Cli.formatThemeColor r g b))
               | _ => Cli.Reject (Cli.Thrown TypeError)
               end)
              (history ++ [Cli.Event (Cli.SharpRaw (Cli.input options) 1 1)
                             (Cli.Resolved data)])
            = (history', Cli.Resolved (color, cache')) →
            cache' = Some color ∧ color ≠ "") as Hdetect.
  { intros [|r [|g [|b rest]]]; cbn -[Cli.formatThemeColor]; [done..|].
    intros [= _ <- <-]. by rewrite formatThemeColor_bytes. }
  intros Hrun.
  assert (cache' = Some color ∧ color ≠ "") as [-> Hcolor].
  { unfold Cli.detectThemeColor, Cli.await in Hrun.
    destruct cache as [cached|].
    - destruct (decide (cached ≠ "")) as [Hcached|Hcached].
      + by injection Hrun as _ <- <-.
      + cbn -[Cli.formatThemeColor] in Hrun.
        destruct (answer _ history (Cli.SharpRaw (Cli.input options) 1 1))
          as [data|f]; [by apply (Hdetect data) | done].
    - cbn -[Cli.formatThemeColor] in Hrun.
      destruct (answer _ history (Cli.SharpRaw (Cli.input options) 1 1))
        as [data|f]; [by apply (Hdetect data) | done]. }
  unfold Cli.detectThemeColor. by rewrite decide_True.
Qed.

End ThemeColor.

Lemma detectThemeColor_format_witness :
  ∃ result,
    Cli.run (Cli.sample_answer "y")
      (Cli.detectThemeColor (Cli.sample_options false false) None) []
    = ([] ++ [Cli.Event (Cli.SharpRaw "logo.png" 1 1)
                (Cli.Resolved [x1e; x90; xff; xff])],
       result)
    ∧ result = Cli.Resolved ("#1e90ff", Some "#1e90ff")
    ∧ String.length "#1e90ff" = 7%nat.
Proof.
  apply (detectThemeColor_format (Cli.sample_options false false)
           (Cli.sample_answer "y") [] [x1e; x90; xff; xff]).
  reflexivity.
Defined.

Lemma detectThemeColor_cached_witness :
  Cli.run (Cli.sample_answer "n")
    (Cli.detectThemeColor (Cli.sample_options false false) (Some "#1e90ff"))
    []
  = ([], Cli.Resolved ("#1e90ff", Some "#1e90ff")).
Proof.
  apply (detectThemeColor_cached (Cli.sample_options false false)
           (Cli.sample_answer "y") None (Some "#1e90ff") []
           [Cli.Event (Cli.SharpRaw "logo.png" 1 1)
              (Cli.Resolved [x1e; x90; xff; xff])]
           "#1e90ff" (Cli.sample_answer "n") []).
  reflexivity.
Defined.

(** * The payload area of a document *)

Lemma ico_bytes_fields (bufs : list Buffer) (i : nat) (b : Buffer) :
  accepted bufs → bufs !! i = Some b →
  uint32LE (ico_bytes bufs) (6 + 16 * N.of_nat i + 12) = payload_offset bufs i
  ∧ uint32LE (ico_bytes bufs) (6 + 16 * N.of_nat i + 8) = len b.
Proof.
  intros Hacc Hi.
  destruct (accepted_fits bufs i b Hacc Hi) as [Hsize Hoffset].
  destruct (ico_bytes_entry bufs i b Hi) as (pre & post & -> & Hpre).
  rewrite <- Hpre, !uint32LE_window by done.
  by rewrite entry_offset_field, entry_size_field.
Qed.

Lemma total_length_app (l k : list Buffer) :
  total_length (l ++ k) = total_length l + total_length k.
Proof.
  induction l as [|b l IH]; [done|].
  cbn [app total_length foldr]. fold (total_length (l ++ k)).
  fold (total_length l). lia.
Qed.

Lemma payload_offset_succ (bufs : list Buffer) (i : nat) (b : Buffer) :
  bufs !! i = Some b →
  payload_offset bufs (S i) = payload_offset bufs i + len b.
Proof.
  intros Hi. unfold payload_offset.
  rewrite (take_S_r bufs i b Hi), total_length_app.
  cbn [total_length foldr]. lia.
Qed.

(** X20.  The directory of a document [encodeIco] returns tiles the payload
    area: the first stored offset is the end of the directory,
    [6 + 16 * N]; every later offset is the previous offset plus the
    previous stored size; and the last offset plus the last size is the
    length of the document.  So the payloads are contiguous, in order,
    without gaps or overlaps, and nothing follows the last one. *)
Theorem encodeIco_payloads_tile (bufs : list Buffer) (out : Buffer) :
  encodeIco (VArray (VBuffer <$> bufs)) = Ok out →
  readUInt32LE out (6 + 12) = Ok (6 + 16 * len bufs)
  ∧ (∀ i, (S i < length bufs)%nat →
       ∃ offset stored_size,
         readUInt32LE out (6 + 16 * N.of_nat i + 12) = Ok offset
         ∧ readUInt32LE out (6 + 16 * N.of_nat i + 8) = Ok stored_size
         ∧ readUInt32LE out (6 + 16 * N.of_nat (S i) + 12)
           = Ok (offset + stored_size))
  ∧ ∃ offset stored_size,
      readUInt32LE out (6 + 16 * (len bufs - 1) + 12) = Ok offset
      ∧ readUInt32LE out (6 + 16 * (len bufs - 1) + 8) = Ok stored_size
      ∧ offset + stored_size = len out.
Proof.
  intros (bufs' & Heq & Hacc & ->)%encodeIco_Ok_inv.
  injection Heq as Heq. apply (inj (fmap VBuffer)) in Heq. subst bufs'.
  pose proof Hacc as ([Hmin Hmax] & _ & _).
  assert (∀ k, k + 4 ≤ 6 + 16 * len bufs →
            readUInt32LE (ico_bytes bufs) k = Ok (uint32LE (ico_bytes bufs) k))
    as Hread.
  { intros k Hk. apply readUInt32LE_in_bounds. rewrite len_ico_bytes. lia. }
  split_and!.
  - destruct (lookup_lt_is_Some_2 bufs 0) as [b Hb];
      [unfold len in Hmin; lia|].
    rewrite Hread by lia. f_equal.
    destruct (ico_bytes_fields bufs 0 b Hacc Hb) as [Hoff _].
    change (6 + 16 * N.of_nat 0 + 12) with (6 + 12) in Hoff.
    rewrite Hoff. unfold payload_offset. rewrite take_0.
    change (total_length []) with 0. lia.
  - intros i Hi.
    destruct (lookup_lt_is_Some_2 bufs i) as [b Hb]; [lia|].
    destruct (lookup_lt_is_Some_2 bufs (S i)) as [b' Hb']; [lia|].
    destruct (ico_bytes_fields bufs i b Hacc Hb) as [Hoff Hsize].
    destruct (ico_bytes_fields bufs (S i) b' Hacc Hb') as [Hoff' _].
    exists (payload_offset bufs i), (len b).
    rewrite !Hread by (unfold len; lia).
    rewrite Hoff, Hsize, Hoff'. split_and!; [done | done |].
    f_equal. by apply payload_offset_succ.
  - destruct (lookup_lt_is_Some_2 bufs (length bufs - 1)) as [b Hb];
      [unfold len in Hmin; lia|].
    destruct (ico_bytes_fields bufs (length bufs - 1) b Hacc Hb)
      as [Hoff Hsize].
    replace (N.of_nat (length bufs - 1)) with (len bufs - 1) in Hoff, Hsize
      by (unfold len; lia).
    exists (payload_offset bufs (length bufs - 1)), (len b).
    rewrite !Hread by lia. rewrite Hoff, Hsize.
    split_and!; [done | done |].
    rewrite <- (payload_offset_succ bufs (length bufs - 1) b Hb).
    replace (S (length bufs - 1)) with (length bufs)
      by (unfold len in Hmin; lia).
    unfold payload_offset. rewrite firstn_all, len_ico_bytes. done.
Qed.

Lemma encodeIco_payloads_tile_witness :
  readUInt32LE
    (ico_bytes [sample_png 16 16 [x08]; sample_png 32 32 [x08; x06]]) (6 + 12)
  = Ok (6 + 16 * len [sample_png 16 16 [x08]; sample_png 32 32 [x08; x06]])
  ∧ (∀ i, (S i < length [sample_png 16 16 [x08];
                         sample_png 32 32 [x08; x06]])%nat →
       ∃ offset stored_size,
         readUInt32LE
           (ico_bytes [sample_png 16 16 [x08]; sample_png 32 32 [x08; x06]])
           (6 + 16 * N.of_nat i + 12) = Ok offset
         ∧ readUInt32LE
             (ico_bytes [sample_png 16 16 [x08]; sample_png 32 32 [x08; x06]])
             (6 + 16 * N.of_nat i + 8) = Ok stored_size
         ∧ readUInt32LE
             (ico_bytes [sample_png 16 16 [x08]; sample_png 32 32 [x08; x06]])
             (6 + 16 * N.of_nat (S i) + 12)
           = Ok (offset + stored_size))
  ∧ ∃ offset stored_size,
      readUInt32LE
        (ico_bytes [sample_png 16 16 [x08]; sample_png 32 32 [x08; x06]])
        (6 + 16 * (len [sample_png 16 16 [x08]; sample_png 32 32 [x08; x06]] - 1)
         + 12) = Ok offset
      ∧ readUInt32LE
          (ico_bytes [sample_png 16 16 [x08]; sample_png 32 32 [x08; x06]])
          (6 + 16 * (len [sample_png 16 16 [x08]; sample_png 32 32 [x08; x06]] - 1)
           + 8) = Ok stored_size
      ∧ offset + stored_size
        = len (ico_bytes [sample_png 16 16 [x08]; sample_png 32 32 [x08; x06]]).
Proof.
  apply (encodeIco_payloads_tile
           [sample_png 16 16 [x08]; sample_png 32 32 [x08; x06]]).
  vm_compute. reflexivity.
Defined.
